(** * Affine: record model, ledger, dataset streamer, query dispatcher,
      runner, weight engine and validator loop

    A shallow embedding of [affine/__init__.py] and of [_normalize] of
    [affine/utils/lcb_checker.py].

    Conventions of the embedding
    - A Python [str] is a Rocq [string] holding its UTF-8 bytes; [py_len]
      counts code points, so that the one non-ASCII literal of the source,
      the placeholder "…" of [_truncate], has length 1 as in Python.  In
      the checker of LCB, where white space and line boundaries are
      classes of code points, a [str] is the list of its code points.
    - Python [int] is [Z]; [Optional[T]] is [option T]; a raised exception
      is the [Raise] constructor of [result].
    - Scores and accuracies are Python floats in the source.  They are
      embedded as canonical rationals [Qc]: the weight engine only adds
      them, divides a sum by a count, and compares the quotients; rounding
      and NaN are outside the model.
    - Functions of external packages (the sr25519 keypair of bittensor,
      pydantic/orjson decoding, the HTTP endpoint, the object store, the
      chain, the graders of the environments, the clock) are parameters
      or explicit states.  Functions of the Python standard library that
      the source calls ([bytes.hex], [bytes.fromhex], [repr],
      [textwrap.shorten], [json.dumps], [hashlib.sha256], [str.rstrip],
      [str.splitlines], [str.isdigit], [int] of a [str], [format],
      [range], [Path.name]) are modelled, most of them in module [Py].
    - Block heights are numbers of the chain, which [format] writes in
      full; names of index keys and of cache files are strings from
      outside, on which [int] raises for digits that are not decimal and
      for more characters than CPython converts (4300). *)

From Stdlib Require Import ZArith NArith QArith Qcanon Ascii String List Lia.
From Stdlib.Strings Require Import Byte.
From Stdlib Require DecimalString DecimalN DecimalPos.
From stdpp Require Import gmap strings list sorting pretty finite.

Local Open Scope Z_scope.

Set Warnings "-register-all,-clear-no-such-hyp".

(** * Results of computations that may raise *)

Inductive exn : Type :=
| ValueError | KeyError | IndexError | AttributeError | TypeError
| ValidationError | ClientError.

Inductive result (A : Type) : Type :=
| Ok (a : A)
| Raise (e : exn).
Arguments Ok {A} a.
Arguments Raise {A} e.

#[global] Instance result_ret : MRet result := @Ok.
#[global] Instance result_bind : MBind result :=
  λ A B k m, match m with Ok a => k a | Raise e => Raise e end.

#[global] Instance byte_eq_decision : EqDecision Byte.byte := Byte.byte_eq_dec.

(** [try: body except Exception: handler]: every member of [exn] is a
    subclass of Python's [Exception]. *)
Definition try_except {A} (body : result A) (handler : exn → result A) : result A :=
match body with Ok a => Ok a | Raise e => handler e end.

(** * Python standard-library functions used by the source *)

Module Py.

Definition code (c : ascii) : N := N_of_ascii c.

Definition chars (s : string) : list ascii := list_ascii_of_string s.
Definition str (l : list ascii) : string := string_of_list_ascii l.

(** A UTF-8 continuation byte, 0x80..0xBF. *)
Definition is_cont (c : ascii) : bool := (128 <=? code c)%N && (code c <? 192)%N.

(** [len(s)]: the number of code points. *)
Definition py_len (s : string) : nat :=
length (filter (λ c, negb (is_cont c)) (chars s)).

(** [s[:n]] and [s[n:]] on code points. *)
Fixpoint take_cp (n : nat) (l : list ascii) : list ascii :=
match l with
| [] => []
| c :: l' =>
  if is_cont c then c :: take_cp n l'
  else match n with O => [] | S n' => c :: take_cp n' l' end
end.

Fixpoint drop_cp (n : nat) (l : list ascii) : list ascii :=
match l with
| [] => []
| c :: l' =>
  if is_cont c then drop_cp n l'
  else match n with O => l | S n' => drop_cp n' l' end
end.

(** ** [bytes.hex] and [bytes.fromhex] *)

Definition hexdigit (n : N) : ascii :=
match n with
| 0 => "0" | 1 => "1" | 2 => "2" | 3 => "3" | 4 => "4" | 5 => "5"
| 6 => "6" | 7 => "7" | 8 => "8" | 9 => "9" | 10 => "a" | 11 => "b"
| 12 => "c" | 13 => "d" | 14 => "e" | _ => "f"
end%N%char.

Fixpoint hex (bs : list Byte.byte) : string :=
match bs with
| [] => ""
| b :: bs' =>
  String (hexdigit (Byte.to_N b / 16)) (String (hexdigit (Byte.to_N b mod 16)) (hex bs'))
end.

(** [_PyLong_DigitValue] below 16. *)
Definition digit_value (c : ascii) : option N :=
let n := code c in
if (48 <=? n)%N && (n <=? 57)%N then Some (n - 48)%N
else if (97 <=? n)%N && (n <=? 102)%N then Some (n - 87)%N
else if (65 <=? n)%N && (n <=? 70)%N then Some (n - 55)%N
else None.

(** [Py_ISSPACE]: space, \t, \n, \v, \f, \r. *)
Definition is_space (c : ascii) : bool :=
let n := code c in (n =? 32)%N || ((9 <=? n)%N && (n <=? 13)%N).

Definition byte_of_nibbles (top bot : N) : Byte.byte :=
match Byte.of_N (top * 16 + bot) with Some b => b | None => Byte.x00 end.

(** [bytes.fromhex]: ASCII whitespace is skipped between byte pairs, the
    digits are case-insensitive; [None] stands for the [ValueError]. *)
Fixpoint fromhex (s : string) : option (list Byte.byte) :=
match s with
| EmptyString => Some []
| String c s' =>
  if is_space c then fromhex s'
  else match digit_value c, s' with
       | Some top, String d s'' =>
         match digit_value d with
         | Some bot => cons (byte_of_nibbles top bot) <$> fromhex s''
         | None => None
         end
       | _, _ => None
       end
end.

(** ** [repr] of a [str]

    Exact on ASCII; bytes of non-ASCII characters are copied, which is
    what [repr] does for printable characters such as "…". *)

Definition squote : ascii := "'"%char.
Definition dquote : ascii := "034"%char.
Definition backslash : ascii := "\"%char.
Definition hyphen : ascii := "-"%char.

Definition repr_char (quote c : ascii) : list ascii :=
let n := code c in
if (n =? code quote)%N || (n =? 92)%N then [backslash; c]
else if (n =? 9)%N then [backslash; "t"%char]
else if (n =? 10)%N then [backslash; "n"%char]
else if (n =? 13)%N then [backslash; "r"%char]
else if (n <? 32)%N || (n =? 127)%N
     then [backslash; "x"%char; hexdigit (n / 16); hexdigit (n mod 16)]
else [c].

Definition repr_str (s : string) : string :=
let l := chars s in
let quote :=
  if existsb (λ c, (code c =? 39)%N) l && negb (existsb (λ c, (code c =? 34)%N) l)
  then dquote else squote in
str (quote :: flat_map (repr_char quote) l ++ [quote]).

(** ** [textwrap.shorten]

    [shorten(text, width, placeholder=p)] is
    [TextWrapper(width=width, max_lines=1, placeholder=p).fill(' '.join(text.strip().split()))],
    with the other options of [TextWrapper] at their defaults.  The character
    classes of the chunking regular expression are those of ASCII; a byte
    of a non-ASCII character counts as a non-space, non-word character. *)

(** [str.isspace] on ASCII, as used by [str.split()] and [str.strip()]. *)
Definition is_str_space (c : ascii) : bool :=
let n := code c in
(n =? 32)%N || ((9 <=? n)%N && (n <=? 13)%N) || ((28 <=? n)%N && (n <=? 31)%N).

(** [text.split()]; [cur] is the current word, reversed. *)
Fixpoint split_go (cur : list ascii) (l : list ascii) : list (list ascii) :=
match l with
| [] => match cur with [] => [] | _ => [rev cur] end
| c :: l' =>
  if is_str_space c
  then match cur with [] => split_go [] l' | _ => rev cur :: split_go [] l' end
  else split_go (c :: cur) l'
end.

Definition split (l : list ascii) : list (list ascii) := split_go [] l.

(** [sep.join(parts)] *)
Fixpoint join (sep : list ascii) (parts : list (list ascii)) : list ascii :=
match parts with
| [] => []
| [p] => p
| p :: ps => p ++ sep ++ join sep ps
end.

(** Character classes of [TextWrapper.wordsep_re]. *)
Definition is_digit (c : ascii) : bool := (48 <=? code c)%N && (code c <=? 57)%N.
Definition is_letter (c : ascii) : bool :=
let n := code c in
((65 <=? n)%N && (n <=? 90)%N) || ((97 <=? n)%N && (n <=? 122)%N) || (n =? 95)%N.
Definition is_word (c : ascii) : bool := is_letter c || is_digit c.
Definition is_word_punct (c : ascii) : bool :=
let n := code c in
is_word c || (n =? 33)%N || (n =? 34)%N || (n =? 39)%N || (n =? 38)%N
|| (n =? 46)%N || (n =? 44)%N || (n =? 63)%N.
Definition is_hyphen (c : ascii) : bool := (code c =? 45)%N.

(** [-{2,}(?=\w)] at the head of [l]. *)
Fixpoint dashes_then_word (k : nat) (l : list ascii) : bool :=
match l with
| [] => false
| c :: l' =>
  if is_hyphen c then dashes_then_word (S k) l'
  else is_word c && (2 <=? k)%nat
end.

(** [(?<=wp)] with [prev] the text before the position, reversed. *)
Definition after_word_punct (prev : list ascii) : bool :=
match prev with c :: _ => is_word_punct c | [] => false end.

(** The hyphenated-word tail, tried after the word has consumed the
    characters of [prev]: the next character is a hyphen, preceded by two
    letters or by letter, hyphen, letter, and followed by letter, optional
    hyphen, letter. *)
Definition hyphen_break (prev rest : list ascii) : bool :=
match rest with
| h :: a :: more =>
  is_hyphen h
  && match prev with
     | p1 :: p2 :: more_prev =>
       (is_letter p1 && is_letter p2)
       || (is_letter p1 && is_hyphen p2
           && match more_prev with p3 :: _ => is_letter p3 | [] => false end)
     | _ => false
     end
  && is_letter a
  && match more with
     | b :: more' =>
       is_letter b
       || (is_hyphen b && match more' with c :: _ => is_letter c | [] => false end)
     | [] => false
     end
| _ => false
end.

Inductive chunk_mode : Type := AtStart | InSpace | InDashes | InWord.

(** [wordsep_re.split(text)] without the empty strings: [prev] is the text
    consumed so far and [cur] the current chunk, both reversed. *)
Fixpoint chunks_go (prev cur : list ascii) (m : chunk_mode) (rest : list ascii)
  : list (list ascii) :=
match rest with
| [] => match cur with [] => [] | _ => [rev cur] end
| c :: r =>
  let m' :=
    match m with
    | AtStart =>
      if is_space c then InSpace
      else if after_word_punct prev && dashes_then_word 0 rest then InDashes
      else InWord
    | _ => m
    end in
  let prev' := c :: prev in
  let cur' := c :: cur in
  match m' with
  | InSpace =>
    match r with
    | d :: _ => if is_space d then chunks_go prev' cur' InSpace r
                else rev cur' :: chunks_go prev' [] AtStart r
    | [] => [rev cur']
    end
  | InDashes =>
    match r with
    | d :: _ => if is_hyphen d then chunks_go prev' cur' InDashes r
                else rev cur' :: chunks_go prev' [] AtStart r
    | [] => [rev cur']
    end
  | _ =>
    match r with
    | [] => [rev cur']
    | d :: r2 =>
      if hyphen_break prev' r
      then rev (d :: cur') :: chunks_go (d :: prev') [] AtStart r2
      else if is_space d || (after_word_punct prev' && dashes_then_word 0 r)
      then rev cur' :: chunks_go prev' [] AtStart r
      else chunks_go prev' cur' InWord r
    end
  end
end.

Definition split_chunks (text : list ascii) : list (list ascii) :=
chunks_go [] [] AtStart text.

Definition len (l : list ascii) : nat := py_len (str l).

(** [chunk.strip() == ''] *)
Definition is_blank (l : list ascii) : bool := forallb is_str_space l.

(** The inner [while chunks] loop of [_wrap_chunks]: chunks are moved to the
    current line (kept reversed) while they fit. *)
Fixpoint take_fitting (width cur_len : nat) (cur_line chunks : list (list ascii))
  : list (list ascii) * nat * list (list ascii) :=
match chunks with
| [] => (cur_line, cur_len, [])
| c :: cs =>
  if (cur_len + len c <=? width)%nat
  then take_fitting width (cur_len + len c)%nat (c :: cur_line) cs
  else (cur_line, cur_len, chunks)
end.

(** [chunk.rfind('-', 0, limit)], on code-point positions. *)
Fixpoint rfind_hyphen (l : list ascii) (i limit : nat) (best : option nat) : option nat :=
match l with
| [] => best
| c :: l' =>
  if is_cont c then rfind_hyphen l' i limit best
  else if (limit <=? i)%nat then best
  else rfind_hyphen l' (S i) limit (if is_hyphen c then Some i else best)
end.

(** [_handle_long_word] with [break_long_words] and [break_on_hyphens]:
    returns the piece put on the line and what stays of the chunk. *)
Definition handle_long_word (width cur_len : nat) (chunk : list ascii)
  : list ascii * list ascii :=
let space_left := if (width <? 1)%nat then 1%nat else (width - cur_len)%nat in
let end_ :=
  if (space_left <? len chunk)%nat
  then match rfind_hyphen chunk 0 space_left None with
       | Some h =>
         if (0 <? h)%nat && existsb (λ c, negb (is_hyphen c)) (take_cp h chunk)
         then S h else space_left
       | None => space_left
       end
  else space_left in
(take_cp end_ chunk, drop_cp end_ chunk).

(** [s.lstrip()] *)
Fixpoint lstrip (l : list ascii) : list ascii :=
match l with
| c :: l' => if is_str_space c then lstrip l' else l
| [] => []
end.

(** The [while cur_line] loop that makes room for the placeholder. *)
Fixpoint place (width : nat) (placeholder : list ascii)
    (cur_line : list (list ascii)) (cur_len : nat) : list ascii :=
match cur_line with
| [] => lstrip placeholder
| c :: cs =>
  if negb (is_blank c) && (cur_len + len placeholder <=? width)%nat
  then concat (rev (placeholder :: cur_line))
  else place width placeholder cs (cur_len - len c)%nat
end.

(** The first (and with [max_lines=1] only) line of [_wrap_chunks]. *)
Definition wrap_one_line (width : nat) (placeholder : list ascii)
    (chunks : list (list ascii)) : list ascii :=
let '(cur_line, cur_len, rest) := take_fitting width 0 [] chunks in
let '(cur_line, rest) :=
  match rest with
  | c :: cs =>
    if (width <? len c)%nat
    then let '(piece, remainder) := handle_long_word width cur_len c in
         (piece :: cur_line, remainder :: cs)
    else (cur_line, rest)
  | [] => (cur_line, rest)
  end in
let cur_len := list_sum (map len cur_line) in
let '(cur_line, cur_len) :=
  match cur_line with
  | c :: cs => if is_blank c then (cs, (cur_len - len c)%nat) else (cur_line, cur_len)
  | [] => (cur_line, cur_len)
  end in
match cur_line with
| [] => []
| _ =>
  let only_blank_left :=
    match rest with [] => true | [c] => is_blank c | _ => false end in
  if only_blank_left && (cur_len <=? width)%nat
  then concat (rev cur_line)
  else place width placeholder cur_line cur_len
end.

Definition shorten (text : string) (width : nat) (placeholder : string) : string :=
str (wrap_one_line width (chars placeholder)
       (split_chunks (join [" "%char] (split (chars text))))).

(** ** [json.dumps(obj, sort_keys=True, separators=(",", ":"))]

    The values that [json.dumps] accepts; a [dict] lists its items in
    insertion order, a float carries the text that [float.__repr__] gives. *)

Inductive json : Type :=
| JNull
| JBool (b : bool)
| JInt (z : Z)
| JFloat (text : string)
| JStr (s : string)
| JList (l : list json)
| JDict (items : list (string * json)).

(** The code points of a UTF-8 byte sequence. *)
Fixpoint utf8_decode (l : list ascii) : list N :=
match l with
| [] => []
| c :: l1 =>
  let n := code c in
  if (n <? 192)%N then n :: utf8_decode l1
  else match l1 with
  | [] => [n]
  | c2 :: l2 =>
    let n2 := (code c2 mod 64)%N in
    if (n <? 224)%N then ((n mod 32) * 64 + n2)%N :: utf8_decode l2
    else match l2 with
    | [] => [n]
    | c3 :: l3 =>
      let n3 := (code c3 mod 64)%N in
      if (n <? 240)%N then (((n mod 16) * 64 + n2) * 64 + n3)%N :: utf8_decode l3
      else match l3 with
      | [] => [n]
      | c4 :: l4 =>
        ((((n mod 8) * 64 + n2) * 64 + n3) * 64 + code c4 mod 64)%N :: utf8_decode l4
      end
    end
  end
end.

Definition hex4 (n : N) : list ascii :=
[hexdigit (n / 4096 mod 16); hexdigit (n / 256 mod 16);
 hexdigit (n / 16 mod 16); hexdigit (n mod 16)]%N.

(** [py_encode_basestring_ascii] on one code point ([ensure_ascii=True]). *)
Definition escape_cp (n : N) : list ascii :=
if (n =? 34)%N then [backslash; dquote]
else if (n =? 92)%N then [backslash; backslash]
else if (n =? 10)%N then [backslash; "n"%char]
else if (n =? 13)%N then [backslash; "r"%char]
else if (n =? 9)%N then [backslash; "t"%char]
else if (n =? 8)%N then [backslash; "b"%char]
else if (n =? 12)%N then [backslash; "f"%char]
else if (32 <=? n)%N && (n <=? 126)%N then [ascii_of_N n]
else if (n <? 65536)%N then backslash :: "u"%char :: hex4 n
else let v := (n - 65536)%N in
     (backslash :: "u"%char :: hex4 (55296 + v / 1024 mod 1024)%N)
     ++ (backslash :: "u"%char :: hex4 (56320 + v mod 1024)%N).

Definition encode_str (s : string) : string :=
str (dquote :: flat_map escape_cp (utf8_decode (chars s)) ++ [dquote]).

Fixpoint join_str (sep : string) (parts : list string) : string :=
match parts with
| [] => ""
| [p] => p
| p :: ps => p +:+ sep +:+ join_str sep ps
end.

(** [sorted(dct.items())]: the keys of a dict are distinct, so only the
    keys are ever compared; [str] comparison is by code point, which on
    UTF-8 is the bytewise order [String.le]. *)
Definition key_le {A} (a b : string * A) : Prop := String.le a.1 b.1.

#[global] Instance key_le_dec {A} : RelDecision (@key_le A).
Proof. intros a b. unfold key_le. apply _. Defined.

Definition sort_items {A} (items : list (string * A)) : list (string * A) :=
merge_sort key_le items.

Fixpoint dumps (v : json) : string :=
match v with
| JNull => "null"
| JBool true => "true"
| JBool false => "false"
| JInt z => pretty z
| JFloat text => text
| JStr s => encode_str s
| JList l => "[" +:+ join_str "," (List.map dumps l) +:+ "]"
| JDict items =>
  "{" +:+ join_str ","
            (List.map (λ kv, encode_str kv.1 +:+ ":" +:+ kv.2)
               (sort_items (List.map (λ kv, (kv.1, dumps kv.2)) items)))
      +:+ "}"
end.

(** ** [hashlib.sha256(data).hexdigest()] (FIPS 180-4) *)

Module SHA256.
Local Open Scope N_scope.

Definition w32 (x : N) : N := x mod 4294967296.
Definition add32 (x y : N) : N := w32 (x + y).
Definition rotr (k x : N) : N := N.lor (N.shiftr x k) (w32 (N.shiftl x (32 - k))).
Definition not32 (x : N) : N := N.lxor x 4294967295.
Definition ch (x y z : N) : N := N.lxor (N.land x y) (N.land (not32 x) z).
Definition maj (x y z : N) : N :=
N.lxor (N.lxor (N.land x y) (N.land x z)) (N.land y z).
Definition bsig0 (x : N) : N := N.lxor (N.lxor (rotr 2 x) (rotr 13 x)) (rotr 22 x).
Definition bsig1 (x : N) : N := N.lxor (N.lxor (rotr 6 x) (rotr 11 x)) (rotr 25 x).
Definition ssig0 (x : N) : N := N.lxor (N.lxor (rotr 7 x) (rotr 18 x)) (N.shiftr x 3).
Definition ssig1 (x : N) : N := N.lxor (N.lxor (rotr 17 x) (rotr 19 x)) (N.shiftr x 10).

Definition K : list N := [
  1116352408; 1899447441; 3049323471; 3921009573; 961987163; 1508970993;
  2453635748; 2870763221; 3624381080; 310598401; 607225278; 1426881987;
  1925078388; 2162078206; 2614888103; 3248222580; 3835390401; 4022224774;
  264347078; 604807628; 770255983; 1249150122; 1555081692; 1996064986;
  2554220882; 2821834349; 2952996808; 3210313671; 3336571891; 3584528711;
  113926993; 338241895; 666307205; 773529912; 1294757372; 1396182291;
  1695183700; 1986661051; 2177026350; 2456956037; 2730485921; 2820302411;
  3259730800; 3345764771; 3516065817; 3600352804; 4094571909; 275423344;
  430227734; 506948616; 659060556; 883997877; 958139571; 1322822218;
  1537002063; 1747873779; 1955562222; 2024104815; 2227730452; 2361852424;
  2428436474; 2756734187; 3204031479; 3329325298
].

Definition H0 : list N := [
  1779033703; 3144134277; 1013904242; 2773480762; 1359893119; 2600822924;
  528734635; 1541459225
].

(** Big-endian bytes of [x], [k] of them. *)
Fixpoint be_bytes (k : nat) (x : N) : list N :=
match k with
| O => []
| S k' => be_bytes k' (x / 256) ++ [x mod 256]
end.

Definition pad (msg : list N) : list N :=
let l := N.of_nat (length msg) in
let zeros := N.to_nat ((119 - l mod 64) mod 64) in
msg ++ [128] ++ repeat 0 zeros ++ be_bytes 8 (8 * l).

Fixpoint be_words (k : nat) (bs : list N) : list N :=
match k, bs with
| S k', b0 :: b1 :: b2 :: b3 :: bs' =>
  (((b0 * 256 + b1) * 256 + b2) * 256 + b3) :: be_words k' bs'
| _, _ => []
end.

(** The message schedule, most recent word first. *)
Fixpoint schedule (k : nat) (ws : list N) : list N :=
match k with
| O => ws
| S k' =>
  let w := add32 (add32 (ssig1 (nth 1 ws 0)) (nth 6 ws 0))
                 (add32 (ssig0 (nth 14 ws 0)) (nth 15 ws 0)) in
  schedule k' (w :: ws)
end.

Definition round (st : list N) (kw : N * N) : list N :=
match st with
| [a; b; c; d; e; f; g; h] =>
  let t1 := add32 (add32 (add32 h (bsig1 e)) (add32 (ch e f g) kw.1)) kw.2 in
  let t2 := add32 (bsig0 a) (maj a b c) in
  [add32 t1 t2; a; b; c; add32 d t1; e; f; g]
| _ => st
end.

Definition compress (h : list N) (block : list N) : list N :=
let ws := rev (schedule 48 (rev (be_words 16 block))) in
let st := fold_left round (combine K ws) h in
zip_with add32 h st.

Fixpoint blocks (n : nat) (h : list N) (bs : list N) : list N :=
match n with
| O => h
| S n' => blocks n' (compress h (firstn 64 bs)) (skipn 64 bs)
end.

Definition digest (msg : list N) : list N :=
let p := pad msg in
flat_map (be_bytes 4) (blocks (length p / 64) H0 p).

Definition hexdigest (data : string) : string :=
str (flat_map (λ b, [hexdigit (b / 16); hexdigit (b mod 16)])
       (digest (List.map code (chars data)))).

End SHA256.

End Py.


(** * Base-level data models *)

(** [_truncate(t, max_len=80)]; [not t] holds for [None] and for [""]. *)
Definition _truncate (t : option string) (max_len : nat) : string :=
match t with
| None => ""
| Some "" => ""
| Some t => Py.shorten t max_len "…"
end.

(** The environments: [ENVS = {"SAT": SAT, "ABD": ABD, "DED": DED}], in
    insertion order; [BaseEnv.name] is the class name. *)
Inductive Env : Type := SAT | ABD | DED.

Definition ENVS : list Env := [SAT; ABD; DED].

Definition Env_name (e : Env) : string :=
match e with SAT => "SAT" | ABD => "ABD" | DED => "DED" end.

#[global] Instance Env_eq_dec : EqDecision Env.
Proof. solve_decision. Defined.

#[global] Instance Env_countable : Countable Env.
Proof.
refine (inj_countable' (λ e, match e with SAT => 0%nat | ABD => 1%nat | DED => 2%nat end)
          (λ n, match n with 0%nat => SAT | 1%nat => ABD | _ => DED end) _).
by intros [].
Defined.

Module Challenge.

Record t : Type := mk {
  env : Env;
  prompt : string;
  extra : list (string * Py.json);
  challenge_id : option string
}.

(** The [values] that the pre-validator receives: [extra] and
    [challenge_id] may be missing, and [challenge_id] may be [None]; both
    read as [None] here. *)
Record values : Type := mk_values {
  v_env : Env;
  v_prompt : string;
  v_extra : option (list (string * Py.json));
  v_challenge_id : option string
}.

Definition base_dict (vs : values) : Py.json :=
Py.JDict [("env", Py.JStr (Env_name (v_env vs)));
          ("prompt", Py.JStr (v_prompt vs));
          ("extra", Py.JDict (default [] (v_extra vs)))].

Definition set_challenge_id (vs : values) : values :=
match v_challenge_id vs with
| None =>
  let canonical := Py.dumps (base_dict vs) in
  let cid := Py.SHA256.hexdigest canonical in
  mk_values (v_env vs) (v_prompt vs) (v_extra vs) (Some cid)
| Some _ => vs
end.

(** Construction of a [Challenge] from [values]: the pre-validator runs, then the fields are
    filled in, [extra] by its default factory when missing. *)
Definition new (vs : values) : t :=
let vs := set_challenge_id vs in
mk (v_env vs) (v_prompt vs) (default [] (v_extra vs)) (v_challenge_id vs).

(** [__repr__], which is also [__str__]. *)
Definition repr (self : t) : string :=
"<Challenge env=" +:+ Py.repr_str (Env_name (env self))
  +:+ " prompt=" +:+ Py.repr_str (_truncate (Some (prompt self)) 80) +:+ ">".

End Challenge.

Module Evaluation.
Record t : Type := mk {
  env : Env;
  score : Qc;
  extra : list (string * Py.json)
}.
End Evaluation.

Module Response.
Record t : Type := mk {
  response : option string;
  latency_seconds : Qc;
  attempts : Z;
  model : string;
  error : option string;
  success : bool
}.
End Response.

Module Miner.
Record t : Type := mk {
  uid : Z;
  hotkey : string;
  model : option string;
  revision : option string;
  block : option Z;
  chute : option (list (string * Py.json));
  slug : option string
}.
End Miner.

(** The keypairs of bittensor: [wallet.hotkey] with its address and its
    (randomised) [sign], and [bt.Keypair(ss58_address=...)] with its
    [verify]; both of these may raise. *)
Class Keyring : Type := {
  keypair : Type;
  pubkey : Type;
  ss58_address : keypair → string;
  kp_sign : keypair → N → string → list Byte.byte;
  keypair_of_ss58 : string → result pubkey;
  kp_verify : pubkey → string → list Byte.byte → result bool
}.

(** What the library promises: a signature made by a keypair verifies
    under the keypair rebuilt from its address. *)
Definition keyring_correct (K : Keyring) : Prop :=
∀ (kp : keypair) (nonce : N) (data : string),
  ∃ pk, keypair_of_ss58 (ss58_address kp) = Ok pk
        ∧ kp_verify pk data (kp_sign kp nonce data) = Ok true.

Module Result.

Definition __version__ : string := "0.0.0".

Record t : Type := mk {
  version : string;
  signature : string;
  hotkey : string;
  miner : Miner.t;
  challenge : Challenge.t;
  response : Response.t;
  evaluation : Evaluation.t
}.

(** [Result(miner=..., challenge=..., response=..., evaluation=...)] *)
Definition new (m : Miner.t) (c : Challenge.t) (r : Response.t) (e : Evaluation.t) : t :=
mk __version__ "" "" m c r e.

Definition set_hotkey (self : t) (h : string) : t :=
mk (version self) (signature self) h (miner self) (challenge self)
   (response self) (evaluation self).

Definition set_signature (self : t) (s : string) : t :=
mk (version self) s (hotkey self) (miner self) (challenge self)
   (response self) (evaluation self).

Definition set_challenge (self : t) (c : Challenge.t) : t :=
mk (version self) (signature self) (hotkey self) (miner self) c
   (response self) (evaluation self).

Section Signing.
Context {K : Keyring}.

(** [sign(self, wallet)]; [nonce] is the randomness the signer draws. *)
Definition sign (self : t) (wallet : keypair) (nonce : N) : t :=
let self := set_hotkey self (ss58_address wallet) in
set_signature self (Py.hex (kp_sign wallet nonce (Challenge.repr (challenge self)))).

Definition fromhex (s : string) : result (list Byte.byte) :=
match Py.fromhex s with Some bs => Ok bs | None => Raise ValueError end.

Definition verify (self : t) : result bool :=
kp ← keypair_of_ss58 (hotkey self);
sig ← fromhex (signature self);
kp_verify kp (Challenge.repr (challenge self)) sig.

End Signing.
End Result.

(** A keyring for the examples: a keypair is a name, its address is the
    name after the character 5, and a signature is a nonce byte followed by
    the bytes of address and data. *)
Definition toy_body (address data : string) : list Byte.byte :=
list_byte_of_string (address +:+ "|" +:+ data).

Definition toy_keyring : Keyring := {|
  keypair := string;
  pubkey := string;
  ss58_address := λ kp, String "5" kp;
  kp_sign := λ kp nonce data,
    Py.byte_of_nibbles 0 (nonce mod 16) :: toy_body (String "5" kp) data;
  keypair_of_ss58 := λ a,
    match a with
    | String "5" _ => Ok a
    | _ => Raise ValueError
    end;
  kp_verify := λ pk data sig,
    match sig with
    | _ :: body => Ok (bool_decide (body = toy_body pk data))
    | [] => Ok false
    end
|}.

(** * Dataset streamer *)

(** What a generator has produced when it stops: the items it yielded and,
    when it stopped by raising, the exception. *)
Definition stream (A : Type) : Type := list A * option exn.

Definition stream_app {A} (s1 s2 : stream A) : stream A :=
match s1.2 with
| Some e => s1
| None => (s1.1 ++ s2.1, s2.2)
end.

Section Dataset.
Context {K : Keyring}.

(** [Result.model_validate(_loads(raw))]: pydantic and orjson. *)
Variable model_validate : string → result Result.t.

(** The body of [async for raw in _jsonl(path)]. *)
Definition dataset_line (raw : string) : stream Result.t :=
match try_except
        (r ← model_validate raw;
         ok ← Result.verify r;
         Ok (if ok : bool then [r] else []))
        (λ _, Ok [])
with
| Ok ys => (ys, None)
| Raise e => ([], Some e)
end.

Fixpoint dataset_lines (lines : list string) : stream Result.t :=
match lines with
| [] => ([], None)
| raw :: rest => stream_app (dataset_line raw) (dataset_lines rest)
end.

(** [dataset]: the shards in key order; [await tasks[i]] gives the lines of
    shard [i] or raises what the transfer raised. *)
Fixpoint dataset (shards : list (result (list string))) : stream Result.t :=
match shards with
| [] => ([], None)
| Raise e :: _ => ([], Some e)
| Ok lines :: rest => stream_app (dataset_lines lines) (dataset rest)
end.

End Dataset.

(** * Query *)

Module Query.

Definition TERMINAL : gset Z := {[ 400; 404; 410 ]}.

(** A step that either raises an exception [e], of which only [str(e)] is
    used, or gives a value. *)
Definition attempt_step (A : Type) : Type := string + A.

(** What [sess.post] gives when it does not raise: the status, the outcome
    of [await r.text(errors="ignore")], the text of the error that
    [r.raise_for_status()] raises when the status is 400 or more, and the
    outcome of [(await r.json())["choices"][0]["message"]["content"]] as
    the Response takes it: an exception (of the decoding, of a missing
    member, or of the validation of a content that is no string), a text,
    or [None] for a JSON [null]. *)
Record reply : Type := mk_reply {
  status : Z;
  text : attempt_step string;
  status_error : string;
  content : attempt_step (option string)
}.

(** The endpoint and the process as [query] sees them. *)
Record world : Type := mk_world {
  api_key : option string;
  post : Z → attempt_step reply;
  start : Qc;
  now : Z → Qc;
  jitter : Z → Qc
}.

Inductive event : Type :=
| Post (attempt : Z)
| Sleep (seconds : Qc).

Section Query.
Variable w : world.
Variables (model : string) (retries : Z) (backoff : Qc).

(** [R = lambda resp, at, err, ok: Response(...)] *)
Definition R (resp : option string) (at_ : Z) (err : option string) (ok : bool) : Response.t :=
Response.mk resp (now w at_ - start w)%Qc at_ model err ok.

(** The body of the [try]: an exception, or the value returned. *)
Definition try_body (attempt : Z) : attempt_step Response.t :=
match post w attempt with
| inl e => inl e
| inr r =>
  match text r with
  | inl e => inl e
  | inr txt =>
    if bool_decide (status r ∈ TERMINAL)
    then inr (R None attempt (Some (pretty (status r) +:+ ":" +:+ txt)) false)
    else if bool_decide (400 ≤ status r) then inl (status_error r)
    else match content r with
         | inl e => inl e
         | inr c => inr (R c attempt None true)
         end
  end
end.

Definition sleep_seconds (attempt : Z) : Qc :=
(backoff * Q2Qc (inject_Z (2 ^ (attempt - 1))) * (1 + jitter w attempt))%Qc.

(** [for attempt in range(1, retries+2)], from [attempt] on with [n]
    iterations left; falling off the loop returns [None]. *)
Fixpoint attempts_from (n : nat) (attempt : Z) : option Response.t * list event :=
match n with
| O => (None, [])
| S n' =>
  match try_body attempt with
  | inr resp => (Some resp, [Post attempt])
  | inl e =>
    if bool_decide (attempt > retries)
    then (Some (R None attempt (Some e) false), [Post attempt])
    else let '(resp, evs) := attempts_from n' (attempt + 1) in
         (resp, Post attempt :: Sleep (sleep_seconds attempt) :: evs)
  end
end.

(** [query]; [get_conf('CHUTES_API_KEY')] raises when the key is not set. *)
Definition query : result (option Response.t * list event) :=
match api_key w with
| None | Some "" => Raise ValueError
| Some _ => Ok (attempts_from (Z.to_nat (retries + 1)) 1)
end.

End Query.
End Query.

(** * Validator: [get_weights] *)

(** A [dict] whose iteration order matters: the items in insertion order. *)
Section Alist.
Context {Key V : Type} `{EqDecision Key}.

Fixpoint alist_get (k : Key) (l : list (Key * V)) : option V :=
match l with
| [] => None
| (k', v) :: l' => if decide (k = k') then Some v else alist_get k l'
end.

(** [d[k] = v]: a key already present keeps its place. *)
Fixpoint alist_set (k : Key) (v : V) (l : list (Key * V)) : list (Key * V) :=
match l with
| [] => [(k, v)]
| (k', v') :: l' =>
  if decide (k = k') then (k, v) :: l' else (k', v') :: alist_set k v l'
end.

End Alist.

(** [s.split(sep, 1)] for a one-character separator. *)
Fixpoint split1 (sep : ascii) (s : string) : list string :=
match s with
| EmptyString => [""]
| String c s' =>
  if decide (c = sep) then [""; s']
  else match split1 sep s' with
       | h :: tl => String c h :: tl
       | [] => []
       end
end.

(** [s.split(sep)] for a one-character separator. *)
Fixpoint split_all (sep : ascii) (s : string) : list string :=
match s with
| EmptyString => [""]
| String c s' =>
  if decide (c = sep) then "" :: split_all sep s'
  else match split_all sep s' with
       | h :: tl => String c h :: tl
       | [] => []
       end
end.

(** [s.lower()] on the ASCII letters; the bytes of other characters are
    kept.  The source uses the result only in [startswith('affine')], for
    which this is exact: the one non-ASCII character whose lower-case form
    begins with a letter of that word, U+0130, continues with a combining
    dot. *)
Definition lower_char (c : ascii) : ascii :=
let n := Py.code c in
if (65 <=? n)%N && (n <=? 90)%N then ascii_of_N (n + 32) else c.

Fixpoint lower (s : string) : string :=
match s with
| EmptyString => ""
| String c s' => String (lower_char c) (lower s')
end.

Definition startswith (s p : string) : bool := String.prefix p s.

(** [itertools.permutations(l, 2)]: the pairs of items at distinct
    positions, in the order of the positions; [before] holds the items
    already left behind. *)
Fixpoint permutations2_from {A} (before l : list A) : list (A * A) :=
match l with
| [] => []
| x :: after => (pair x <$> before ++ after) ++ permutations2_from (before ++ [x]) after
end.

Definition permutations2 {A} (l : list A) : list (A * A) := permutations2_from [] l.

Definition Qc_ge (x y : Qc) : Prop := (y <= x)%Qc.

#[global] Instance Qc_ge_dec : RelDecision Qc_ge.
Proof.
intros x y. unfold Qc_ge.
destruct (Qclt_le_dec x y) as [Hlt | Hle].
- right. by apply Qclt_not_le.
- by left.
Defined.

#[global] Instance Qc_eq_decision : EqDecision Qc := Qc_eq_dec.

Definition Qc_of_Z (z : Z) : Qc := Q2Qc (inject_Z z).

(** Lexicographic [>] on the key tuples of [max]. *)
Definition tuple_gt (x y : Z * Z) : bool :=
(y.1 <? x.1) || ((x.1 =? y.1) && (y.2 <? x.2)).

(** [max(iterable, key=key)]: the first item whose key no later key
    exceeds; [ValueError] on an empty iterable. *)
Section PyMax.
Context {A : Type} (key : A → result (Z * Z)).

Fixpoint py_max_from (best : A) (best_key : Z * Z) (l : list A) : result A :=
match l with
| [] => Ok best
| x :: l' =>
  k ← key x;
  if tuple_gt k best_key then py_max_from x k l' else py_max_from best best_key l'
end.

Definition py_max (l : list A) : result A :=
match l with
| [] => Raise ValueError
| x :: l' => k ← key x; py_max_from x k l'
end.

End PyMax.

Module Weights.

(** The three accumulators: [cnt] and [succ] are dicts of
    [defaultdict(int)] keyed by the registered hotkeys, [prev] is a dict in
    insertion order. *)
Record state : Type := mk_state {
  cnt : gmap string (gmap Env Z);
  succ : gmap string (gmap Env Qc);
  prev : list (string * Result.t)
}.

(** [m[hk][e]] and [m[hk][e] = v] on a dict of [defaultdict(int)]; the
    source reads and writes [m[hk]] only for keys of [m]. *)
Definition get2 {V} (zero : V) (m : gmap string (gmap Env V)) (hk : string) (e : Env) : V :=
default zero (default ∅ (m !! hk) !! e).

Definition set2 {V} (m : gmap string (gmap Env V)) (hk : string) (e : Env) (v : V)
  : gmap string (gmap Env V) :=
<[hk := <[e := v]> (default ∅ (m !! hk))]> m.

Definition init (hotkeys : list string) : state :=
mk_state (list_to_map ((λ hk, (hk, ∅)) <$> hotkeys))
         (list_to_map ((λ hk, (hk, ∅)) <$> hotkeys))
         [].

(** [c.miner.model.split('/',1)[1].lower()] *)
Definition name_of (c : Result.t) : result string :=
match Miner.model (Result.miner c) with
| None => Raise AttributeError
| Some m =>
  match split1 "/" m with
  | _ :: name :: _ => Ok (lower name)
  | _ => Raise IndexError
  end
end.

(** [hk not in cnt or not name.startswith('affine')] *)
Definition skipped (st : state) (hk name : string) : bool :=
negb (bool_decide (is_Some (cnt st !! hk))) || negb (startswith name "affine").

(** [p.block!=c.miner.block or p.model!=c.miner.model or p.revision!=c.miner.revision] *)
Definition changed (p c : Miner.t) : bool :=
bool_decide (Miner.block p ≠ Miner.block c)
|| bool_decide (Miner.model p ≠ Miner.model c)
|| bool_decide (Miner.revision p ≠ Miner.revision c).

(** [# reset if block/model/revision changed] *)
Definition reset (st : state) (c : Result.t) : state :=
let hk := Miner.hotkey (Result.miner c) in
let env := Challenge.env (Result.challenge c) in
match alist_get hk (prev st) with
| Some p =>
  if changed (Result.miner p) (Result.miner c)
  then mk_state (cnt st) (set2 (succ st) hk env 0%Qc) (prev st)
  else st
| None => st
end.

(** [prev[hk] = c; cnt[hk][env] += 1; succ[hk][env] += c.evaluation.score] *)
Definition accumulate (st : state) (c : Result.t) : state :=
let hk := Miner.hotkey (Result.miner c) in
let env := Challenge.env (Result.challenge c) in
mk_state (set2 (cnt st) hk env (get2 0 (cnt st) hk env + 1))
         (set2 (succ st) hk env
               (get2 0%Qc (succ st) hk env + Evaluation.score (Result.evaluation c))%Qc)
         (alist_set hk c (prev st)).

(** The body of [async for c in dataset(tail=tail)]. *)
Definition step (st : state) (c : Result.t) : result state :=
let hk := Miner.hotkey (Result.miner c) in
name ← name_of c;
if skipped st hk name then Ok st
else Ok (accumulate (reset st c) c).

Fixpoint steps (st : state) (cs : list Result.t) : result state :=
match cs with
| [] => Ok st
| c :: cs' => st' ← step st c; steps st' cs'
end.

(** [acc[hk][e]] *)
Definition acc (st : state) (hk : string) (e : Env) : Qc :=
let n := get2 0 (cnt st) hk e in
if decide (n = 0) then 0%Qc else (get2 0%Qc (succ st) hk e / Qc_of_Z n)%Qc.

(** [uniq = sorted({acc[h][e] for h in meta.hotkeys}, reverse=True)] *)
Definition uniq (accs : list Qc) : list Qc := merge_sort Qc_ge (remove_dups accs).

(** [rank_of = {v: i+1 for i, v in enumerate(uniq)}] *)
Definition rank_of (u : list Qc) : list (Qc * Z) := imap (λ i v, (v, Z.of_nat i + 1)) u.

(** [rank_of[v]]; the source looks up members of [uniq] only. *)
Definition rank_in (accs : list Qc) (v : Qc) : Z :=
default 0 (alist_get v (rank_of (uniq accs))).

(** [ranks[e][h]] *)
Definition ranks (hotkeys : list string) (st : state) (e : Env) (h : string) : Z :=
rank_in ((λ h, acc st h e) <$> hotkeys) (acc st h e).

Section Dominance.
Variable rk : Env → string → Z.

(** [all(ranks[e][a] <= ranks[e][b] for e in ENVS) and any(ranks[e][a] < ranks[e][b] for e in ENVS)] *)
Definition dominates (a b : string) : bool :=
forallb (λ e, rk e a <=? rk e b) ENVS && existsb (λ e, rk e a <? rk e b) ENVS.

(** [dom], a [defaultdict(int)] *)
Definition dom (hotkeys : list string) : gmap string Z :=
fold_left (λ d ab, if dominates ab.1 ab.2
                   then <[ab.1 := default 0 (d !! ab.1) + 1]> d else d)
          (permutations2 hotkeys) ∅.

End Dominance.

(** [lambda hk: (dom[hk], -prev[hk].miner.block)], on the items of [prev] *)
Definition best_key (d : gmap string Z) (item : string * Result.t) : result (Z * Z) :=
match Miner.block (Result.miner item.2) with
| Some b => Ok (default 0 (d !! item.1), - b)
| None => Raise TypeError
end.

(** [meta.hotkeys.index(best)] *)
Definition index (hotkeys : list string) (best : string) : result Z :=
match list_find (λ h, h = best) hotkeys with
| Some (i, _) => Ok (Z.of_nat i)
| None => Raise ValueError
end.

(** A row of the summary table, for an item of [prev]: of the miner it
    takes [m.model.split('/')[1][:20]] and [m.revision[:5]], which raise
    when the model is [None] or has no slash and when the revision is
    [None]; the other columns are numbers that are there. *)
Definition summary_row (item : string * Result.t) : result unit :=
let m := Result.miner item.2 in
match Miner.model m with
| None => Raise AttributeError
| Some model =>
  match split_all "/" model with
  | _ :: _ :: _ =>
    match Miner.revision m with
    | Some _ => Ok ()
    | None => Raise TypeError
    end
  | _ => Raise IndexError
  end
end.

(** The rows, in the order of [prev]. *)
Fixpoint summary (items : list (string * Result.t)) : result unit :=
match items with
| [] => Ok ()
| item :: rest => _ ← summary_row item; summary rest
end.

(** [get_weights] from the metagraph on, that is once the calls before it
    (the subtensor, the current block, [prune]) have returned: from the
    registered hotkeys and what [dataset] streams it returns
    [(best_uid, best)], after the rows of the summary are built. *)
Definition get_weights (hotkeys : list string) (data : stream Result.t)
  : result (Z * string) :=
st ← steps (init hotkeys) data.1;
_ ← match data.2 with Some e => Raise e | None => Ok () end;
(* max_acc[e] = max(acc[hk][e] for hk in meta.hotkeys) *)
_ ← match hotkeys with [] => Raise ValueError | _ => Ok () end;
let d := dom (ranks hotkeys st) hotkeys in
best ← py_max (best_key d) (prev st);
best_uid ← index hotkeys best.1;
_ ← summary (prev st);
Ok (best_uid, best.1).

End Weights.

(** * Sample data for the examples *)

Definition sample_miner : Miner.t :=
Miner.mk 3 "5Miner" (Some "alice/Affine-7B") (Some "rev1") (Some 100) None (Some "slug").

Definition sample_challenge : Challenge.t :=
Challenge.new (Challenge.mk_values SAT "Is (x1 or x2) satisfiable?" None None).

Definition sample_response : Response.t :=
Response.mk (Some "yes") 1%Qc 1 "alice/Affine-7B" None true.

Definition sample_evaluation : Evaluation.t := Evaluation.mk SAT 1%Qc [].

Definition sample_result : Result.t :=
Result.new sample_miner sample_challenge sample_response sample_evaluation.

(** Two challenges of one environment whose prompts agree on more than the
    first 80 characters. *)
Definition challenge_a : Challenge.t :=
Challenge.new (Challenge.mk_values SAT
  "Find a satisfying assignment for the following formula over the variables x1 to x9: (x1 or x2) and (not x3)"
  None None).

Definition challenge_b : Challenge.t :=
Challenge.new (Challenge.mk_values SAT
  "Find a satisfying assignment for the following formula over the variables x1 to x9: (x4 or x5) and (not x6)"
  None None).

(** The lines that the specification says the stream yields: those that
    decode into a Result whose [verify()] returns true. *)
Definition accepted_line {K : Keyring} (model_validate : string → result Result.t)
    (raw : string) : option Result.t :=
match model_validate raw with
| Ok r => match Result.verify r with Ok true => Some r | _ => None end
| Raise _ => None
end.

(** A decoder for the examples: a line is the name of a keypair, and decodes
    to the sample Result signed by it, with signature [bad] for the line
    [forged] and with an invalid hex signature for the line [broken];
    the empty line does not decode. *)
Definition toy_validate (raw : string) : result Result.t :=
match raw with
| "" => Raise ValidationError
| "forged" => Ok (Result.set_signature (@Result.sign toy_keyring sample_result raw 1) "00")
| "broken" => Ok (Result.set_signature (@Result.sign toy_keyring sample_result raw 1) "zz")
| _ => Ok (@Result.sign toy_keyring sample_result raw 1)
end.

(** An endpoint for the examples: the first attempt times out, the second
    is answered with status 404. *)
Definition toy_world : Query.world :=
Query.mk_world (Some "key")
  (λ attempt, if decide (attempt = 2)
              then inr (Query.mk_reply 404 (inr "not found") "404, message='Not Found'" (inl "no json"))
              else inl "timeout")
  0%Qc (λ attempt, Qc_of_Z attempt) (λ _, 0%Qc).

(** An endpoint that answers every attempt with status 200 and a JSON
    [null] as content. *)
Definition null_world : Query.world :=
Query.mk_world (Some "key")
  (λ _, inr (Query.mk_reply 200 (inr "{}") "" (inr None)))
  0%Qc (λ attempt, Qc_of_Z attempt) (λ _, 0%Qc).


(** The canonical form of a challenge in the words of the specification:
    the JSON object with the members [env], [extra] and [prompt], keys in
    sorted order, separated by commas and colons without blanks. *)
Definition json_member (key value : string) : string :=
Py.encode_str key +:+ ":" +:+ value.

Definition canonical_json (e : Env) (prompt : string) (extra : list (string * Py.json)) : string :=
"{" +:+ Py.join_str ","
          [json_member "env" (Py.encode_str (Env_name e));
           json_member "extra" (Py.dumps (Py.JDict extra));
           json_member "prompt" (Py.encode_str prompt)]
    +:+ "}".

(** A Result of the stream for the examples: the miner's hotkey, model and
    block, the environment and the score. *)
Definition scored (hk : string) (model : option string) (block : option Z)
    (e : Env) (score : Qc) : Result.t :=
Result.new (Miner.mk 0 hk model (Some "rev1") block None None)
  (Challenge.new (Challenge.mk_values e "prompt" None (Some "id")))
  sample_response (Evaluation.mk e score []).

(** The scenario of the specification: accuracies A: 1.0 and 0.5,
    B: 0.5 and 1.0, C: 0.2 and 0.2 in two environments; A committed at block
    10, B at block 5. *)
Definition scenario : list Result.t := [
  scored "A" (Some "org/Affine-a") (Some 10) SAT 1%Qc;
  scored "A" (Some "org/Affine-a") (Some 10) ABD (Q2Qc (1 # 2));
  scored "B" (Some "org/affine-b") (Some 5) SAT (Q2Qc (1 # 2));
  scored "B" (Some "org/affine-b") (Some 5) ABD 1%Qc;
  scored "C" (Some "org/affine-c") (Some 1) SAT (Q2Qc (1 # 5));
  scored "C" (Some "org/affine-c") (Some 1) ABD (Q2Qc (1 # 5))
].

Definition state_after (hotkeys : list string) (cs : list Result.t) : Weights.state :=
match Weights.steps (Weights.init hotkeys) cs with
| Ok st => st
| Raise _ => Weights.init hotkeys
end.

#[global] Instance Qc_lt_dec : RelDecision Qclt.
Proof.
intros x y. destruct (Qclt_le_dec x y) as [Hlt | Hle].
- by left.
- right. by apply Qcle_not_lt.
Defined.



(** * The winner in the words of the specification *)

#[global] Instance Env_finite : Finite Env.
Proof.
refine {| enum := ENVS |}.
- unfold ENVS. repeat (apply NoDup_cons; split; [set_solver |]). apply NoDup_nil_2.
- intros []; unfold ENVS; set_solver.
Defined.

(** [a] dominates [b]: its rank is at most that of [b] in every
    environment and lower in at least one. *)
Definition Dominates (rk : Env → string → Z) (a b : string) : Prop :=
(∀ e, rk e a ≤ rk e b) ∧ (∃ e, rk e a < rk e b).

#[global] Instance Dominates_dec rk a b : Decision (Dominates rk a b).
Proof. unfold Dominates. apply _. Defined.

(** The number of registered identities that [a] dominates. *)
Definition dominance_count (hotkeys : list string) (st : Weights.state) (a : string) : Z :=
Z.of_nat (length (filter (Dominates (Weights.ranks hotkeys st) a) hotkeys)).

(** A Result that is observed, not skipped: its model name can be read,
    its miner's hotkey is registered and the name starts with affine. *)
Definition observed (hotkeys : list string) (c : Result.t) : Prop :=
∃ name, Weights.name_of c = Ok name
        ∧ Miner.hotkey (Result.miner c) ∈ hotkeys
        ∧ startswith name "affine" = true.

#[global] Instance observed_dec hotkeys c : Decision (observed hotkeys c).
Proof.
unfold observed. destruct (Weights.name_of c) as [name | e].
- destruct (decide (Miner.hotkey (Result.miner c) ∈ hotkeys
                    ∧ startswith name "affine" = true)) as [H | H].
  + left. exists name. tauto.
  + right. intros (name' & Heq & H1 & H2). inversion Heq; subst. tauto.
- right. by intros (name' & Heq & _).
Defined.

(** The last observed Result of identity [hk] in the stream: the Result
    whose miner gives the registration block of [hk]. *)
Definition latest (hotkeys : list string) (cs : list Result.t) (hk : string) : option Result.t :=
last (filter (λ c, observed hotkeys c ∧ Miner.hotkey (Result.miner c) = hk) cs).

(** The order of the key tuples of [max]. *)
Definition lex_le (x y : Z * Z) : Prop := x.1 < y.1 ∨ (x.1 = y.1 ∧ x.2 ≤ y.2).

(** The pairs of [permutations] that add one to [dom[a]]. *)
Definition counts_for (rk : Env → string → Z) (a : string) (ab : string * string) : Prop :=
ab.1 = a ∧ Dominates rk ab.1 ab.2.

#[global] Instance counts_for_dec rk a ab : Decision (counts_for rk a ab).
Proof. unfold counts_for. apply _. Defined.

(** What the loop of [get_weights] maintains: the keys of [cnt] are the
    registered hotkeys, [prev] has no repeated key, and [prev[hk]] is the
    last observed Result of [hk] among those consumed. *)
Definition loop_invariant (hotkeys : list string) (pre : list Result.t)
    (st : Weights.state) : Prop :=
(∀ hk, is_Some (Weights.cnt st !! hk) ↔ hk ∈ hotkeys)
∧ NoDup (Weights.prev st).*1
∧ ∀ hk, alist_get hk (Weights.prev st) = latest hotkeys pre hk.

(** * Ledger: windows, shard keys, the index, the sink and the cache

    The remote object store is a state: the index object (absent, or the
    list of keys it holds) and the shard objects by key; a shard holds the
    dumped Results, of an abstract type.  [WINDOW] is the window size,
    [int(os.getenv("AFFINE_WINDOW", 20))]; the source divides by it, so it
    is not zero. *)

Module Ledger.

Definition RESULT_PREFIX : string := "affine/results/".

(** [Path(k).name]: the last component that is neither empty nor a dot. *)
Definition path_name (k : string) : string :=
default "" (last (filter (λ c, c ≠ "" ∧ c ≠ ".") (split_all "/" k))).

(** [s.split("-", 1)[0]] *)
Definition before_dash (s : string) : string :=
match split1 "-" s with h :: _ => h | [] => "" end.

(** The decimal digits of Unicode (category Nd), as [int] reads them
    and [str.isdecimal] tests them, in runs of code points; a run starts
    with a digit zero and holds whole series of ten.  The tables are
    those of Unicode 14.0, the database of CPython 3.11. *)
Definition decimal_runs : list (N * N) :=
[(48, 57); (1632, 1641); (1776, 1785); (1984, 1993); (2406, 2415);
 (2534, 2543); (2662, 2671); (2790, 2799); (2918, 2927); (3046, 3055);
 (3174, 3183); (3302, 3311); (3430, 3439); (3558, 3567); (3664, 3673);
 (3792, 3801); (3872, 3881); (4160, 4169); (4240, 4249); (6112, 6121);
 (6160, 6169); (6470, 6479); (6608, 6617); (6784, 6793); (6800, 6809);
 (6992, 7001); (7088, 7097); (7232, 7241); (7248, 7257); (42528, 42537);
 (43216, 43225); (43264, 43273); (43472, 43481); (43504, 43513); (43600, 43609);
 (44016, 44025); (65296, 65305); (66720, 66729); (68912, 68921); (69734, 69743);
 (69872, 69881); (69942, 69951); (70096, 70105); (70384, 70393); (70736, 70745);
 (70864, 70873); (71248, 71257); (71360, 71369); (71472, 71481); (71904, 71913);
 (72016, 72025); (72784, 72793); (73040, 73049); (73120, 73129); (92768, 92777);
 (92864, 92873); (93008, 93017); (120782, 120831); (123200, 123209); (123632, 123641);
 (125264, 125273); (130032, 130041)]%N.

(** The other characters of which [str.isdigit] is true (superscripts,
    circled digits and the like): [int] rejects them. *)
Definition other_digit_runs : list (N * N) :=
[(178, 179); (185, 185); (4969, 4977); (6618, 6618); (8304, 8304);
 (8308, 8313); (8320, 8329); (9312, 9320); (9332, 9340); (9352, 9360);
 (9450, 9450); (9461, 9469); (9471, 9471); (10102, 10110); (10112, 10120);
 (10122, 10130); (68160, 68163); (69216, 69224); (69714, 69722); (127232, 127242)]%N.

Definition in_run (c : N) (run : N * N) : bool := ((run.1 <=? c) && (c <=? run.2))%N.

(** The value of a decimal digit. *)
Definition decimal_value (c : N) : option Z :=
match List.find (in_run c) decimal_runs with
| Some run => Some (Z.of_N ((c - run.1) mod 10))
| None => None
end.

(** [c.isdigit()] *)
Definition isdigit_cp (c : N) : bool :=
existsb (in_run c) decimal_runs || existsb (in_run c) other_digit_runs.

(** [s.isdigit()] *)
Definition isdigit (s : string) : bool :=
negb (bool_decide (s = "")) && forallb isdigit_cp (Py.utf8_decode (Py.chars s)).

(** The number that a list of digit values spells. *)
Definition digits_value (ds : list Z) : Z := fold_left (λ a d, 10 * a + d) ds 0.

(** [sys.int_info.default_max_str_digits], which the source leaves as it
    is: [int] raises on a string of more characters. *)
Definition int_max_str_digits : Z := 4300.

(** [int(s)] for a string [s] with [s.isdigit()]: the characters are
    read by their decimal values; a digit that is not decimal makes
    [int] raise, and so does a string longer than the limit. *)
Definition py_int (s : string) : result Z :=
match mapM decimal_value (Py.utf8_decode (Py.chars s)) with
| Some ds =>
  if int_max_str_digits <? Z.of_nat (length ds) then Raise ValueError
  else Ok (digits_value ds)
| None => Raise ValueError
end.

(** The window that a shard or cache file name starts with:
    [(h := name.split("-", 1)[0]).isdigit()] and then [int(h)]. *)
Definition window_of_name (name : string) : result (option Z) :=
let h := before_dash name in
if isdigit h then w ← py_int h; Ok (Some w) else Ok None.

(** [format(n, "09d")] *)
Definition zfill (width : nat) (digits : string) : string :=
Py.str (repeat "0"%char (width - String.length digits)) +:+ digits.

Definition format_09d (n : Z) : string :=
let digits := DecimalString.NilEmpty.string_of_uint (N.to_uint (Z.abs_N n)) in
if n <? 0 then "-" +:+ zfill 8 digits else zfill 9 digits.

(** [range(start, stop, step)] for a step that is not zero. *)
Definition py_range (start stop step : Z) : list Z :=
if 0 <? step
then (λ i, start + Z.of_nat i * step) <$> seq 0 (Z.to_nat ((stop - start + step - 1) / step))
else if step <? 0
then (λ i, start + Z.of_nat i * step) <$> seq 0 (Z.to_nat ((start - stop - step - 1) / (- step)))
else [].

Section Ledger.
Variable WINDOW : Z.

(** [_w(b) = (b // WINDOW) * WINDOW] *)
Definition _w (b : Z) : Z := (b / WINDOW) * WINDOW.

(** The key that [sink] writes to. *)
Definition shard_key (block : Z) (address : string) : string :=
RESULT_PREFIX +:+ format_09d (_w block) +:+ "-" +:+ address +:+ ".json".

(** [need] of [_shard_keys] *)
Definition need (cur tail : Z) : list Z :=
remove_dups (py_range (_w (cur - tail)) (_w cur + WINDOW) WINDOW).

(** The test of the comprehension of [_shard_keys] on one key. *)
Definition key_needed (cur tail : Z) (k : string) : result bool :=
ow ← window_of_name (path_name k);
Ok (match ow with Some w => bool_decide (w ∈ need cur tail) | None => false end).

(** [[k for k in keys if ...]]: the first key whose test raises ends the
    comprehension. *)
Fixpoint select_keys (cur tail : Z) (keys : list string) : result (list string) :=
match keys with
| [] => Ok []
| k :: ks =>
  b ← key_needed cur tail k;
  rest ← select_keys cur tail ks;
  Ok (if b : bool then k :: rest else rest)
end.

(** [_shard_keys(tail)], from the current block and the index object;
    [_index()] raises when the object is missing. *)
Definition _shard_keys (index : option (list string)) (cur tail : Z) : result (list string) :=
match index with
| None => Raise ClientError
| Some keys => keys ← select_keys cur tail keys; Ok (merge_sort String.le keys)
end.

(** A name that [glob("*.jsonl")] matches. *)
Definition is_jsonl (name : string) : bool :=
String.prefix (String.rev ".jsonl") (String.rev name).

(** [f.stem] of a file that [glob] matched. *)
Definition stem (name : string) : string :=
if bool_decide (name = ".jsonl") then name
else String.substring 0 (String.length name - 6) name.

(** [prune(tail)] on the names of the files of the cache directory, in
    the order in which [glob] gives them: the files [*.jsonl] whose stem
    starts with a number below [cur - tail] are deleted.  Returns the
    files that are left and, when the [int] of a name raised and stopped
    the loop, the exception. *)
Fixpoint prune (cur tail : Z) (files : list string) : list string * option exn :=
match files with
| [] => ([], None)
| f :: fs =>
  if is_jsonl f
  then match window_of_name (stem f) with
       | Raise e => (files, Some e)
       | Ok ow =>
         let '(kept, e) := prune cur tail fs in
         (if match ow with Some b => b <? cur - tail | None => false end
          then kept else f :: kept, e)
       end
  else let '(kept, e) := prune cur tail fs in (f :: kept, e)
end.

(** The file in which [_cache_shard] keeps the shard of [key]. *)
Definition cache_file (key : string) : string := path_name key +:+ ".jsonl".

End Ledger.

(** The object store. *)
Record store (J : Type) : Type := mk_store {
  index : option (list string);
  shards : gmap string (list J)
}.
Arguments mk_store {J} _ _.
Arguments index {J} _.
Arguments shards {J} _.

(** [_update_index(key)]: the index is read as a set, and written back
    sorted when the key is new. *)
Definition _update_index {J} (key : string) (s : store J) : store J :=
let idx : gset string := list_to_set (default [] (index s)) in
if decide (key ∈ idx) then s
else mk_store (Some (merge_sort String.le (elements ({[key]} ∪ idx)))) (shards s).

Section Sink.
Context {K : Keyring} {J : Type}.
Variable WINDOW : Z.

(** [r.model_dump(mode="json")] *)
Variable model_dump : Result.t → J.

(** [sink(wallet, results, block)]: [cur] is the current block of the
    chain, [nonces] the randomness of the signatures.  Returns the store
    and the Results as signed. *)
Definition sink (wallet : keypair) (nonces : nat → N) (results : list Result.t)
    (block : option Z) (cur : Z) (s : store J) : store J * list Result.t :=
match results with
| [] => (s, [])
| _ =>
  let block := match block with Some b => if decide (b = 0) then cur else b | None => cur end in
  let key := shard_key WINDOW block (ss58_address wallet) in
  let signed := imap (λ i r, Result.sign r wallet (nonces i)) results in
  let payload := model_dump <$> signed in
  let merged := match shards s !! key with
                | Some existing => existing ++ payload
                | None => payload
                end in
  let s' := mk_store (index s) (<[key := merged]> (shards s)) in
  (if decide (length merged = length payload) then _update_index key s' else s', signed)
end.

End Sink.

End Ledger.

(** * Ledger: auxiliary definitions *)

(** The test of [prune] on a file that it reaches and whose stem it can
    read: the file is deleted. *)
Definition pruned (cur tail : Z) (name : string) : bool :=
Ledger.is_jsonl name
&& match Ledger.window_of_name (Ledger.stem name) with
   | Ok (Some b) => b <? cur - tail
   | _ => false
   end.

(** A name whose window can be read: reading it does not raise. *)
Definition name_readable (name : string) : Prop :=
∃ ow, Ledger.window_of_name name = Ok ow.

(** The digit values of a decimal numeral. *)
Fixpoint uint_digits (d : Decimal.uint) : list Z :=
match d with
| Decimal.Nil => []
| Decimal.D0 l => 0 :: uint_digits l
| Decimal.D1 l => 1 :: uint_digits l
| Decimal.D2 l => 2 :: uint_digits l
| Decimal.D3 l => 3 :: uint_digits l
| Decimal.D4 l => 4 :: uint_digits l
| Decimal.D5 l => 5 :: uint_digits l
| Decimal.D6 l => 6 :: uint_digits l
| Decimal.D7 l => 7 :: uint_digits l
| Decimal.D8 l => 8 :: uint_digits l
| Decimal.D9 l => 9 :: uint_digits l
end.


(** Strings of digits. *)
Definition all_digits (s : string) : Prop := Forall (λ c, Py.is_digit c = true) (Py.chars s).

(** [block or await sub.get_current_block()] *)
Definition block_or (block : option Z) (cur : Z) : Z :=
match block with Some b => if decide (b = 0) then cur else b | None => cur end.

(** The local [key] of [sink]. *)
Definition sink_key {K : Keyring} (WINDOW : Z) (wallet : keypair) (block : option Z) (cur : Z)
  : string :=
Ledger.shard_key WINDOW (block_or block cur) (ss58_address wallet).

(** The Results of [sink], signed. *)
Definition sink_signed {K : Keyring} (wallet : keypair) (nonces : nat → N)
    (results : list Result.t) : list Result.t :=
imap (λ i r, Result.sign r wallet (nonces i)) results.

(** An empty store, for the examples. *)
Definition sample_store : Ledger.store Result.t := Ledger.mk_store None ∅.

(** * Query: auxiliary definitions *)

(** The events of a call of [query] that ends with attempt [k]: each
    earlier attempt is followed by its sleep. *)
Definition query_trace (w : Query.world) (backoff : Qc) (first k : Z) : list Query.event :=
flat_map (λ j, [Query.Post j; Query.Sleep (Query.sleep_seconds w backoff j)])
         (seqZ first (k - first))
++ [Query.Post k].

(** How attempt [k] ends a call of [query] with Response [resp]: the body
    returns it, or [k] is the last attempt of the budget, the body raises
    and [resp] reports the exception. *)
Definition ends_with (w : Query.world) (model : string) (retries : Z) (k : Z)
    (resp : Response.t) : Prop :=
Query.try_body w model k = inr resp
∨ (k = retries + 1
   ∧ ∃ e, Query.try_body w model k = inl e
          ∧ resp = Query.R w model None k (Some e) false).

(** * Weight engine: auxiliary definitions *)

(** The number of observed Results of identity [hk] in environment [e]. *)
Definition observed_count (hotkeys : list string) (cs : list Result.t)
    (hk : string) (e : Env) : Z :=
Z.of_nat (length (filter (λ c, observed hotkeys c
                               ∧ Miner.hotkey (Result.miner c) = hk
                               ∧ Challenge.env (Result.challenge c) = e) cs)).

(** The keys of [cnt] are the registered hotkeys. *)
Definition cnt_keys (hotkeys : list string) (st : Weights.state) : Prop :=
∀ hk, is_Some (Weights.cnt st !! hk) ↔ hk ∈ hotkeys.

(** The sum of scores is between zero and the count. *)
Definition succ_bounded (st : Weights.state) : Prop :=
∀ hk e, (0 ≤ Weights.get2 0%Qc (Weights.succ st) hk e)%Qc
        ∧ (Weights.get2 0%Qc (Weights.succ st) hk e
           ≤ Qc_of_Z (Weights.get2 0%Z (Weights.cnt st) hk e))%Qc.

(** A Result of an identity that is not registered, and one of a model
    that is not of the affine family. *)
Definition stray_results : list Result.t := [
  scored "Z" (Some "org/Affine-z") (Some 2) SAT 1%Qc;
  scored "A" (Some "org/llama") (Some 3) SAT 1%Qc
].

(** * [run]

    [run(challenges, miners, timeout, retries, backoff)] for [miners] a
    [dict] from uids to Miners, a list of Miners or one Miner (for a list
    of uids the source first asks the chain, through [miners()]).  Every
    task has its own exchange with the endpoint, a world of [query];
    [chal.evaluate(resp)] is the environment's grader, which returns an
    Evaluation or raises an exception, of which [str(e)] is used. *)

Module Run.

Inductive miners_arg : Type :=
| Dict (d : list (Z * Miner.t))
| Miners (l : list Miner.t)
| One (m : Miner.t).

(** [mmap]; [{m.uid: m for m in miners}] keeps the place of the first
    Miner of a uid and the value of the last. *)
Definition mmap (miners : miners_arg) : list (Z * Miner.t) :=
match miners with
| Dict d => d
| Miners l => fold_left (λ d m, alist_set (Miner.uid m) m d) l []
| One m => [(Miner.uid m, m)]
end.

(** [if m.model] *)
Definition has_model (m : Miner.t) : bool :=
match Miner.model m with
| None | Some "" => false
| Some _ => true
end.

(** The pairs of the tasks:
    [for m in mmap.values() if m.model for chal in challenges]. *)
Definition tasks (challenges : list Challenge.t) (miners : miners_arg)
  : list (Miner.t * Challenge.t) :=
m ← filter (λ m, has_model m = true) (mmap miners).*2;
chal ← challenges;
[(m, chal)].

Section Run.
Variable world_of : Miner.t → Challenge.t → Query.world.
Variable evaluate : Challenge.t → Response.t → string + Evaluation.t.
Variables (retries : Z) (backoff : Qc).

(** [try: ev = await chal.evaluate(resp)] with its [except]. *)
Definition grade (chal : Challenge.t) (resp : Response.t) : Evaluation.t :=
match evaluate chal resp with
| inr ev => ev
| inl e => Evaluation.mk (Challenge.env chal) 0%Qc
             [("error", Py.JStr e); ("evaluation_failed", Py.JBool true)]
end.

(** [proc(miner, chal)]; a [query] that returns [None] makes the
    construction of the Result fail validation. *)
Definition proc (miner : Miner.t) (chal : Challenge.t) : result Result.t :=
out ← Query.query (world_of miner chal) (default "" (Miner.model miner)) retries backoff;
match out.1 with
| Some resp => Ok (Result.new miner chal resp (grade chal resp))
| None => Raise ValidationError
end.

(** [run]: the results of the tasks in their order, those that are
    exceptions left out. *)
Definition run (challenges : list Challenge.t) (miners : miners_arg) : list Result.t :=
omap (λ t, match proc t.1 t.2 with Ok r => Some r | Raise _ => None end)
     (tasks challenges miners).

End Run.
End Run.

(** A grader for the examples: it raises on an answer without text. *)
Definition toy_evaluate (chal : Challenge.t) (resp : Response.t) : string + Evaluation.t :=
match Response.response resp with
| Some _ => inr sample_evaluation
| None => inl "no answer"
end.

(** * [miners]: the test of the model name

    In [fetch], a commitment is dropped unless
    [model.split('/')[1].lower()[:6] == 'affine']; the test raises, and
    [fetch] returns [None], when the commitment names no model or the name
    has no slash. *)

Module Miners.

Definition name_ok (model : option string) : result bool :=
match model with
| None => Raise AttributeError
| Some m =>
  match split_all "/" m with
  | _ :: c :: _ => Ok (bool_decide (Py.str (Py.take_cp 6 (Py.chars (lower c))) = "affine"))
  | _ => Raise IndexError
  end
end.

End Miners.

(** * Validator: [retry_set_weights] and the loop of [validate]

    The chain is seen through what each call gives.  A pass of the loop
    of [retry_set_weights] fails to connect, or calls [set_weights] and
    then fails (in the call or in the check that follows), or reads the
    current block and the last update of the wallet's hotkey. *)

Module Validator.

Inductive try_outcome : Type :=
| ConnectFails
| SubmitFails
| CheckFails
| Checked (current_block last_update : Z).

(** [for tries in range(retry)], from pass [tries] on with [n] passes
    left: whether a pass saw the weights on chain, and the passes that
    called [set_weights]. *)
Fixpoint retry_from (outcome : Z → try_outcome) (n : nat) (tries : Z) : bool * list Z :=
match n with
| O => (false, [])
| S n' =>
  match outcome tries with
  | ConnectFails => retry_from outcome n' (tries + 1)
  | Checked current_block last_update =>
    if last_update >=? current_block then (true, [tries])
    else let '(ok, calls) := retry_from outcome n' (tries + 1) in (ok, tries :: calls)
  | _ => let '(ok, calls) := retry_from outcome n' (tries + 1) in (ok, tries :: calls)
  end
end.

(** [retry_set_weights(wallet, best_uid, retry)]; it returns [None]
    either way, and every exception is caught. *)
Definition retry_set_weights (outcome : Z → try_outcome) (retry : Z) : bool * list Z :=
retry_from outcome (Z.to_nat retry) 0.

Definition TEMPO : Z := 100.

(** What a pass of the loop of [validate] meets: the current block (or an
    exception from the connection), whether [prefetch] and
    [wait_for_block] return, the winner of [get_weights] (or an
    exception), the passes of [retry_set_weights], and whether the
    reconnection and the telemetry after it return before [LAST] is
    assigned. *)
Record pass : Type := mk_pass {
  block : option Z;
  prefetch_ok : bool;
  winner : option Z;
  outcome : Z → try_outcome;
  reconnect_ok : bool
}.

Inductive event : Type :=
| Prefetch (BLOCK : Z)
| GetWeights (BLOCK : Z)
| SetWeights (BLOCK uid : Z) (calls : list Z) (confirmed : bool)
| Completed (BLOCK : Z)
| Error.

(** One pass of [while True], from the value of [LAST]: the new value
    and what happened.  An exception leaves [LAST] as it is. *)
Definition pass_step (LAST : Z) (p : pass) : Z * list event :=
match block p with
| None => (LAST, [Error])
| Some BLOCK =>
  if bool_decide (BLOCK `mod` TEMPO ≠ 0 ∨ BLOCK ≤ LAST)
  then (LAST, Prefetch BLOCK :: if prefetch_ok p then [] else [Error])
  else match winner p with
       | None => (LAST, [GetWeights BLOCK; Error])
       | Some uid =>
         let '(confirmed, calls) := retry_set_weights (outcome p) 3 in
         if reconnect_ok p
         then (BLOCK, [GetWeights BLOCK; SetWeights BLOCK uid calls confirmed; Completed BLOCK])
         else (LAST, [GetWeights BLOCK; SetWeights BLOCK uid calls confirmed; Error])
       end
end.

(** The loop, over the passes until it is cancelled; [LAST = 0] at the
    start. *)
Fixpoint passes_from (LAST : Z) (ps : list pass) : Z * list event :=
match ps with
| [] => (LAST, [])
| p :: ps' =>
  let '(LAST1, evs1) := pass_step LAST p in
  let '(LAST2, evs2) := passes_from LAST1 ps' in
  (LAST2, evs1 ++ evs2)
end.

Definition validate (ps : list pass) : Z * list event := passes_from 0 ps.

End Validator.

(** The blocks of the rounds that completed, and the blocks at which
    [set_weights] was called. *)
Definition completed_blocks (evs : list Validator.event) : list Z :=
omap (λ ev, match ev with Validator.Completed b => Some b | _ => None end) evs.

Definition set_blocks (evs : list Validator.event) : list Z :=
omap (λ ev, match ev with Validator.SetWeights b _ _ _ => Some b | _ => None end) evs.

(** A chain on which the second pass sees the weights. *)
Definition toy_outcome (tries : Z) : Validator.try_outcome :=
if decide (tries = 0) then Validator.CheckFails
else if decide (tries = 1) then Validator.Checked 500 501
else Validator.SubmitFails.

(** A pass at block 1200 in which nothing is seen on chain. *)
Definition toy_pass : Validator.pass :=
Validator.mk_pass (Some 1200) true (Some 7) (λ _, Validator.Checked 1201 1100) true.

(** * The checker of the LCB environment: [_normalize]

    White space and line boundaries are classes of code points, so here
    a [str] is the list of its code points. *)

Module Lcb.

(** [str.isspace], the characters that [str.rstrip()] removes. *)
Definition is_space (c : N) : bool :=
((9 <=? c) && (c <=? 13) || (28 <=? c) && (c <=? 31) || (c =? 32) || (c =? 133)
 || (c =? 160) || (c =? 5760) || (8192 <=? c) && (c <=? 8202) || (c =? 8232)
 || (c =? 8233) || (c =? 8239) || (c =? 8287) || (c =? 12288))%N.

(** The line boundaries of [str.splitlines()]. *)
Definition is_linebreak (c : N) : bool :=
((10 <=? c) && (c <=? 13) || (28 <=? c) && (c <=? 30) || (c =? 133) || (c =? 8232)
 || (c =? 8233))%N.

(** [s.rstrip()] *)
Fixpoint rstrip (l : list N) : list N :=
match l with
| [] => []
| c :: l' =>
  match rstrip l' with
  | [] => if is_space c then [] else [c]
  | r => c :: r
  end
end.

(** [s.splitlines()]; [cur] is the current line, reversed.  A carriage
    return followed by a line feed is one boundary. *)
Fixpoint splitlines_go (cur : list N) (l : list N) : list (list N) :=
match l with
| [] => match cur with [] => [] | _ => [rev cur] end
| c :: l' =>
  if is_linebreak c
  then rev cur :: match l' with
                  | d :: l'' => if (c =? 13)%N && (d =? 10)%N then splitlines_go [] l''
                                else splitlines_go [] l'
                  | [] => splitlines_go [] l'
                  end
  else splitlines_go (c :: cur) l'
end.

Definition splitlines (l : list N) : list (list N) := splitlines_go [] l.

(** ["\n".join(lines)] *)
Fixpoint join_lines (lines : list (list N)) : list N :=
match lines with
| [] => []
| [l] => l
| l :: ls => l ++ 10%N :: join_lines ls
end.

(** [_normalize(text)] *)
Definition _normalize (text : option (list N)) : list N :=
join_lines (rstrip <$> splitlines (rstrip (default [] text))).

End Lcb.

(** What [rstrip] returns is empty or ends with a character that is no
    white space. *)
Definition stripped (l : list N) : Prop :=
match last l with Some c => Lcb.is_space c = false | None => True end.

(** Lines: no line boundary inside. *)
Definition is_line (l : list N) : Prop := Forall (λ c, Lcb.is_linebreak c = false) l.

(** * Properties *)

(** A closed disequality of a type with decidable equality, by evaluation. *)
Ltac closed_neq :=
  apply (proj1 (bool_decide_eq_false _)); vm_compute; reflexivity.

(** ** The standard-library functions on known values *)

(** The examples of the documentation of [textwrap], and a few values of
    the other functions. *)
Example shorten_examples :
  Py.shorten "Hello  world!" 12 " [...]" = "Hello world!"
  ∧ Py.shorten "Hello  world!" 11 " [...]" = "Hello [...]"
  ∧ Py.str <$> Py.split_chunks (Py.chars "Look, goof-ball -- use the -b option!")
    = ["Look,"; " "; "goof-"; "ball"; " "; "--"; " "; "use"; " "; "the"; " ";
       "-b"; " "; "option!"].
Proof. split; [| split]; vm_compute; reflexivity. Qed.

Example sha256_examples :
  Py.SHA256.hexdigest "abc"
  = "ba7816bf8f01cfea414140de5dae2223b00361a396177a9cb410ff61f20015ad"
  ∧ Py.SHA256.hexdigest ""
    = "e3b0c44298fc1c149afbf4c8996fb92427ae41e4649b934ca495991b7852b855".
Proof. split; vm_compute; reflexivity. Qed.

Example repr_examples :
  Py.repr_str "it's" = String Py.dquote ("it's" +:+ String Py.dquote "")
  ∧ Py.repr_str "plain" = "'plain'"
  ∧ Py.repr_str (String "009" "x") = "'\tx'".
Proof. split; [| split]; vm_compute; reflexivity. Qed.

Example dumps_example :
  Py.dumps (Py.JDict [("b", Py.JList [Py.JInt 1; Py.JNull; Py.JBool true]);
                      ("a", Py.JStr "é")])
  = "{" +:+ Py.encode_str "a" +:+ ":" +:+ Py.str (Py.dquote :: Py.chars "\u00e9" ++ [Py.dquote])
        +:+ "," +:+ Py.encode_str "b" +:+ ":[1,null,true]}".
Proof. vm_compute. reflexivity. Qed.

Example fromhex_examples :
  Py.fromhex "AB cd 0f" = Some [Byte.xab; Byte.xcd; Byte.x0f]
  ∧ Py.fromhex "a b" = None
  ∧ Py.fromhex "abc" = None
  ∧ Py.hex [Byte.xab; Byte.xcd; Byte.x0f] = "abcd0f".
Proof. repeat split. Qed.

(** ** Hexadecimal encoding *)

Lemma fromhex_pair (b : Byte.byte) (s : string) :
  Py.fromhex (String (Py.hexdigit (Byte.to_N b / 16))
                (String (Py.hexdigit (Byte.to_N b mod 16)) s))
  = cons b <$> Py.fromhex s.
Proof. destruct b; reflexivity. Qed.

Lemma fromhex_hex (bs : list Byte.byte) : Py.fromhex (Py.hex bs) = Some bs.
Proof.
induction bs as [| b bs IH]; [reflexivity |].
change (Py.hex (b :: bs))
  with (String (Py.hexdigit (Byte.to_N b / 16))
          (String (Py.hexdigit (Byte.to_N b mod 16)) (Py.hex bs))).
by rewrite fromhex_pair, IH.
Qed.

(** Whitespace before a byte pair is skipped. *)
Lemma fromhex_leading_space (s : string) : Py.fromhex (String " " s) = Py.fromhex s.
Proof. reflexivity. Qed.

Lemma toy_keyring_correct : keyring_correct toy_keyring.
Proof.
intros kp nonce data. exists (String "5" kp). split; [reflexivity |].
cbn. by rewrite bool_decide_eq_true_2.
Qed.

(** ** Signing and verification *)

Section SigningFacts.
Context {K : Keyring}.

Lemma verify_sign_unfold (r : Result.t) (w : keypair) (nonce : N) :
  Result.verify (Result.sign r w nonce)
  = (pk ← keypair_of_ss58 (ss58_address w);
     kp_verify pk (Challenge.repr (Result.challenge r))
       (kp_sign w nonce (Challenge.repr (Result.challenge r)))).
Proof.
unfold Result.verify, Result.sign, Result.fromhex. cbn.
destruct (keypair_of_ss58 (ss58_address w)); cbn; [| done].
by rewrite fromhex_hex.
Qed.

Lemma verify_sign (HK : keyring_correct K) (r : Result.t) (w : keypair) (nonce : N) :
  Result.verify (Result.sign r w nonce) = Ok true.
Proof.
rewrite verify_sign_unfold.
destruct (HK w nonce (Challenge.repr (Result.challenge r))) as (pk & -> & Hv).
exact Hv.
Qed.

(** A signature spelled with a leading blank decodes to the same bytes. *)
Lemma verify_leading_space (r : Result.t) :
  Result.verify (Result.set_signature r (String " " (Result.signature r)))
  = Result.verify r.
Proof. reflexivity. Qed.

End SigningFacts.

Section VerifyFacts.
Context {K : Keyring}.

Lemma verify_set_signature (r : Result.t) (s' : string) :
  Result.verify (Result.set_signature r s')
  = (pk ← keypair_of_ss58 (Result.hotkey r);
     sig ← Result.fromhex s';
     kp_verify pk (Challenge.repr (Result.challenge r)) sig).
Proof. reflexivity. Qed.

Lemma verify_set_challenge (r : Result.t) (c : Challenge.t) :
  Challenge.repr c = Challenge.repr (Result.challenge r) →
  Result.verify (Result.set_challenge r c) = Result.verify r.
Proof. intros H. unfold Result.verify. cbn. by rewrite H. Qed.

End VerifyFacts.

(** C5, amended.  Given a keypair library whose signatures verify, signing
    a Result and verifying it returns true.  After the signature is
    replaced, [verify] raises [ValueError] when the new value is not valid
    hex and otherwise returns what the library says of the decoded bytes
    for the challenge's string form (so a respelling of the same bytes
    still verifies); after the hotkey is replaced, [verify] is the
    library's verification of the signature under the keypair of the new
    address, and raises when that address is not valid. *)
Theorem sign_then_verify {K : Keyring} (HK : keyring_correct K)
    (r : Result.t) (w : keypair) (nonce : N) :
  let signed := Result.sign r w nonce in
  let data := Challenge.repr (Result.challenge r) in
  Result.verify signed = Ok true
  ∧ (∀ s', Py.fromhex s' = None →
       Result.verify (Result.set_signature signed s') = Raise ValueError)
  ∧ (∀ s' bs, Py.fromhex s' = Some bs →
       ∃ pk, keypair_of_ss58 (ss58_address w) = Ok pk
             ∧ Result.verify (Result.set_signature signed s') = kp_verify pk data bs)
  ∧ (∀ h', Result.verify (Result.set_hotkey signed h')
           = (pk ← keypair_of_ss58 h'; kp_verify pk data (kp_sign w nonce data))).
Proof.
intros signed data.
destruct (HK w nonce data) as (pk & Hpk & Hv).
split; [by apply verify_sign |].
split; [| split].
- intros s' Hs'. subst signed. rewrite verify_set_signature.
  unfold Result.fromhex. cbn. by rewrite Hpk, Hs'.
- intros s' bs Hs'. exists pk. split; [done |].
  subst signed. rewrite verify_set_signature.
  unfold Result.fromhex. cbn. by rewrite Hpk, Hs'.
- intros h'. subst signed data. unfold Result.verify, Result.fromhex. cbn.
  destruct (keypair_of_ss58 h'); cbn; [| done].
  by rewrite fromhex_hex.
Qed.

Lemma sign_then_verify_witness :
  keyring_correct toy_keyring
  ∧ @Result.verify toy_keyring (@Result.sign toy_keyring sample_result "alice" 7) = Ok true.
Proof.
split; [exact toy_keyring_correct |].
exact (proj1 (@sign_then_verify toy_keyring toy_keyring_correct sample_result "alice" 7%N)).
Defined.

(** C5 as stated fails: a signature spelled differently (here with a
    leading blank) is a different value and still verifies, and a value
    that is not hex makes [verify] raise instead of returning false. *)
Lemma replaced_signature_not_rejected :
  let signed := @Result.sign toy_keyring sample_result "alice" 7 in
  let respelled := String " " (Result.signature signed) in
  respelled ≠ Result.signature signed
  ∧ @Result.verify toy_keyring (Result.set_signature signed respelled) = Ok true
  ∧ @Result.verify toy_keyring (Result.set_signature signed "zz") = Raise ValueError
  ∧ @Result.verify toy_keyring (Result.set_hotkey signed "") = Raise ValueError.
Proof.
cbv zeta. split; [| split; [| split]].
- intros H. apply (f_equal String.length) in H. cbn in H. lia.
- rewrite verify_leading_space. apply verify_sign, toy_keyring_correct.
- reflexivity.
- reflexivity.
Qed.

(** C6.  [verify] reads the hotkey, the signature and the challenge only:
    changing the version, the miner, the response and the evaluation of a
    Result leaves its value unchanged; so the envelope of a signed Result
    still verifies around any other scoring data for the same challenge. *)
Theorem verify_ignores_scoring_data {K : Keyring} (r : Result.t)
    (version' : string) (miner' : Miner.t)
    (response' : Response.t) (evaluation' : Evaluation.t) :
  let forged (r0 : Result.t) :=
    Result.mk version' (Result.signature r0) (Result.hotkey r0) miner'
      (Result.challenge r0) response' evaluation' in
  Result.verify (forged r) = Result.verify r
  ∧ ∀ (w : keypair) (nonce : N),
      keyring_correct K → Result.verify (forged (Result.sign r w nonce)) = Ok true.
Proof.
intros forged. split.
- unfold Result.verify. reflexivity.
- intros w nonce HK.
  change (Result.verify (forged (Result.sign r w nonce)))
    with (Result.verify (Result.sign r w nonce)).
  by apply verify_sign.
Qed.

(** C10.  Two challenges of the same environment with different prompts,
    hence different challenge ids, have the same string form, so a
    signature made for a Result holding one of them still verifies after
    the challenge is replaced by the other. *)
Theorem truncated_prompt_signature_reuse :
  ∃ c1 c2 : Challenge.t,
    Challenge.env c1 = Challenge.env c2
    ∧ Challenge.prompt c1 ≠ Challenge.prompt c2
    ∧ Challenge.challenge_id c1 ≠ Challenge.challenge_id c2
    ∧ (Py.py_len (_truncate (Some (Challenge.prompt c1)) 80) ≤ 80)%nat
    ∧ Challenge.repr c1 = Challenge.repr c2
    ∧ ∀ (K : Keyring), keyring_correct K →
      ∀ (r : Result.t) (w : keypair) (nonce : N),
        Result.challenge r = c1 →
        Result.verify (Result.sign r w nonce) = Ok true
        ∧ Result.verify (Result.set_challenge (Result.sign r w nonce) c2) = Ok true.
Proof.
exists challenge_a, challenge_b.
assert (Hrepr : Challenge.repr challenge_a = Challenge.repr challenge_b)
  by (vm_compute; reflexivity).
split; [vm_compute; reflexivity |].
split; [closed_neq |].
split; [closed_neq |].
split; [vm_compute; lia |].
split; [exact Hrepr |].
intros K HK r w nonce Hr.
split; [by apply verify_sign |].
rewrite verify_set_challenge; [by apply verify_sign |].
change (Result.challenge (Result.sign r w nonce)) with (Result.challenge r).
rewrite Hr. symmetry. exact Hrepr.
Qed.

(** ** Dataset streamer *)

Section DatasetFacts.
Context {K : Keyring} (model_validate : string → result Result.t).

Lemma dataset_line_spec (raw : string) :
  dataset_line model_validate raw
  = (option_list (accepted_line model_validate raw), None).
Proof.
unfold dataset_line, accepted_line, try_except.
destruct (model_validate raw) as [r | e]; cbn; [| done].
destruct (Result.verify r) as [[] | e]; by cbn.
Qed.

Lemma dataset_lines_spec (lines : list string) :
  dataset_lines model_validate lines = (omap (accepted_line model_validate) lines, None).
Proof.
induction lines as [| raw lines IH]; [done |].
cbn [dataset_lines]. rewrite IH, dataset_line_spec. unfold stream_app. cbn.
by destruct (accepted_line model_validate raw).
Qed.

Lemma omap_app_lines (l1 l2 : list string) :
  omap (accepted_line model_validate) (l1 ++ l2)
  = omap (accepted_line model_validate) l1 ++ omap (accepted_line model_validate) l2.
Proof.
induction l1 as [| x l1 IH]; [done |].
cbn. destruct (accepted_line model_validate x); cbn; by rewrite IH.
Qed.

Lemma dataset_fetched (shards : list (list string)) (rest : list (result (list string))) :
  dataset model_validate ((Ok <$> shards) ++ rest)
  = stream_app (omap (accepted_line model_validate) (concat shards), None)
               (dataset model_validate rest).
Proof.
induction shards as [| lines shards IH]; cbn.
- unfold stream_app. cbn. by destruct (dataset model_validate rest).
- rewrite IH, dataset_lines_spec, omap_app_lines. unfold stream_app. cbn.
  by rewrite app_assoc.
Qed.

End DatasetFacts.

(** C7.  Every line yields the Result it decodes to when [verify()] returns
    true and nothing otherwise, without raising; a stream over fetched
    shards yields exactly the accepted lines, in order, and ends normally;
    a stream ends by raising only with the exception of a shard transfer,
    after the accepted lines of the shards before it. *)
Theorem dataset_skips_bad_lines {K : Keyring}
    (model_validate : string → result Result.t) :
  (∀ raw, dataset_line model_validate raw
          = (option_list (accepted_line model_validate raw), None))
  ∧ (∀ shards : list (list string),
       dataset model_validate (Ok <$> shards)
       = (omap (accepted_line model_validate) (concat shards), None))
  ∧ (∀ (shards : list (list string)) e rest,
       dataset model_validate ((Ok <$> shards) ++ Raise e :: rest)
       = (omap (accepted_line model_validate) (concat shards), Some e)).
Proof.
split; [apply dataset_line_spec |]. split.
- intros shards.
  rewrite <- (app_nil_r (Ok <$> shards)), dataset_fetched.
  unfold stream_app. cbn. by rewrite app_nil_r.
- intros shards e rest. rewrite dataset_fetched.
  unfold stream_app. cbn. by rewrite app_nil_r.
Qed.

(** A shard with an undecodable line, a forged line and a line whose
    signature is not hex yields the two good lines around them. *)
Example dataset_example :
  @dataset toy_keyring toy_validate [Ok ["alice"; ""; "forged"; "broken"; "bob"]]
  = ([@Result.sign toy_keyring sample_result "alice" 1;
      @Result.sign toy_keyring sample_result "bob" 1], None).
Proof. vm_compute. reflexivity. Qed.

(** ** Query *)

Section QueryFacts.
Variable w : Query.world.
Variables (model : string) (retries : Z) (backoff : Qc).


End QueryFacts.




(** With a budget of five retries, a timeout followed by a 404: two
    attempts, one sleep between them, none after. *)
Example query_example :
  Query.query toy_world "m" 5 1%Qc
  = Ok (Some (Response.mk None 2%Qc 2 "m" (Some "404:not found") false),
        [Query.Post 1; Query.Sleep 1%Qc; Query.Post 2]).
Proof. vm_compute. reflexivity. Qed.

(** ** Challenge ids *)

#[local] Instance key_le_trans {A} : Transitive (@Py.key_le A).
Proof. intros x y z. unfold Py.key_le. apply transitivity. Qed.

#[local] Instance key_le_total {A} : Total (@Py.key_le A).
Proof. intros x y. unfold Py.key_le. apply total, _. Qed.

Lemma NoDup_keys_lookup {A} (l : list (string * A)) (k : string) (v1 v2 : A) :
  NoDup l.*1 → (k, v1) ∈ l → (k, v2) ∈ l → v1 = v2.
Proof.
induction l as [| [k' v'] l IH]; intros Hnd H1 H2.
- by apply elem_of_nil in H1.
- apply NoDup_cons in Hnd as [Hk Hnd].
  apply elem_of_cons in H1 as [H1 | H1]; apply elem_of_cons in H2 as [H2 | H2].
  + congruence.
  + inversion H1; subst. exfalso. apply Hk.
    apply list_elem_of_fmap. by exists (k', v2).
  + inversion H2; subst. exfalso. apply Hk.
    apply list_elem_of_fmap. by exists (k', v1).
  + by apply IH.
Qed.

(** Sorting the items of a dict by key does not depend on the insertion
    order. *)
Lemma sort_items_permutation {A} (l1 l2 : list (string * A)) :
  NoDup l1.*1 → l1 ≡ₚ l2 → Py.sort_items l1 = Py.sort_items l2.
Proof.
intros Hnd Hp. unfold Py.sort_items.
apply (StronglySorted_unique_strong Py.key_le).
- intros [k1 v1] [k2 v2] H1 H2 H12 H21. unfold Py.key_le in *. cbn in *.
  assert (k1 = k2) as -> by (by apply (anti_symm String.le)).
  f_equal. apply (NoDup_keys_lookup l1 k2); [done | |].
  + by rewrite <- (merge_sort_Permutation Py.key_le l1).
  + rewrite Hp. by rewrite <- (merge_sort_Permutation Py.key_le l2).
- apply StronglySorted_merge_sort; apply _.
- apply StronglySorted_merge_sort; apply _.
- by rewrite !merge_sort_Permutation.
Qed.

Lemma dumps_dict (items : list (string * Py.json)) :
  Py.dumps (Py.JDict items)
  = "{" +:+ Py.join_str ","
              (List.map (λ kv, Py.encode_str kv.1 +:+ ":" +:+ kv.2)
                 (Py.sort_items (List.map (λ kv, (kv.1, Py.dumps kv.2)) items)))
        +:+ "}".
Proof. reflexivity. Qed.

Lemma dumps_dict_permutation (items1 items2 : list (string * Py.json)) :
  NoDup items1.*1 → items1 ≡ₚ items2 →
  Py.dumps (Py.JDict items1) = Py.dumps (Py.JDict items2).
Proof.
intros Hnd Hp. rewrite !dumps_dict.
rewrite (sort_items_permutation (List.map (λ kv, (kv.1, Py.dumps kv.2)) items1)
           (List.map (λ kv, (kv.1, Py.dumps kv.2)) items2)); [done | |].
- replace ((List.map (λ kv, (kv.1, Py.dumps kv.2)) items1).*1) with (items1.*1); [done |].
  clear. induction items1 as [| [k v] l IH]; [done |]. cbn. by rewrite <- IH.
- by apply Permutation_map.
Qed.

Lemma sort_three_items {A} (a b c : A) :
  Py.sort_items [("env", a); ("prompt", b); ("extra", c)]
  = [("env", a); ("extra", c); ("prompt", b)].
Proof. reflexivity. Qed.

Lemma dumps_base_dict (vs : Challenge.values) :
  Py.dumps (Challenge.base_dict vs)
  = canonical_json (Challenge.v_env vs) (Challenge.v_prompt vs)
      (default [] (Challenge.v_extra vs)).
Proof.
unfold Challenge.base_dict. rewrite dumps_dict.
cbn [List.map fst snd]. rewrite sort_three_items.
reflexivity.
Qed.

Lemma challenge_id_fresh (vs : Challenge.values) :
  Challenge.v_challenge_id vs = None →
  Challenge.challenge_id (Challenge.new vs)
  = Some (Py.SHA256.hexdigest
            (canonical_json (Challenge.v_env vs) (Challenge.v_prompt vs)
               (default [] (Challenge.v_extra vs)))).
Proof.
intros H. rewrite <- dumps_base_dict.
unfold Challenge.new, Challenge.set_challenge_id. by rewrite H.
Qed.

Lemma challenge_id_kept (vs : Challenge.values) (cid : string) :
  Challenge.v_challenge_id vs = Some cid →
  Challenge.challenge_id (Challenge.new vs) = Some cid.
Proof.
intros H. unfold Challenge.new, Challenge.set_challenge_id. by rewrite H.
Qed.

Lemma canonical_json_permutation (e : Env) (prompt : string)
    (extra extra' : list (string * Py.json)) :
  NoDup extra.*1 → extra ≡ₚ extra' →
  canonical_json e prompt extra = canonical_json e prompt extra'.
Proof.
intros Hnd Hp. unfold canonical_json.
by rewrite (dumps_dict_permutation extra extra').
Qed.

(** C4.  A Challenge built without a challenge id gets the SHA-256 hex
    digest of the canonical JSON of its environment name, prompt and extra
    map (the empty map when extra is missing); the id is a function of
    these inputs, it does not depend on the insertion order of the extra
    map, and an id that is given is kept. *)
Theorem challenge_id_content_addressed (e : Env) (prompt : string)
    (extra : list (string * Py.json)) :
  let c := Challenge.new (Challenge.mk_values e prompt (Some extra) None) in
  Challenge.challenge_id c = Some (Py.SHA256.hexdigest (canonical_json e prompt extra))
  ∧ Challenge.challenge_id (Challenge.new (Challenge.mk_values e prompt None None))
    = Some (Py.SHA256.hexdigest (canonical_json e prompt []))
  ∧ (∀ extra', NoDup extra.*1 → extra ≡ₚ extra' →
       Challenge.challenge_id
         (Challenge.new (Challenge.mk_values e prompt (Some extra') None))
       = Challenge.challenge_id c)
  ∧ (∀ oextra cid,
       Challenge.challenge_id
         (Challenge.new (Challenge.mk_values e prompt oextra (Some cid)))
       = Some cid).
Proof.
intros c. subst c. split; [| split; [| split]].
- exact (challenge_id_fresh (Challenge.mk_values e prompt (Some extra) None) eq_refl).
- exact (challenge_id_fresh (Challenge.mk_values e prompt None None) eq_refl).
- intros extra' Hnd Hp.
  rewrite (challenge_id_fresh (Challenge.mk_values e prompt (Some extra) None) eq_refl).
  rewrite (challenge_id_fresh (Challenge.mk_values e prompt (Some extra') None) eq_refl).
  change (Some (Py.SHA256.hexdigest (canonical_json e prompt extra'))
          = Some (Py.SHA256.hexdigest (canonical_json e prompt extra))).
  by rewrite (canonical_json_permutation e prompt extra extra').
- intros oextra cid. by apply challenge_id_kept.
Qed.

(** The id of a challenge with two extra entries, in both insertion
    orders. *)
Example challenge_id_example :
  Challenge.challenge_id
    (Challenge.new (Challenge.mk_values SAT "p" (Some [("b", Py.JInt 1); ("a", Py.JStr "x")]) None))
  = Some "4816e034b18633e9eb58302817d6a09ef8efce08bce28808ec1cce12a4a20404"
  ∧ Challenge.challenge_id
      (Challenge.new (Challenge.mk_values SAT "p" (Some [("a", Py.JStr "x"); ("b", Py.JInt 1)]) None))
    = Some "4816e034b18633e9eb58302817d6a09ef8efce08bce28808ec1cce12a4a20404".
Proof. split; vm_compute; reflexivity. Qed.

(** The string form and the ids of the two challenges of C10. *)
Example challenge_a_b_example :
  Challenge.repr challenge_a
  = "<Challenge env='SAT' prompt='Find a satisfying assignment for the following formula over the variables x1 to…'>"
  ∧ Challenge.challenge_id challenge_a
    = Some "b62422c0cb8de9be25670c145d4622bffbb6662cc8c9decd2d87cbaca825d6af"
  ∧ Challenge.challenge_id challenge_b
    = Some "cbdfc30aeea8ff9b62d6dd4c2c96be6e2df34134199a15982a8609f73f1a6f94".
Proof. split; [| split]; vm_compute; reflexivity. Qed.

(** ** Weight engine: the accumulators *)

Section Get2.
Context {V : Type} (zero : V).

Lemma get2_set2_eq (m : gmap string (gmap Env V)) hk e v :
  Weights.get2 zero (Weights.set2 m hk e v) hk e = v.
Proof.
unfold Weights.get2, Weights.set2. rewrite lookup_insert_eq. cbn.
by rewrite lookup_insert_eq.
Qed.

Lemma get2_set2_ne (m : gmap string (gmap Env V)) hk e v hk' e' :
  (hk', e') ≠ (hk, e) →
  Weights.get2 zero (Weights.set2 m hk e v) hk' e' = Weights.get2 zero m hk' e'.
Proof.
intros Hne. unfold Weights.get2, Weights.set2.
destruct (decide (hk = hk')) as [-> | Hhk].
- rewrite lookup_insert_eq. cbn.
  rewrite lookup_insert_ne; [done | congruence].
- by rewrite lookup_insert_ne.
Qed.

Lemma set2_keys (m : gmap string (gmap Env V)) hk e v hk' :
  is_Some (m !! hk) →
  is_Some (Weights.set2 m hk e v !! hk') ↔ is_Some (m !! hk').
Proof.
intros Hin. unfold Weights.set2.
destruct (decide (hk = hk')) as [-> | Hhk].
- rewrite lookup_insert_eq. naive_solver.
- by rewrite lookup_insert_ne.
Qed.

End Get2.

Lemma changed_spec (p c : Miner.t) :
  Weights.changed p c = true
  ↔ (Miner.block p, Miner.model p, Miner.revision p)
    ≠ (Miner.block c, Miner.model c, Miner.revision c).
Proof.
unfold Weights.changed. rewrite !orb_true_iff, !bool_decide_eq_true.
split.
- intros [[H | H] | H] Heq; apply H; congruence.
- intros Hne.
  destruct (decide (Miner.block p = Miner.block c)); [| tauto].
  destruct (decide (Miner.model p = Miner.model c)); [| tauto].
  destruct (decide (Miner.revision p = Miner.revision c)); [| tauto].
  exfalso. apply Hne. congruence.
Qed.

Lemma step_processed (st : Weights.state) (c : Result.t) (name : string) :
  Weights.name_of c = Ok name →
  Weights.skipped st (Miner.hotkey (Result.miner c)) name = false →
  Weights.step st c = Ok (Weights.accumulate (Weights.reset st c) c).
Proof. intros Hn Hs. unfold Weights.step. rewrite Hn. cbn. by rewrite Hs. Qed.

Lemma step_skipped (st : Weights.state) (c : Result.t) (name : string) :
  Weights.name_of c = Ok name →
  Weights.skipped st (Miner.hotkey (Result.miner c)) name = true →
  Weights.step st c = Ok st.
Proof. intros Hn Hs. unfold Weights.step. rewrite Hn. cbn. by rewrite Hs. Qed.

Lemma reset_cnt (st : Weights.state) (c : Result.t) :
  Weights.cnt (Weights.reset st c) = Weights.cnt st.
Proof.
unfold Weights.reset.
destruct (alist_get _ _); [| done]. by destruct (Weights.changed _ _).
Qed.

Lemma reset_prev (st : Weights.state) (c : Result.t) :
  Weights.prev (Weights.reset st c) = Weights.prev st.
Proof.
unfold Weights.reset.
destruct (alist_get _ _); [| done]. by destruct (Weights.changed _ _).
Qed.

(** C3.  When a processed Result [c] of identity [hk] finds a previous
    Result on record whose (block, model, revision) differs from its own,
    the score sum of ([hk], environment of [c]) is set to zero before the
    score of [c] is added, so it ends as that score; the reset changes no
    trial count, and the count of ([hk], environment of [c]) goes up by one
    as for any processed Result. *)
Theorem reset_clears_sum_not_count (st : Weights.state) (c p : Result.t) (name : string) :
  let hk := Miner.hotkey (Result.miner c) in
  let env := Challenge.env (Result.challenge c) in
  let score := Evaluation.score (Result.evaluation c) in
  Weights.name_of c = Ok name →
  Weights.skipped st hk name = false →
  alist_get hk (Weights.prev st) = Some p →
  (Miner.block (Result.miner p), Miner.model (Result.miner p), Miner.revision (Result.miner p))
  ≠ (Miner.block (Result.miner c), Miner.model (Result.miner c), Miner.revision (Result.miner c)) →
  ∃ st',
    Weights.step st c = Ok st'
    ∧ st' = Weights.accumulate (Weights.reset st c) c
    ∧ Weights.get2 0%Qc (Weights.succ (Weights.reset st c)) hk env = 0%Qc
    ∧ Weights.cnt (Weights.reset st c) = Weights.cnt st
    ∧ Weights.get2 0%Qc (Weights.succ st') hk env = (0 + score)%Qc
    ∧ Weights.get2 0%Qc (Weights.succ st') hk env = score
    ∧ Weights.get2 0 (Weights.cnt st') hk env = Weights.get2 0 (Weights.cnt st) hk env + 1
    ∧ ∀ hk' env', (hk', env') ≠ (hk, env) →
        Weights.get2 0 (Weights.cnt st') hk' env' = Weights.get2 0 (Weights.cnt st) hk' env'.
Proof.
intros hk env score Hname Hskip Hprev Hne.
exists (Weights.accumulate (Weights.reset st c) c).
assert (Hreset : Weights.get2 0%Qc (Weights.succ (Weights.reset st c)) hk env = 0%Qc).
{ unfold Weights.reset. fold hk env. rewrite Hprev.
  apply changed_spec in Hne. rewrite Hne. cbn. apply get2_set2_eq. }
split; [by apply (step_processed st c name) |].
split; [done |]. split; [exact Hreset |]. split; [apply reset_cnt |].
assert (Hsum : Weights.get2 0%Qc (Weights.succ (Weights.accumulate (Weights.reset st c) c)) hk env
               = (0 + score)%Qc).
{ unfold Weights.accumulate. fold hk env score. cbn.
  by rewrite get2_set2_eq, Hreset. }
split; [exact Hsum |].
split; [by rewrite Hsum, Qcplus_0_l |].
unfold Weights.accumulate. fold hk env. cbn. rewrite reset_cnt. split.
- by rewrite get2_set2_eq.
- intros hk' env' Hother. by rewrite get2_set2_ne.
Qed.

Lemma reset_clears_sum_not_count_witness :
  let st := state_after ["A"; "B"; "C"] scenario in
  let c := scored "A" (Some "org/Affine-a") (Some 11) SAT (Q2Qc (1 # 2)) in
  let p := scored "A" (Some "org/Affine-a") (Some 10) ABD (Q2Qc (1 # 2)) in
  Weights.name_of c = Ok "affine-a"
  ∧ Weights.skipped st "A" "affine-a" = false
  ∧ alist_get "A" (Weights.prev st) = Some p
  ∧ (Some 10, Some "org/Affine-a", Some "rev1") ≠ (Some 11, Some "org/Affine-a", Some "rev1")
  ∧ Weights.get2 0%Qc (Weights.succ st) "A" SAT = 1%Qc
  ∧ ∃ st', Weights.step st c = Ok st'
           ∧ Weights.get2 0%Qc (Weights.succ st') "A" SAT = Q2Qc (1 # 2)
           ∧ Weights.get2 0 (Weights.cnt st') "A" SAT = 2.
Proof.
cbv zeta.
assert (H1 : Weights.name_of (scored "A" (Some "org/Affine-a") (Some 11) SAT (Q2Qc (1 # 2)))
             = Ok "affine-a") by (vm_compute; reflexivity).
assert (H2 : Weights.skipped (state_after ["A"; "B"; "C"] scenario) "A" "affine-a" = false)
  by (vm_compute; reflexivity).
assert (H3 : alist_get "A" (Weights.prev (state_after ["A"; "B"; "C"] scenario))
             = Some (scored "A" (Some "org/Affine-a") (Some 10) ABD (Q2Qc (1 # 2))))
  by (vm_compute; reflexivity).
assert (H4 : (Some 10, Some "org/Affine-a", Some "rev1")
             ≠ (Some 11, Some "org/Affine-a", Some "rev1")) by closed_neq.
split; [exact H1 |]. split; [exact H2 |]. split; [exact H3 |]. split; [exact H4 |].
split; [vm_compute; reflexivity |].
destruct (reset_clears_sum_not_count (state_after ["A"; "B"; "C"] scenario)
            (scored "A" (Some "org/Affine-a") (Some 11) SAT (Q2Qc (1 # 2)))
            (scored "A" (Some "org/Affine-a") (Some 10) ABD (Q2Qc (1 # 2)))
            "affine-a" H1 H2 H3 H4)
  as (st' & Hstep & _ & _ & _ & _ & Hsum & Hcnt & _).
exists st'. split; [exact Hstep |]. split; [exact Hsum |].
etrans; [exact Hcnt |]. vm_compute. reflexivity.
Defined.

(** C9: the code at the failing inputs.  A Result whose miner has no model
    makes the loop body raise [AttributeError], and one whose model has no
    '/' makes it raise [IndexError], before the registration test is
    reached; so [get_weights] raises on a stream holding such a Result,
    even one of an unregistered hotkey. *)
Theorem skip_path_raises_without_model_name :
  (∀ st c, Miner.model (Result.miner c) = None →
           Weights.step st c = Raise AttributeError)
  ∧ (∀ st, Weights.step st (scored "unregistered" (Some "noslash") (Some 1) SAT 1%Qc)
           = Raise IndexError)
  ∧ Weights.get_weights ["A"; "B"; "C"]
      (scenario ++ [scored "unregistered" None (Some 1) SAT 1%Qc], None)
    = Raise AttributeError
  ∧ Weights.get_weights ["A"; "B"; "C"] (scenario, None) = Ok (1, "B").
Proof.
split; [| split; [| split]].
- intros st c H. unfold Weights.step, Weights.name_of. by rewrite H.
- intros st. reflexivity.
- vm_compute. reflexivity.
- vm_compute. reflexivity.
Qed.

(** What does hold of the skip path: a Result whose model name can be
    read, and whose hotkey is not registered or whose name does not start
    with affine, leaves the three accumulators as they were. *)
Lemma skipped_result_changes_nothing (st : Weights.state) (c : Result.t) (m : string) :
  Miner.model (Result.miner c) = Some m →
  "/"%char ∈ Py.chars m →
  (Weights.cnt st !! Miner.hotkey (Result.miner c) = None
   ∨ ∀ name, Weights.name_of c = Ok name → startswith name "affine" = false) →
  Weights.step st c = Ok st.
Proof.
intros Hm Hslash Hskip.
assert (Hname : ∃ name, Weights.name_of c = Ok name).
{ unfold Weights.name_of. rewrite Hm. clear Hm Hskip.
  induction m as [| a m IH]; [by apply elem_of_nil in Hslash |].
  cbn [split1]. destruct (decide (a = "/"%char)) as [-> | Hne]; [eauto |].
  apply elem_of_cons in Hslash as [Heq | Hin]; [congruence |].
  destruct (IH Hin) as [name Hn].
  destruct (split1 "/" m) as [| h [| name' tl]]; try done. eauto. }
destruct Hname as [name Hname].
apply (step_skipped st c name Hname). unfold Weights.skipped.
destruct Hskip as [Hnone | Hpre].
- rewrite Hnone. rewrite bool_decide_eq_false_2; [done |]. by intros [? ?].
- rewrite (Hpre name Hname). by rewrite orb_true_r.
Qed.

(** ** Weight engine: dense ranks *)

#[local] Instance Qc_ge_trans : Transitive Qc_ge.
Proof. intros x y z Hxy Hyz. unfold Qc_ge in *. by apply (Qcle_trans z y x). Qed.

#[local] Instance Qc_ge_total : Total Qc_ge.
Proof.
intros x y. unfold Qc_ge.
destruct (Qclt_le_dec x y) as [Hlt | Hle]; [right | left]; [by apply Qclt_le_weak | done].
Qed.



Lemma filter_none {A} (P : A → Prop) `{∀ x, Decision (P x)} (l : list A) :
  Forall (λ x, ¬ P x) l → filter P l = [].
Proof.
induction 1 as [| x l Hx _ IH]; [done |]. by rewrite filter_cons_False.
Qed.



Section UniqFacts.
Variable accs : list Qc.











End UniqFacts.


(** The ranks of the scenario of the specification, with an identity D
    that has no Result: it has accuracy 0 and shares the last rank. *)
Example ranks_example :
  let hotkeys := ["A"; "B"; "C"; "D"] in
  let st := state_after hotkeys scenario in
  (λ h, Weights.ranks hotkeys st SAT h) <$> hotkeys = [1; 2; 3; 4]
  ∧ (λ h, Weights.ranks hotkeys st ABD h) <$> hotkeys = [2; 1; 3; 4]
  ∧ (λ h, Weights.ranks hotkeys st DED h) <$> hotkeys = [1; 1; 1; 1].
Proof. cbv zeta. split; [| split]; vm_compute; reflexivity. Qed.

(** ** Weight engine: the winner *)

Section AlistFacts.
Context {V : Type}.
Implicit Types (l : list (string * V)) (k : string) (v : V).

Lemma alist_get_set l k v k' :
  alist_get k' (alist_set k v l) = if decide (k = k') then Some v else alist_get k' l.
Proof.
induction l as [| [k0 v0] l IH]; cbn.
- destruct (decide (k' = k)), (decide (k = k')); congruence.
- destruct (decide (k = k0)) as [-> | Hk]; cbn.
  + destruct (decide (k' = k0)), (decide (k0 = k')); congruence.
  + rewrite IH. destruct (decide (k' = k0)), (decide (k = k')); congruence.
Qed.

Lemma alist_set_keys l k v k' :
  k' ∈ (alist_set k v l).*1 ↔ k' = k ∨ k' ∈ l.*1.
Proof.
induction l as [| [k0 v0] l IH]; cbn.
- set_solver.
- destruct (decide (k = k0)) as [-> | Hk]; cbn; set_solver.
Qed.

Lemma alist_set_NoDup l k v : NoDup l.*1 → NoDup (alist_set k v l).*1.
Proof.
induction l as [| [k0 v0] l IH]; cbn; intros Hnd.
- apply NoDup_singleton.
- apply NoDup_cons in Hnd as [Hk0 Hnd].
  destruct (decide (k = k0)) as [-> | Hk]; cbn.
  + by apply NoDup_cons.
  + apply NoDup_cons. split; [| by apply IH].
    rewrite alist_set_keys. intros [-> | Hin]; done.
Qed.

Lemma alist_get_None l k : alist_get k l = None ↔ k ∉ l.*1.
Proof.
induction l as [| [k0 v0] l IH]; cbn.
- split; [intros _; apply not_elem_of_nil | done].
- destruct (decide (k = k0)) as [-> | Hk].
  + split; [done | intros H; exfalso; apply H; left].
  + rewrite IH. rewrite not_elem_of_cons. tauto.
Qed.

Lemma alist_get_elem_of l k v : NoDup l.*1 → (k, v) ∈ l ↔ alist_get k l = Some v.
Proof.
induction l as [| [k0 v0] l IH]; cbn; intros Hnd.
- split; [intros H; by apply elem_of_nil in H | done].
- apply NoDup_cons in Hnd as [Hk0 Hnd]. rewrite elem_of_cons.
  destruct (decide (k = k0)) as [-> | Hk].
  + split.
    * intros [Heq | Hin]; [congruence |]. exfalso. apply Hk0.
      apply list_elem_of_fmap. by exists (k0, v).
    * intros Heq. left. congruence.
  + rewrite <- (IH Hnd). split; [| tauto]. intros [Heq | Hin]; [congruence | done].
Qed.

End AlistFacts.

Lemma tuple_gt_false (x y : Z * Z) : tuple_gt x y = false ↔ lex_le x y.
Proof. unfold tuple_gt, lex_le. destruct x, y; cbn. lia. Qed.

Lemma tuple_gt_true (x y : Z * Z) : tuple_gt x y = true → lex_le y x.
Proof. unfold tuple_gt, lex_le. destruct x, y; cbn. lia. Qed.

Lemma lex_le_trans (x y z : Z * Z) : lex_le x y → lex_le y z → lex_le x z.
Proof. unfold lex_le. lia. Qed.

Lemma lex_le_refl (x : Z * Z) : lex_le x x.
Proof. unfold lex_le. lia. Qed.

Section PyMaxFacts.
Context {A : Type} (key : A → result (Z * Z)).

Lemma py_max_from_spec (l : list A) (best : A) (kb : Z * Z) (r : A) :
  py_max_from key best kb l = Ok r →
  key best = Ok kb →
  ∃ kr, key r = Ok kr ∧ (r = best ∨ r ∈ l) ∧ lex_le kb kr
        ∧ ∀ x, x ∈ l → ∃ kx, key x = Ok kx ∧ lex_le kx kr.
Proof.
revert best kb. induction l as [| x l IH]; intros best kb Hmax Hkb; cbn in Hmax.
- inversion Hmax; subst. exists kb. split; [done |]. split; [by left |].
  split; [apply lex_le_refl |]. intros x Hx. by apply elem_of_nil in Hx.
- destruct (key x) as [k | e] eqn:Hkx; cbn in Hmax; [| done].
  destruct (tuple_gt k kb) eqn:Hgt.
  + destruct (IH x k Hmax Hkx) as (kr & Hr & Hin & Hle & Hall).
    exists kr. split; [done |]. split; [right; set_solver |].
    split; [eapply lex_le_trans; [by apply tuple_gt_true | done] |].
    intros y Hy. apply elem_of_cons in Hy as [-> | Hy]; [by exists k | by apply Hall].
  + destruct (IH best kb Hmax Hkb) as (kr & Hr & Hin & Hle & Hall).
    exists kr. split; [done |]. split; [set_solver |]. split; [done |].
    intros y Hy. apply elem_of_cons in Hy as [-> | Hy]; [| by apply Hall].
    exists k. split; [done |]. eapply lex_le_trans; [by apply tuple_gt_false | done].
Qed.

Lemma py_max_spec (l : list A) (r : A) :
  py_max key l = Ok r →
  r ∈ l ∧ ∃ kr, key r = Ok kr ∧ ∀ x, x ∈ l → ∃ kx, key x = Ok kx ∧ lex_le kx kr.
Proof.
destruct l as [| x l]; cbn; [done |]. intros Hmax.
destruct (key x) as [k | e] eqn:Hkx; cbn in Hmax; [| done].
destruct (py_max_from_spec l x k r Hmax Hkx) as (kr & Hr & Hin & Hle & Hall).
split; [set_solver |]. exists kr. split; [done |].
intros y Hy. apply elem_of_cons in Hy as [-> | Hy]; [by exists k | by apply Hall].
Qed.

End PyMaxFacts.

Section DominanceFacts.
Variable rk : Env → string → Z.

Lemma dominates_spec (a b : string) :
  Weights.dominates rk a b = true ↔ Dominates rk a b.
Proof.
unfold Weights.dominates, Dominates, ENVS. cbn.
rewrite !andb_true_iff, !orb_true_iff, !Z.leb_le, !Z.ltb_lt. split.
- intros [(H1 & H2 & H3 & _) [H | [H | [H | H]]]]; [| | | done];
    (split; [by intros [] | eauto]).
- intros [Hall [[] H]]; (split; [by repeat split; try apply Hall | tauto]).
Qed.

Lemma dominates_irrefl (a : string) : ¬ Dominates rk a a.
Proof. intros [_ [e He]]. lia. Qed.

Lemma dom_fold (ps : list (string * string)) (d : gmap string Z) (a : string) :
  default 0
    (fold_left (λ d ab, if Weights.dominates rk ab.1 ab.2
                        then <[ab.1 := default 0 (d !! ab.1) + 1]> d else d) ps d !! a)
  = default 0 (d !! a) + Z.of_nat (length (filter (counts_for rk a) ps)).
Proof.
revert d. induction ps as [| [x b] ps IH]; intros d; cbn [fold_left].
- rewrite filter_nil. cbn. lia.
- rewrite IH. cbn [fst snd].
  destruct (Weights.dominates rk x b) eqn:Hd.
  + apply dominates_spec in Hd.
    destruct (decide (x = a)) as [-> | Hx].
    * rewrite lookup_insert_eq, filter_cons_True by done. cbn. lia.
    * rewrite lookup_insert_ne, filter_cons_False by (done || by intros [? _]). done.
  + rewrite filter_cons_False; [done |].
    intros [_ H]. apply dominates_spec in H. cbn in H. congruence.
Qed.

Lemma count_row (x a : string) (m : list string) :
  length (filter (counts_for rk a) (pair x <$> m))
  = if decide (x = a) then length (filter (Dominates rk a) m) else 0%nat.
Proof.
induction m as [| b m IH]; cbn [fmap list_fmap].
- by destruct (decide (x = a)).
- destruct (decide (x = a)) as [-> | Hx].
  + destruct (decide (Dominates rk a b)) as [Hd | Hd].
    * rewrite !filter_cons_True by done. cbn. by rewrite IH.
    * rewrite !filter_cons_False by (done || by intros [_ ?]). done.
  + rewrite filter_cons_False by (by intros [? _]). done.
Qed.

Lemma count_permutations2_from (before l : list string) (a : string) :
  NoDup (before ++ l) →
  length (filter (counts_for rk a) (permutations2_from before l))
  = if decide (a ∈ l) then length (filter (Dominates rk a) (before ++ l)) else 0%nat.
Proof.
revert before. induction l as [| x l IH]; intros before Hnd; cbn [permutations2_from].
- rewrite decide_False; [done | apply not_elem_of_nil].
- rewrite filter_app, length_app, count_row.
  rewrite IH by (by rewrite <- app_assoc).
  apply NoDup_app in Hnd as (_ & _ & Hnd). apply NoDup_cons in Hnd as [Hx _].
  destruct (decide (x = a)) as [-> | Hne].
  + rewrite (decide_False (P := a ∈ l)) by done.
    rewrite (decide_True (P := a ∈ a :: l)) by left.
    rewrite !filter_app, (filter_cons_False _ a) by apply dominates_irrefl.
    lia.
  + destruct (decide (a ∈ l)) as [Hin | Hin].
    * rewrite (decide_True (P := a ∈ x :: l)) by (by right).
      by rewrite <- app_assoc.
    * rewrite (decide_False (P := a ∈ x :: l)); [done |].
      rewrite not_elem_of_cons. split; [congruence | done].
Qed.

(** [dom[a]] is the number of registered identities that [a] dominates. *)
Lemma dom_count (hotkeys : list string) (a : string) :
  NoDup hotkeys → a ∈ hotkeys →
  default 0 (Weights.dom rk hotkeys !! a)
  = Z.of_nat (length (filter (Dominates rk a) hotkeys)).
Proof.
intros Hnd Ha. unfold Weights.dom. rewrite dom_fold, lookup_empty. cbn.
unfold permutations2. rewrite count_permutations2_from by done.
by rewrite decide_True.
Qed.

End DominanceFacts.

Section StepsFacts.
Variable hotkeys : list string.

Lemma latest_snoc (pre : list Result.t) (c : Result.t) (hk : string) :
  latest hotkeys (pre ++ [c]) hk
  = if decide (observed hotkeys c ∧ Miner.hotkey (Result.miner c) = hk)
    then Some c else latest hotkeys pre hk.
Proof.
unfold latest. rewrite filter_app.
destruct (decide (observed hotkeys c ∧ Miner.hotkey (Result.miner c) = hk)) as [H | H].
- rewrite (filter_cons_True _ c []) by done. rewrite filter_nil. apply last_snoc.
- rewrite (filter_cons_False _ c []) by done. by rewrite filter_nil, app_nil_r.
Qed.

Lemma init_invariant : loop_invariant hotkeys [] (Weights.init hotkeys).
Proof.
split; [| split].
- intros hk. cbn.
  assert (Hkeys : ((λ hk, (hk, (∅ : gmap Env Z))) <$> hotkeys).*1 = hotkeys).
  { rewrite <- list_fmap_compose. apply list_fmap_id. }
  destruct (decide (hk ∈ hotkeys)) as [Hin | Hout].
  + split; [done | intros _].
    apply not_eq_None_Some. intros Hnone.
    apply not_elem_of_list_to_map_2 in Hnone. by rewrite Hkeys in Hnone.
  + split; [| done]. intros [v Hv]. exfalso.
    rewrite not_elem_of_list_to_map_1 in Hv; [done |]. by rewrite Hkeys.
- cbn. apply NoDup_nil_2.
- intros hk. reflexivity.
Qed.

Lemma skipped_observed (st : Weights.state) (c : Result.t) (name : string) :
  (∀ hk, is_Some (Weights.cnt st !! hk) ↔ hk ∈ hotkeys) →
  Weights.name_of c = Ok name →
  Weights.skipped st (Miner.hotkey (Result.miner c)) name = false ↔ observed hotkeys c.
Proof.
intros Hcnt Hname. unfold Weights.skipped, observed.
rewrite orb_false_iff, !negb_false_iff, bool_decide_eq_true, Hcnt. split.
- intros [H1 H2]. by exists name.
- intros (name' & Heq & H1 & H2). rewrite Hname in Heq. inversion Heq; subst. done.
Qed.

Lemma step_invariant (pre : list Result.t) (st st' : Weights.state) (c : Result.t) :
  loop_invariant hotkeys pre st → Weights.step st c = Ok st' →
  loop_invariant hotkeys (pre ++ [c]) st'.
Proof.
intros (Hcnt & Hnd & Hprev) Hstep. unfold Weights.step in Hstep.
destruct (Weights.name_of c) as [name | e] eqn:Hname; cbn in Hstep; [| done].
pose proof (skipped_observed st c name Hcnt Hname) as Hobs.
destruct (Weights.skipped st _ name) eqn:Hskip; inversion Hstep; subst; clear Hstep.
- split; [done |]. split; [done |]. intros hk. rewrite latest_snoc, Hprev.
  rewrite decide_False; [done |]. intros [H _]. apply Hobs in H. done.
- assert (Ho : observed hotkeys c) by (by apply Hobs).
  split; [| split].
  + intros hk. unfold Weights.accumulate. cbn. rewrite reset_cnt.
    rewrite set2_keys; [apply Hcnt |].
    apply Hcnt. by destruct Ho as (? & _ & ? & _).
  + unfold Weights.accumulate. cbn. rewrite reset_prev. by apply alist_set_NoDup.
  + intros hk. unfold Weights.accumulate. cbn.
    rewrite reset_prev, alist_get_set, latest_snoc, Hprev.
    destruct (decide (Miner.hotkey (Result.miner c) = hk)) as [Heq | Hne].
    * by rewrite decide_True.
    * rewrite decide_False; [done |]. by intros [_ ?].
Qed.

Lemma steps_invariant (cs pre : list Result.t) (st st' : Weights.state) :
  loop_invariant hotkeys pre st → Weights.steps st cs = Ok st' →
  loop_invariant hotkeys (pre ++ cs) st'.
Proof.
revert pre st. induction cs as [| c cs IH]; intros pre st Hinv Hsteps; cbn in Hsteps.
- inversion Hsteps; subst. by rewrite app_nil_r.
- destruct (Weights.step st c) as [st1 | e] eqn:Hstep; cbn in Hsteps; [| done].
  rewrite (cons_middle c pre cs), app_assoc.
  apply (IH _ st1); [| done]. by apply (step_invariant pre st).
Qed.

End StepsFacts.

Lemma bind_Ok {A B} (m : result A) (k : A → result B) (b : B) :
  m ≫= k = Ok b → ∃ a, m = Ok a ∧ k a = Ok b.
Proof. destruct m as [a | e]; cbn; [| done]. intros H. by exists a. Qed.

Lemma latest_Some (hotkeys : list string) (cs : list Result.t) (hk : string) (r : Result.t) :
  latest hotkeys cs hk = Some r →
  r ∈ cs ∧ observed hotkeys r ∧ Miner.hotkey (Result.miner r) = hk.
Proof.
intros H. apply last_Some_elem_of in H.
apply list_elem_of_filter in H. tauto.
Qed.

Lemma best_key_Ok (d : gmap string Z) (hk : string) (r : Result.t) (k : Z * Z) :
  Weights.best_key d (hk, r) = Ok k →
  ∃ b, Miner.block (Result.miner r) = Some b ∧ k = (default 0 (d !! hk), - b).
Proof.
unfold Weights.best_key. cbn. destruct (Miner.block (Result.miner r)) as [b |]; [| done].
intros H. inversion H. by exists b.
Qed.

(** C1.  When [get_weights] returns a winner from registered identities
    without repetition, the winner is an identity with an observed Result
    in the stream, its uid is its position among the registered
    identities, and for every identity with an observed Result: the number
    of registered identities it dominates is at most that of the winner,
    and when the two numbers are equal the registration block of the
    winner (the block of its last observed Result's miner) is at most that
    of the other. *)
Theorem winner_maximizes_dominance (hotkeys : list string) (data : stream Result.t)
    (uid : Z) (best : string) :
  NoDup hotkeys →
  Weights.get_weights hotkeys data = Ok (uid, best) →
  ∃ st rb bb,
    Weights.steps (Weights.init hotkeys) data.1 = Ok st
    ∧ hotkeys !! Z.to_nat uid = Some best
    ∧ latest hotkeys data.1 best = Some rb
    ∧ Miner.block (Result.miner rb) = Some bb
    ∧ ∀ h r, latest hotkeys data.1 h = Some r →
        ∃ b, Miner.block (Result.miner r) = Some b
             ∧ dominance_count hotkeys st h ≤ dominance_count hotkeys st best
             ∧ (dominance_count hotkeys st h = dominance_count hotkeys st best → bb ≤ b).
Proof.
intros Hnodup Hgw. unfold Weights.get_weights in Hgw.
apply bind_Ok in Hgw as (st & Hsteps & Hgw).
apply bind_Ok in Hgw as (_ & _ & Hgw).
apply bind_Ok in Hgw as (_ & _ & Hgw).
set (d := Weights.dom (Weights.ranks hotkeys st) hotkeys) in *.
apply bind_Ok in Hgw as ([hb rb] & Hmax & Hgw).
apply bind_Ok in Hgw as (i & Hidx & Hgw).
apply bind_Ok in Hgw as (_ & _ & Hgw).
inversion Hgw; subst uid best; clear Hgw. cbn [fst] in Hidx.
pose proof (steps_invariant hotkeys data.1 [] _ st (init_invariant hotkeys) Hsteps)
  as (Hcnt & Hnd & Hprev).
rewrite app_nil_l in Hprev.
apply py_max_spec in Hmax as (Hin & kr & Hkr & Hall).
apply best_key_Ok in Hkr as (bb & Hbb & ->).
assert (Hlb : latest hotkeys data.1 hb = Some rb).
{ rewrite <- Hprev. by apply alist_get_elem_of. }
assert (Hhb : hb ∈ hotkeys).
{ apply latest_Some in Hlb as (_ & (name & _ & H & _) & Heq). by rewrite <- Heq. }
exists st, rb, bb. split; [done |]. split; [| split; [done | split; [done |]]].
- unfold Weights.index in Hidx.
  destruct (list_find (λ h, h = hb) hotkeys) as [[j x] |] eqn:Hfind; [| done].
  inversion Hidx; subst i. apply list_find_Some in Hfind as (Hj & -> & _).
  by rewrite Nat2Z.id.
- intros h r Hl.
  assert (Hh : h ∈ hotkeys).
  { apply latest_Some in Hl as (_ & (name & _ & H & _) & Heq). by rewrite <- Heq. }
  rewrite <- Hprev in Hl. apply alist_get_elem_of in Hl; [| done].
  destruct (Hall _ Hl) as (kx & Hkx & Hle).
  apply best_key_Ok in Hkx as (b & Hb & ->).
  exists b. split; [done |].
  unfold lex_le in Hle. cbn in Hle. subst d.
  rewrite !dom_count in Hle by done.
  unfold dominance_count. lia.
Qed.

Lemma winner_maximizes_dominance_witness :
  NoDup ["A"; "B"; "C"]
  ∧ Weights.get_weights ["A"; "B"; "C"] (scenario, None) = Ok (1, "B")
  ∧ ∃ st rb bb,
      Weights.steps (Weights.init ["A"; "B"; "C"]) scenario = Ok st
      ∧ ["A"; "B"; "C"] !! 1%nat = Some "B"
      ∧ latest ["A"; "B"; "C"] scenario "B" = Some rb
      ∧ Miner.block (Result.miner rb) = Some bb
      ∧ ∀ h r, latest ["A"; "B"; "C"] scenario h = Some r →
          ∃ b, Miner.block (Result.miner r) = Some b
               ∧ dominance_count ["A"; "B"; "C"] st h ≤ dominance_count ["A"; "B"; "C"] st "B"
               ∧ (dominance_count ["A"; "B"; "C"] st h = dominance_count ["A"; "B"; "C"] st "B"
                  → bb ≤ b).
Proof.
assert (Hnd : NoDup ["A"; "B"; "C"]) by (apply (bool_decide_unpack _); vm_compute; exact I).
assert (Hgw : Weights.get_weights ["A"; "B"; "C"] (scenario, None) = Ok (1, "B"))
  by (vm_compute; reflexivity).
split; [exact Hnd |]. split; [exact Hgw |].
exact (winner_maximizes_dominance ["A"; "B"; "C"] (scenario, None) 1 "B" Hnd Hgw).
Defined.

(** The scenario of the specification: A and B each dominate C only, and
    the tie goes to B, registered at block 5 before A at block 10. *)
Example scenario_example :
  let hotkeys := ["A"; "B"; "C"] in
  let st := state_after hotkeys scenario in
  dominance_count hotkeys st <$> hotkeys = [1; 1; 0]
  ∧ (λ h, Miner.block ∘ Result.miner <$> latest hotkeys scenario h) <$> hotkeys
    = [Some (Some 10); Some (Some 5); Some (Some 1)]
  ∧ Weights.get_weights hotkeys (scenario, None) = Ok (1, "B").
Proof. cbv zeta. split; [| split]; vm_compute; reflexivity. Qed.

(** ** Weight engine: when [get_weights] returns *)

Section PyMaxTotal.
Context {A : Type} (key : A → result (Z * Z)).

Lemma py_max_from_total (l : list A) (best : A) (kb : Z * Z) :
  (∀ x, x ∈ l → ∃ k, key x = Ok k) → ∃ r, py_max_from key best kb l = Ok r.
Proof.
revert best kb. induction l as [| x l IH]; intros best kb Hall; cbn; [by eexists |].
destruct (Hall x) as [k Hk]; [by left |]. rewrite Hk. cbn.
destruct (tuple_gt k kb); apply IH; intros y Hy; apply Hall; by right.
Qed.

Lemma py_max_total (l : list A) :
  l ≠ [] → (∀ x, x ∈ l → ∃ k, key x = Ok k) → ∃ r, py_max key l = Ok r.
Proof.
destruct l as [| x l]; [done |]. intros _ Hall. cbn.
destruct (Hall x) as [k Hk]; [by left |]. rewrite Hk. cbn.
apply py_max_from_total. intros y Hy. apply Hall. by right.
Qed.

End PyMaxTotal.

Lemma steps_total (cs : list Result.t) (st : Weights.state) :
  (∀ c, c ∈ cs → ∃ name, Weights.name_of c = Ok name) →
  ∃ st', Weights.steps st cs = Ok st'.
Proof.
revert st. induction cs as [| c cs IH]; intros st Hall; cbn; [by eexists |].
destruct (Hall c) as [name Hname]; [by left |].
unfold Weights.step at 1. rewrite Hname. cbn.
destruct (Weights.skipped st _ name); cbn; apply IH; intros c' Hc'; apply Hall; by right.
Qed.

Lemma latest_is_Some (hotkeys : list string) (cs : list Result.t) (c : Result.t) :
  c ∈ cs → observed hotkeys c →
  is_Some (latest hotkeys cs (Miner.hotkey (Result.miner c))).
Proof.
intros Hin Hobs. unfold latest.
destruct (last _) as [r |] eqn:Hlast; [by eexists |].
apply last_None in Hlast. exfalso.
eapply (filter_nil_not_elem_of _ _ c Hlast); [| done]. done.
Qed.


(** ** Ledger: windows *)

Section WindowFacts.
Variable WINDOW : Z.
Hypothesis WINDOW_pos : 0 < WINDOW.

Lemma _w_bounds (b : Z) : Ledger._w WINDOW b ≤ b < Ledger._w WINDOW b + WINDOW.
Proof.
unfold Ledger._w.
pose proof (Z.mul_div_le b WINDOW WINDOW_pos).
pose proof (Z.mul_succ_div_gt b WINDOW WINDOW_pos). lia.
Qed.

Lemma _w_divide (b : Z) : (WINDOW | Ledger._w WINDOW b).
Proof. unfold Ledger._w. by exists (b / WINDOW). Qed.

Lemma _w_unique (b w : Z) :
  (WINDOW | w) → w ≤ b < w + WINDOW → w = Ledger._w WINDOW b.
Proof.
intros [q ->] Hb. unfold Ledger._w. f_equal.
apply (Z.div_unique b WINDOW q (b - q * WINDOW)); lia.
Qed.

Lemma _w_mono (b b' : Z) : b ≤ b' → Ledger._w WINDOW b ≤ Ledger._w WINDOW b'.
Proof.
intros Hle. unfold Ledger._w.
apply Z.mul_le_mono_nonneg_r; [lia |]. by apply Z.div_le_mono.
Qed.

Lemma _w_multiple_le (b w : Z) :
  (WINDOW | w) → (w ≤ Ledger._w WINDOW b ↔ w < Ledger._w WINDOW b + WINDOW).
Proof.
intros [q ->]. unfold Ledger._w. split; [lia |]. intros H.
assert (q < b / WINDOW + 1) by nia. nia.
Qed.

End WindowFacts.

(** X1.  For a positive window size, [_w(b)] is the one multiple of the
    window size with [_w(b) <= b < _w(b) + WINDOW]; so [_w] is monotone,
    leaves window starts fixed, and two blocks have the same window start
    exactly when they lie in the same window. *)
Theorem window_start_characterised (WINDOW b : Z) :
  0 < WINDOW →
  (WINDOW | Ledger._w WINDOW b)
  ∧ Ledger._w WINDOW b ≤ b < Ledger._w WINDOW b + WINDOW
  ∧ (∀ w, (WINDOW | w) → w ≤ b < w + WINDOW → w = Ledger._w WINDOW b)
  ∧ Ledger._w WINDOW (Ledger._w WINDOW b) = Ledger._w WINDOW b
  ∧ (∀ b', b ≤ b' → Ledger._w WINDOW b ≤ Ledger._w WINDOW b')
  ∧ (∀ b', Ledger._w WINDOW b' = Ledger._w WINDOW b
           ↔ Ledger._w WINDOW b ≤ b' < Ledger._w WINDOW b + WINDOW).
Proof.
intros Hpos.
split; [by apply _w_divide |]. split; [by apply _w_bounds |].
split; [intros w; by apply _w_unique |].
split.
{ symmetry. apply _w_unique; [by apply _w_divide |].
  pose proof (_w_bounds WINDOW Hpos b). lia. }
split; [intros b'; by apply _w_mono |].
intros b'. split.
- intros <-. by apply _w_bounds.
- intros Hb'. symmetry. apply _w_unique; [by apply _w_divide | done].
Qed.

Lemma window_start_characterised_witness :
  0 < 20
  ∧ Ledger._w 20 1005 = 1000
  ∧ Ledger._w 20 (-5) = -20
  ∧ (∀ b', Ledger._w 20 b' = Ledger._w 20 1005
           ↔ Ledger._w 20 1005 ≤ b' < Ledger._w 20 1005 + 20).
Proof.
assert (H : 0 < 20) by lia.
split; [exact H |]. split; [reflexivity |]. split; [reflexivity |].
exact (proj2 (proj2 (proj2 (proj2 (proj2 (window_start_characterised 20 1005 H)))))).
Defined.

(** ** Ledger: shard keys *)

(** The tables of digits on Latin-1 and at the ends of some runs, as
    Python gives them, and the shape of the runs of decimal digits: a
    run starts with a zero, ends with a nine and has no decimal digit
    next to it. *)
Example digit_tables_examples :
  List.filter Ledger.isdigit_cp (N.of_nat <$> seq 0 256)
  = [48; 49; 50; 51; 52; 53; 54; 55; 56; 57; 178; 179; 185]%N
  ∧ Ledger.isdigit_cp <$> [4969; 8304; 8305; 9312; 127232; 130041; 130042]%N
    = [true; true; false; true; true; true; false]
  ∧ Ledger.decimal_value <$> [47; 48; 57; 58; 178; 1631; 1632; 1641; 1642; 65296; 65305;
                              120782; 120831; 130041; 130042]%N
    = [None; Some 0; Some 9; None; None; None; Some 0; Some 9; None; Some 0; Some 9;
       Some 0; Some 9; Some 9; None]
  ∧ forallb (λ r, bool_decide (Ledger.decimal_value r.1 = Some 0
                               ∧ Ledger.decimal_value r.2 = Some 9
                               ∧ Ledger.decimal_value (r.1 - 1) = None
                               ∧ Ledger.decimal_value (r.2 + 1) = None))
            Ledger.decimal_runs = true.
Proof.
split; [vm_compute; reflexivity |]. split; [vm_compute; reflexivity |].
split; vm_compute; reflexivity.
Qed.

Example digit_tables_sizes :
  list_sum ((λ r, N.to_nat (r.2 - r.1 + 1)) <$> Ledger.decimal_runs) = 660%nat
  ∧ list_sum ((λ r, N.to_nat (r.2 - r.1 + 1)) <$> Ledger.other_digit_runs) = 128%nat.
Proof. split; vm_compute; reflexivity. Qed.

(** Windows of names, as Python reads them. *)
Example window_of_name_examples :
  Ledger.window_of_name "000001000-5Fabc.json" = Ok (Some 1000)
  ∧ Ledger.window_of_name "٠٠٠٠٠١٠٠٠-a.json" = Ok (Some 1000)
  ∧ Ledger.window_of_name "1٢3-x" = Ok (Some 123)
  ∧ Ledger.window_of_name "²-a.json" = Raise ValueError
  ∧ Ledger.window_of_name "12²-a.json" = Raise ValueError
  ∧ Ledger.window_of_name "" = Ok None
  ∧ Ledger.window_of_name "-5" = Ok None
  ∧ Ledger.window_of_name "abc-1" = Ok None
  ∧ Ledger.window_of_name "12" = Ok (Some 12)
  ∧ Ledger.window_of_name "１２３-z" = Ok (Some 123)
  ∧ Ledger.window_of_name "1 2-a" = Ok None
  ∧ Ledger.window_of_name "٣" = Ok (Some 3)
  ∧ Ledger.window_of_name "①-a" = Raise ValueError
  ∧ Ledger.window_of_name "12a-b" = Ok None
  ∧ Ledger.window_of_name "007-b-c" = Ok (Some 7).
Proof. vm_compute. repeat split. Qed.

(** [int] raises on a string of more characters than the limit. *)
Lemma py_int_too_long (s : string) :
  Ledger.int_max_str_digits < Z.of_nat (length (Py.utf8_decode (Py.chars s))) →
  Ledger.py_int s = Raise ValueError.
Proof.
intros Hlen. unfold Ledger.py_int.
destruct (mapM _ _) as [ds |] eqn:Hds; [| done].
apply length_mapM in Hds. rewrite <- Hds.
by rewrite (proj2 (Z.ltb_lt _ _)) by done.
Qed.

(** A closed decidable proposition, by evaluation. *)
Ltac closed_prop := apply (bool_decide_unpack _); vm_compute; exact I.

Lemma append_cons (c : ascii) (s1 s2 : string) : String c s1 +:+ s2 = String c (s1 +:+ s2).
Proof. reflexivity. Qed.

Lemma append_nil_l (s : string) : "" +:+ s = s.
Proof. reflexivity. Qed.

Lemma chars_append (s1 s2 : string) : Py.chars (s1 +:+ s2) = Py.chars s1 ++ Py.chars s2.
Proof.
induction s1 as [| c s1 IH]; [done |].
rewrite append_cons. unfold Py.chars in *. cbn. by rewrite IH.
Qed.

Lemma split1_append (sep : ascii) (s1 s2 : string) :
  sep ∉ Py.chars s1 → split1 sep (s1 +:+ String sep s2) = [s1; s2].
Proof.
induction s1 as [| c s1 IH]; intros Hno.
- rewrite append_nil_l. cbn. by rewrite decide_True.
- rewrite append_cons. cbn [split1].
  unfold Py.chars in Hno. cbn in Hno. apply not_elem_of_cons in Hno as [Hc Hno].
  rewrite decide_False by done. by rewrite IH.
Qed.

Lemma split1_nosep (sep : ascii) (s : string) :
  sep ∉ Py.chars s → split1 sep s = [s].
Proof.
induction s as [| c s IH]; intros Hno; [done |].
unfold Py.chars in Hno. cbn in Hno. apply not_elem_of_cons in Hno as [Hc Hno].
cbn [split1]. rewrite decide_False by done. by rewrite IH.
Qed.

Lemma split_all_nosep (sep : ascii) (s : string) :
  sep ∉ Py.chars s → split_all sep s = [s].
Proof.
induction s as [| c s IH]; intros Hno; [done |].
unfold Py.chars in Hno. cbn in Hno. apply not_elem_of_cons in Hno as [Hc Hno].
cbn [split_all]. rewrite decide_False by done. by rewrite IH.
Qed.

Lemma split_all_append (sep : ascii) (s1 s2 : string) :
  sep ∉ Py.chars s1 →
  split_all sep (s1 +:+ String sep s2) = s1 :: split_all sep s2.
Proof.
induction s1 as [| c s1 IH]; intros Hno.
- rewrite append_nil_l. cbn. by rewrite decide_True.
- rewrite append_cons. cbn [split_all].
  unfold Py.chars in Hno. cbn in Hno. apply not_elem_of_cons in Hno as [Hc Hno].
  rewrite decide_False by done. by rewrite IH.
Qed.

Lemma all_digits_no_char (s : string) (c : ascii) :
  all_digits s → Py.is_digit c = false → c ∉ Py.chars s.
Proof.
intros Hd Hc Hin. unfold all_digits in Hd. rewrite Forall_forall in Hd.
specialize (Hd c Hin). congruence.
Qed.

Lemma string_of_uint_digits (d : Decimal.uint) :
  all_digits (DecimalString.NilEmpty.string_of_uint d).
Proof.
unfold all_digits, Py.chars.
induction d; cbn; constructor; try done.
Qed.

Lemma string_of_uint_to_uint_nonempty (n : N) :
  DecimalString.NilEmpty.string_of_uint (N.to_uint n) ≠ "".
Proof.
intros H.
pose proof (DecimalN.Unsigned.of_to n) as Hof.
destruct (N.to_uint n) eqn:Hu; try done.
cbn in Hof. subst n. done.
Qed.

Lemma zfill_digits (w : nat) (s : string) : all_digits s → all_digits (Ledger.zfill w s).
Proof.
intros Hs. unfold all_digits, Ledger.zfill. rewrite chars_append.
apply Forall_app. split; [| done].
unfold Py.chars, Py.str.
induction (w - String.length s)%nat as [| k IH]; cbn; [constructor |].
constructor; [done | exact IH].
Qed.

Lemma zfill_nonempty (w : nat) (s : string) : s ≠ "" → Ledger.zfill w s ≠ "".
Proof.
intros Hs H. apply (f_equal Py.chars) in H. unfold Ledger.zfill in H.
rewrite chars_append in H. apply app_eq_nil in H as [_ H].
destruct s; [done |]. done.
Qed.

(** Strings of ASCII digits, as [format] writes them. *)

Lemma decode_ascii (l : list ascii) :
  Forall (λ c, Py.is_digit c = true) l → Py.utf8_decode l = Py.code <$> l.
Proof.
induction 1 as [| c l Hc _ IH]; [done |]. cbn [Py.utf8_decode fmap list_fmap].
unfold Py.is_digit in Hc. apply andb_true_iff in Hc as [_ Hc]. apply N.leb_le in Hc.
rewrite (proj2 (N.ltb_lt _ 192)) by lia. by rewrite IH.
Qed.

Lemma in_run_ascii (c : ascii) :
  Py.is_digit c = true → Ledger.in_run (Py.code c) (48, 57)%N = true.
Proof. done. Qed.

Lemma isdigit_cp_ascii (c : ascii) :
  Py.is_digit c = true → Ledger.isdigit_cp (Py.code c) = true.
Proof.
intros Hc. unfold Ledger.isdigit_cp, Ledger.decimal_runs. cbn [existsb].
by rewrite (in_run_ascii c Hc).
Qed.

Lemma decimal_value_ascii (c : ascii) :
  Py.is_digit c = true →
  Ledger.decimal_value (Py.code c) = Some (Z.of_N (Py.code c) - 48).
Proof.
intros Hc. unfold Ledger.decimal_value, Ledger.decimal_runs. cbn [List.find].
rewrite (in_run_ascii c Hc). cbn [fst]. f_equal.
unfold Py.is_digit in Hc. apply andb_true_iff in Hc as [H1 H2].
apply N.leb_le in H1, H2. rewrite N.mod_small by lia. lia.
Qed.

Lemma isdigit_all_digits (s : string) : s ≠ "" → all_digits s → Ledger.isdigit s = true.
Proof.
intros Hne Hd. unfold Ledger.isdigit.
rewrite bool_decide_eq_false_2 by done. cbn [negb andb].
rewrite (decode_ascii _ Hd). apply forallb_forall. intros n Hn.
apply list_elem_of_In, list_elem_of_fmap in Hn as (c & -> & Hc).
apply isdigit_cp_ascii. unfold all_digits in Hd. rewrite Forall_forall in Hd. by apply Hd.
Qed.

Lemma py_int_all_digits (s : string) :
  all_digits s → Z.of_nat (length (Py.chars s)) ≤ Ledger.int_max_str_digits →
  Ledger.py_int s
  = Ok (Ledger.digits_value ((λ c, Z.of_N (Py.code c) - 48) <$> Py.chars s)).
Proof.
intros Hd Hlen. unfold Ledger.py_int. rewrite (decode_ascii _ Hd).
replace (mapM Ledger.decimal_value (Py.code <$> Py.chars s))
  with (Some ((λ c, Z.of_N (Py.code c) - 48) <$> Py.chars s)).
{ rewrite length_fmap. by rewrite (proj2 (Z.ltb_ge _ _)) by done. }
clear Hlen. unfold all_digits in Hd. induction Hd as [| c l Hc _ IH]; [done |].
cbn [fmap list_fmap mapM]. rewrite (decimal_value_ascii c Hc). cbn.
by rewrite <- IH.
Qed.

Lemma string_of_uint_values (d : Decimal.uint) :
  (λ c, Z.of_N (Py.code c) - 48) <$> Py.chars (DecimalString.NilEmpty.string_of_uint d)
  = uint_digits d.
Proof.
unfold Py.chars. induction d; cbn [DecimalString.NilEmpty.string_of_uint
  list_ascii_of_string fmap list_fmap uint_digits]; [done | ..];
  rewrite IHd; f_equal.
Qed.

Lemma digits_acc (d : Decimal.uint) (p : positive) :
  fold_left (λ a x, 10 * a + x) (uint_digits d) (Z.pos p) = Z.pos (Pos.of_uint_acc d p).
Proof.
revert p. induction d; intros p; cbn [uint_digits fold_left Pos.of_uint_acc]; [done | ..].
- replace (10 * Z.pos p + 0) with (Z.pos (Pos.mul 10 p)) by lia. apply IHd.
- replace (10 * Z.pos p + 1) with (Z.pos (Pos.add 1 (Pos.mul 10 p))) by lia. apply IHd.
- replace (10 * Z.pos p + 2) with (Z.pos (Pos.add 2 (Pos.mul 10 p))) by lia. apply IHd.
- replace (10 * Z.pos p + 3) with (Z.pos (Pos.add 3 (Pos.mul 10 p))) by lia. apply IHd.
- replace (10 * Z.pos p + 4) with (Z.pos (Pos.add 4 (Pos.mul 10 p))) by lia. apply IHd.
- replace (10 * Z.pos p + 5) with (Z.pos (Pos.add 5 (Pos.mul 10 p))) by lia. apply IHd.
- replace (10 * Z.pos p + 6) with (Z.pos (Pos.add 6 (Pos.mul 10 p))) by lia. apply IHd.
- replace (10 * Z.pos p + 7) with (Z.pos (Pos.add 7 (Pos.mul 10 p))) by lia. apply IHd.
- replace (10 * Z.pos p + 8) with (Z.pos (Pos.add 8 (Pos.mul 10 p))) by lia. apply IHd.
- replace (10 * Z.pos p + 9) with (Z.pos (Pos.add 9 (Pos.mul 10 p))) by lia. apply IHd.
Qed.

Lemma digits_value_uint (d : Decimal.uint) :
  Ledger.digits_value (uint_digits d) = Z.of_N (N.of_uint d).
Proof.
unfold Ledger.digits_value, N.of_uint.
induction d; cbn [uint_digits fold_left Pos.of_uint]; [done | exact IHd | ..];
  rewrite Z.mul_0_r, Z.add_0_l; apply digits_acc.
Qed.

Lemma digits_value_zeros (k : nat) (ds : list Z) :
  Ledger.digits_value (repeat 0 k ++ ds) = Ledger.digits_value ds.
Proof.
unfold Ledger.digits_value. induction k as [| k IH]; [done |].
cbn [repeat app fold_left]. exact IH.
Qed.

(** The digits of a number: the first is not zero, so that a number with
    [k] digits is at least [10 ^ (k - 1)]. *)
Lemma digits_value_lower (ds : list Z) (a : Z) :
  0 ≤ a → Forall (λ d, 0 ≤ d) ds →
  a * 10 ^ Z.of_nat (length ds) ≤ fold_left (λ a d, 10 * a + d) ds a.
Proof.
revert a. induction ds as [| d ds IH]; intros a Ha Hds; cbn [fold_left length].
- cbn. lia.
- apply Forall_cons in Hds as [Hd Hds].
  rewrite Nat2Z.inj_succ, Z.pow_succ_r by lia.
  etrans; [| apply IH; [lia | done]].
  assert (0 ≤ 10 ^ Z.of_nat (length ds)) by (apply Z.pow_nonneg; lia). nia.
Qed.

Lemma uint_digits_nonneg (d : Decimal.uint) : Forall (λ d, 0 ≤ d) (uint_digits d).
Proof. induction d; cbn [uint_digits]; constructor; (lia || done). Qed.

Lemma nzhead_shape (d : Decimal.uint) :
  match Decimal.nzhead d with Decimal.D0 _ => False | _ => True end.
Proof. induction d; cbn; done. Qed.

Local Ltac lead_digit v :=
  match goal with
  | Hnn : Forall _ (_ :: uint_digits ?d), Hv : fold_left _ _ _ = _ |- _ ≤ ?k =>
    apply Forall_cons in Hnn as [_ Hnn];
    pose proof (digits_value_lower (uint_digits d) v ltac:(lia) Hnn);
    apply Z.nlt_ge; intros Hgt;
    assert (10 ^ k ≤ 10 ^ Z.of_nat (length (uint_digits d)))
      by (apply Z.pow_le_mono_r; lia);
    change (10 * 0 + v) with v in Hv; lia
  end.

Lemma to_uint_digits_length (n : N) (k : Z) :
  1 ≤ k → Z.of_N n < 10 ^ k → Z.of_nat (length (uint_digits (N.to_uint n))) ≤ k.
Proof.
intros Hk Hn.
assert (Hnorm : Decimal.unorm (N.to_uint n) = N.to_uint n).
{ symmetry. etrans; [| apply (DecimalN.Unsigned.to_of (N.to_uint n))].
  by rewrite DecimalN.Unsigned.of_to. }
pose proof (digits_value_uint (N.to_uint n)) as Hv.
rewrite DecimalN.Unsigned.of_to in Hv.
pose proof (nzhead_shape (N.to_uint n)) as Hs.
pose proof (uint_digits_nonneg (N.to_uint n)) as Hnn.
unfold Decimal.unorm in Hnorm. unfold Ledger.digits_value in Hv.
destruct (N.to_uint n) as [| d | d | d | d | d | d | d | d | d | d] eqn:Hu;
  cbn [uint_digits length fold_left] in *.
- lia.
- cbn [Decimal.nzhead] in Hnorm, Hs.
  destruct (Decimal.nzhead d) eqn:Hz; try done; inversion Hnorm; subst; cbn; lia.
- lead_digit 1.
- lead_digit 2.
- lead_digit 3.
- lead_digit 4.
- lead_digit 5.
- lead_digit 6.
- lead_digit 7.
- lead_digit 8.
- lead_digit 9.
Qed.

Lemma string_of_uint_length (d : Decimal.uint) :
  length (Py.chars (DecimalString.NilEmpty.string_of_uint d)) = length (uint_digits d).
Proof. by rewrite <- string_of_uint_values, length_fmap. Qed.

Lemma zfill_length (w : nat) (s : string) :
  length (Py.chars (Ledger.zfill w s)) = Nat.max w (length (Py.chars s)).
Proof.
unfold Ledger.zfill. rewrite chars_append, length_app.
unfold Py.chars at 1, Py.str. rewrite list_ascii_of_string_of_list_ascii, repeat_length.
assert (Hlen : length (Py.chars s) = String.length s).
{ unfold Py.chars. induction s as [| c s IH]; cbn; [done | by rewrite IH]. }
lia.
Qed.

Lemma py_int_zfill (w : nat) (d : Decimal.uint) :
  Z.of_nat (Nat.max w (length (uint_digits d))) ≤ Ledger.int_max_str_digits →
  Ledger.py_int (Ledger.zfill w (DecimalString.NilEmpty.string_of_uint d))
  = Ok (Z.of_N (N.of_uint d)).
Proof.
intros Hlen.
rewrite py_int_all_digits;
  [| apply zfill_digits, string_of_uint_digits
   | by rewrite zfill_length, string_of_uint_length].
f_equal. unfold Ledger.zfill. rewrite chars_append, fmap_app, string_of_uint_values.
replace ((λ c, Z.of_N (Py.code c) - 48)
           <$> Py.chars (Py.str (repeat "0"%char
                 (w - String.length (DecimalString.NilEmpty.string_of_uint d)))))
  with (repeat 0 (w - String.length (DecimalString.NilEmpty.string_of_uint d))).
- by rewrite digits_value_zeros, digits_value_uint.
- unfold Py.chars, Py.str. rewrite list_ascii_of_string_of_list_ascii.
  induction (w - String.length _)%nat as [| k IH]; [done |]. cbn. by rewrite <- IH.
Qed.

(** [window_of_name] raises nothing but [ValueError]. *)
Lemma window_of_name_raise (name : string) (e : exn) :
  Ledger.window_of_name name = Raise e → e = ValueError.
Proof.
unfold Ledger.window_of_name. destruct (Ledger.isdigit _); [| done].
unfold Ledger.py_int. destruct (mapM _ _); cbn; [destruct (_ <? _); cbn |];
  (done || by intros [= <-]).
Qed.

Lemma not_readable_raises (name : string) :
  ¬ name_readable name ↔ Ledger.window_of_name name = Raise ValueError.
Proof.
unfold name_readable. split.
- intros Hno. destruct (Ledger.window_of_name name) as [ow | e] eqn:Hw.
  + exfalso. apply Hno. by exists ow.
  + by rewrite (window_of_name_raise name e Hw).
- intros Hr [ow How]. congruence.
Qed.

Section KeyFacts.
Variable WINDOW : Z.

Lemma format_09d_window (n : Z) (rest : string) :
  0 ≤ n < 10 ^ Ledger.int_max_str_digits →
  Ledger.window_of_name (Ledger.format_09d n +:+ String "-" rest) = Ok (Some n).
Proof.
intros [Hn Hmax]. unfold Ledger.window_of_name, Ledger.before_dash, Ledger.format_09d.
rewrite (proj2 (Z.ltb_ge n 0)) by done.
set (digits := DecimalString.NilEmpty.string_of_uint (N.to_uint (Z.abs_N n))).
assert (Hd : all_digits (Ledger.zfill 9 digits)).
{ apply zfill_digits, string_of_uint_digits. }
rewrite split1_append by (by apply all_digits_no_char).
rewrite isdigit_all_digits; [| | done].
- subst digits. rewrite py_int_zfill, DecimalN.Unsigned.of_to.
  + cbn. do 2 f_equal. rewrite N2Z.inj_abs_N. lia.
  + pose proof (to_uint_digits_length (Z.abs_N n) Ledger.int_max_str_digits) as Hl.
    rewrite N2Z.inj_abs_N, Z.abs_eq in Hl by done.
    assert (H9 : 9 ≤ Ledger.int_max_str_digits) by done.
    specialize (Hl ltac:(lia) Hmax). lia.
- apply zfill_nonempty, string_of_uint_to_uint_nonempty.
Qed.

(** The name of a shard key is what follows the prefix. *)
Lemma path_name_shard_key (block : Z) (address : string) :
  "/"%char ∉ Py.chars address → 0 ≤ Ledger._w WINDOW block →
  Ledger.path_name (Ledger.shard_key WINDOW block address)
  = Ledger.format_09d (Ledger._w WINDOW block) +:+ String "-" (address +:+ ".json").
Proof.
intros Haddr Hw. unfold Ledger.shard_key, Ledger.RESULT_PREFIX, Ledger.path_name.
set (name := Ledger.format_09d (Ledger._w WINDOW block) +:+ "-" +:+ address +:+ ".json").
change ("affine/results/" +:+ name) with ("affine" +:+ String "/" ("results" +:+ String "/" name)).
assert (Hname : "/"%char ∉ Py.chars name).
{ subst name. rewrite !chars_append. rewrite !not_elem_of_app.
  split; [| split; [| split]].
  - unfold Ledger.format_09d. rewrite (proj2 (Z.ltb_ge _ 0)) by done.
    apply all_digits_no_char; [| done]. apply zfill_digits, string_of_uint_digits.
  - closed_prop.
  - done.
  - closed_prop. }
rewrite split_all_append by closed_prop.
rewrite split_all_append by closed_prop.
rewrite split_all_nosep by done.
assert (Hdash : "-"%char ∈ Py.chars name).
{ subst name. rewrite !chars_append, !elem_of_app. right. left. by left. }
rewrite filter_cons_True by (split; done).
rewrite filter_cons_True by (split; done).
rewrite filter_cons_True.
- done.
- split; intros ->; revert Hdash; closed_prop.
Qed.

End KeyFacts.

Lemma shard_key_window_round_trip_aux (WINDOW block : Z) (address : string) :
  0 < WINDOW → 0 ≤ block < 10 ^ Ledger.int_max_str_digits →
  "/"%char ∉ Py.chars address →
  Ledger.window_of_name (Ledger.path_name (Ledger.shard_key WINDOW block address))
  = Ok (Some (Ledger._w WINDOW block)).
Proof.
intros Hpos [Hblock Hmax] Haddr.
assert (Hw : 0 ≤ Ledger._w WINDOW block ≤ block).
{ unfold Ledger._w. split.
  - apply Z.mul_nonneg_nonneg; [| lia]. apply Z.div_pos; lia.
  - rewrite Z.mul_comm. apply Z.mul_div_le. lia. }
rewrite path_name_shard_key by (done || lia).
apply format_09d_window. lia.
Qed.

(** X2.  The window of a shard is read back from its key: for a block
    that is not negative, of at most 4300 digits, and an address without
    a slash, the numeric
    prefix of the name of the key that [sink] writes is the window start
    of the block. *)
Theorem shard_key_window_round_trip (WINDOW block : Z) (address : string) :
  0 < WINDOW → 0 ≤ block < 10 ^ Ledger.int_max_str_digits →
  "/"%char ∉ Py.chars address →
  Ledger.window_of_name (Ledger.path_name (Ledger.shard_key WINDOW block address))
  = Ok (Some (Ledger._w WINDOW block)).
Proof.
intros Hpos Hblock Haddr. by apply shard_key_window_round_trip_aux.
Qed.

Lemma shard_key_window_round_trip_witness :
  0 < 20 ∧ 0 ≤ 1005 < 10 ^ Ledger.int_max_str_digits
  ∧ ("/"%char ∉ Py.chars "5Fabc")
  ∧ Ledger.shard_key 20 1005 "5Fabc" = "affine/results/000001000-5Fabc.json"
  ∧ Ledger.window_of_name (Ledger.path_name (Ledger.shard_key 20 1005 "5Fabc"))
    = Ok (Some 1000).
Proof.
assert (H1 : 0 < 20) by lia. 
assert (H2 : 0 ≤ 1005 < 10 ^ Ledger.int_max_str_digits) by (split; [lia | vm_compute; reflexivity]).
assert (H3 : "/"%char ∉ Py.chars "5Fabc") by closed_prop.
split; [exact H1 |]. split; [exact H2 |]. split; [exact H3 |].
split; [vm_compute; reflexivity |].
exact (shard_key_window_round_trip 20 1005 "5Fabc" H1 H2 H3).
Defined.

Lemma py_range_elem_of (start stop step x : Z) :
  0 < step →
  x ∈ Ledger.py_range start stop step ↔ start ≤ x < stop ∧ (step | x - start).
Proof.
intros Hstep. unfold Ledger.py_range. rewrite (proj2 (Z.ltb_lt 0 step)) by done.
rewrite list_elem_of_fmap.
set (q := (stop - start + step - 1) / step).
assert (Hq1 : step * q ≤ stop - start + step - 1) by (by apply Z.mul_div_le).
assert (Hq2 : stop - start + step - 1 < step * Z.succ q) by (by apply Z.mul_succ_div_gt).
split.
- intros (i & -> & Hi). apply elem_of_seq in Hi.
  split; [nia |]. exists (Z.of_nat i). lia.
- intros [Hx [k Hk]]. exists (Z.to_nat k).
  assert (0 ≤ k) by nia.
  split; [lia |]. apply elem_of_seq. split; [lia |]. cbn.
  assert (k < q) by nia. lia.
Qed.

Section ShardKeysFacts.
Variable WINDOW : Z.
Hypothesis WINDOW_pos : 0 < WINDOW.

Lemma need_elem_of (cur tail w : Z) :
  w ∈ Ledger.need WINDOW cur tail
  ↔ (WINDOW | w) ∧ Ledger._w WINDOW (cur - tail) ≤ w ≤ Ledger._w WINDOW cur.
Proof.
unfold Ledger.need. rewrite elem_of_remove_dups, py_range_elem_of by done.
pose proof (_w_divide WINDOW (cur - tail)) as [q Hq].
split.
- intros [Hw [k Hk]].
  assert (Hdiv : (WINDOW | w)) by (exists (k + q); lia).
  split; [done |]. split; [lia |].
  apply (_w_multiple_le WINDOW WINDOW_pos cur w Hdiv). lia.
- intros [Hdiv [Hlo Hhi]]. split.
  + split; [done |]. by apply (_w_multiple_le WINDOW WINDOW_pos cur w Hdiv).
  + destruct Hdiv as [k Hk]. exists (k - q). lia.
Qed.

Lemma key_needed_spec (cur tail : Z) (k : string) (b : bool) :
  Ledger.key_needed WINDOW cur tail k = Ok b →
  b = true ↔ ∃ w, Ledger.window_of_name (Ledger.path_name k) = Ok (Some w)
                  ∧ (WINDOW | w)
                  ∧ Ledger._w WINDOW (cur - tail) ≤ w ≤ Ledger._w WINDOW cur.
Proof.
unfold Ledger.key_needed.
destruct (Ledger.window_of_name (Ledger.path_name k)) as [[w |] | e]; cbn; [| | done].
- intros [= <-]. rewrite bool_decide_eq_true, need_elem_of. split.
  + intros H. by exists w.
  + intros (w' & [= <-] & H). done.
- intros [= <-]. split; [done |]. by intros (w & ? & _).
Qed.

Lemma select_keys_ok (keys : list string) (cur tail : Z) :
  (∀ k, k ∈ keys → name_readable (Ledger.path_name k)) →
  ∃ l, Ledger.select_keys WINDOW cur tail keys = Ok l
       ∧ ∀ k, k ∈ l ↔
           k ∈ keys
           ∧ ∃ w, Ledger.window_of_name (Ledger.path_name k) = Ok (Some w)
                  ∧ (WINDOW | w)
                  ∧ Ledger._w WINDOW (cur - tail) ≤ w ≤ Ledger._w WINDOW cur.
Proof.
induction keys as [| k keys IH]; intros Hread.
- exists []. split; [done |]. intros k. set_solver.
- destruct IH as (l & Hl & Hspec); [intros k' Hk'; apply Hread; by right |].
  destruct (Hread k) as [ow How]; [by left |].
  assert (Hkey : ∃ b, Ledger.key_needed WINDOW cur tail k = Ok b).
  { unfold Ledger.key_needed. rewrite How. by eexists. }
  destruct Hkey as [b Hb]. pose proof (key_needed_spec cur tail k b Hb) as Hbspec.
  cbn [Ledger.select_keys]. rewrite Hb, Hl. cbn.
  eexists. split; [reflexivity |]. intros k'.
  destruct b.
  + rewrite !elem_of_cons, Hspec. split.
    * intros [-> | [? ?]]; [| tauto]. split; [by left |]. by apply Hbspec.
    * intros [[-> | ?] ?]; [by left | tauto].
  + rewrite elem_of_cons, Hspec. split; [tauto |].
    intros [[-> | ?] Hw]; [| tauto]. apply Hbspec in Hw. done.
Qed.

Lemma select_keys_raises (keys : list string) (cur tail : Z) (k : string) :
  k ∈ keys → ¬ name_readable (Ledger.path_name k) →
  Ledger.select_keys WINDOW cur tail keys = Raise ValueError.
Proof.
induction keys as [| k' keys IH]; intros Hin Hno; [by apply elem_of_nil in Hin |].
cbn [Ledger.select_keys]. unfold Ledger.key_needed at 1.
destruct (Ledger.window_of_name (Ledger.path_name k')) as [ow | e] eqn:Hw.
- cbn. apply elem_of_cons in Hin as [-> | Hin].
  + exfalso. apply Hno. by exists ow.
  + by rewrite (IH Hin Hno).
- cbn. by rewrite (window_of_name_raise _ e Hw).
Qed.

Lemma shard_keys_spec (keys : list string) (cur tail : Z) :
  (∀ k, k ∈ keys → name_readable (Ledger.path_name k)) →
  ∃ l, Ledger._shard_keys WINDOW (Some keys) cur tail = Ok l
       ∧ StronglySorted String.le l
       ∧ ∀ k, k ∈ l ↔
           k ∈ keys
           ∧ ∃ w, Ledger.window_of_name (Ledger.path_name k) = Ok (Some w)
                  ∧ (WINDOW | w)
                  ∧ Ledger._w WINDOW (cur - tail) ≤ w ≤ Ledger._w WINDOW cur.
Proof.
intros Hread. destruct (select_keys_ok keys cur tail Hread) as (l & Hl & Hspec).
exists (merge_sort String.le l). cbn [Ledger._shard_keys]. rewrite Hl. cbn.
split; [done |]. split.
- apply StronglySorted_merge_sort; apply _.
- intros k. by rewrite merge_sort_Permutation.
Qed.

Lemma shard_keys_raises (keys : list string) (cur tail : Z) (k : string) :
  k ∈ keys → ¬ name_readable (Ledger.path_name k) →
  Ledger._shard_keys WINDOW (Some keys) cur tail = Raise ValueError.
Proof.
intros Hin Hno. cbn [Ledger._shard_keys].
by rewrite (select_keys_raises keys cur tail k Hin Hno).
Qed.

(** A key that [sink] made and the keys around it. *)
Lemma shard_key_listed (keys : list string) (cur tail block : Z) (address : string) :
  0 ≤ block < 10 ^ Ledger.int_max_str_digits → cur - tail ≤ block ≤ cur →
  "/"%char ∉ Py.chars address →
  (∀ k, k ∈ keys → name_readable (Ledger.path_name k)) →
  Ledger.shard_key WINDOW block address ∈ keys →
  ∃ l, Ledger._shard_keys WINDOW (Some keys) cur tail = Ok l
       ∧ Ledger.shard_key WINDOW block address ∈ l.
Proof.
intros Hblock Hrange Haddr Hread Hin.
destruct (shard_keys_spec keys cur tail Hread) as (l & Hl & _ & Hspec).
exists l. split; [done |]. apply Hspec. split; [done |].
exists (Ledger._w WINDOW block).
split; [by apply shard_key_window_round_trip_aux |].
split; [by apply _w_divide |].
split; apply (_w_mono WINDOW WINDOW_pos); lia.
Qed.

End ShardKeysFacts.

(** X3.  [_shard_keys] raises [ClientError] when the index object is
    missing, and [ValueError] when the index holds a key whose name
    starts, before the first dash, with digits that [int] does not read
    (a superscript two, say, or more than 4300 digits).  Otherwise it returns, sorted upwards,
    exactly the keys of the index whose name starts with decimal digits,
    of any script, that spell a multiple of the window size between the
    window starts of [cur - tail] and of [cur]. *)
Theorem shard_keys_characterised (WINDOW : Z) (keys : list string) (cur tail : Z) :
  0 < WINDOW →
  Ledger._shard_keys WINDOW None cur tail = Raise ClientError
  ∧ ((∃ k, k ∈ keys ∧ ¬ name_readable (Ledger.path_name k)) →
     Ledger._shard_keys WINDOW (Some keys) cur tail = Raise ValueError)
  ∧ ((∀ k, k ∈ keys → name_readable (Ledger.path_name k)) →
     ∃ l, Ledger._shard_keys WINDOW (Some keys) cur tail = Ok l
          ∧ StronglySorted String.le l
          ∧ ∀ k, k ∈ l ↔
              k ∈ keys
              ∧ ∃ w, Ledger.window_of_name (Ledger.path_name k) = Ok (Some w)
                     ∧ (WINDOW | w)
                     ∧ Ledger._w WINDOW (cur - tail) ≤ w ≤ Ledger._w WINDOW cur).
Proof.
intros Hpos. split; [reflexivity |]. split.
- intros (k & Hin & Hno). by apply (shard_keys_raises WINDOW keys cur tail k).
- by apply shard_keys_spec.
Qed.

Lemma shard_keys_characterised_witness :
  0 < 20
  ∧ Ledger._shard_keys 20
      (Some ["affine/results/000001000-b.json"; "affine/results/000000900-a.json";
             "affine/results/000000880-a.json"; "x/000000910-a.json"; "000001020-z";
             "affine/results/٠٠٠٠٠٠٩٢٠-c.json"; "affine/results/latest.json"])
      1005 100
    = Ok ["affine/results/000000900-a.json"; "affine/results/000001000-b.json";
          "affine/results/٠٠٠٠٠٠٩٢٠-c.json"]
  ∧ Ledger._shard_keys 20
      (Some ["affine/results/000001000-b.json"; "affine/results/²-a.json"]) 1005 100
    = Raise ValueError
  ∧ Ledger._shard_keys 20 (Some ["000000900-a"; "²-a"]) 1005 100 = Raise ValueError.
Proof.
assert (H : 0 < 20) by lia.
assert (Hbad : ∃ k, k ∈ ["000000900-a"; "²-a"] ∧ ¬ name_readable (Ledger.path_name k)).
{ exists "²-a". split; [by right; left |].
  apply not_readable_raises. vm_compute. reflexivity. }
split; [exact H |]. split; [vm_compute; reflexivity |]. split; [vm_compute; reflexivity |].
exact (proj1 (proj2 (shard_keys_characterised 20 ["000000900-a"; "²-a"] 1005 100 H)) Hbad).
Defined.

(** X4.  In an index whose names can all be read, a shard that [sink]
    wrote for a block of the trailing range (not negative, of at most
    4300 digits) and an address without a slash is among the keys that
    [_shard_keys] returns. *)
Theorem written_shard_is_listed (WINDOW : Z) (keys : list string) (cur tail block : Z)
    (address : string) :
  0 < WINDOW → 0 ≤ block < 10 ^ Ledger.int_max_str_digits →
  cur - tail ≤ block ≤ cur →
  "/"%char ∉ Py.chars address →
  (∀ k, k ∈ keys → name_readable (Ledger.path_name k)) →
  Ledger.shard_key WINDOW block address ∈ keys →
  ∃ l, Ledger._shard_keys WINDOW (Some keys) cur tail = Ok l
       ∧ Ledger.shard_key WINDOW block address ∈ l.
Proof.
intros Hpos Hblock Hrange Haddr Hread Hin. by apply shard_key_listed.
Qed.

Lemma written_shard_is_listed_witness :
  0 < 20 ∧ 0 ≤ 997 < 10 ^ Ledger.int_max_str_digits
  ∧ 1005 - 100 ≤ 997 ≤ 1005
  ∧ ("/"%char ∉ Py.chars "5Fabc")
  ∧ (∀ k, k ∈ ["affine/results/000000980-5Fabc.json"] →
          name_readable (Ledger.path_name k))
  ∧ Ledger.shard_key 20 997 "5Fabc" ∈ ["affine/results/000000980-5Fabc.json"]
  ∧ ∃ l, Ledger._shard_keys 20 (Some ["affine/results/000000980-5Fabc.json"]) 1005 100 = Ok l
         ∧ Ledger.shard_key 20 997 "5Fabc" ∈ l.
Proof.
assert (H1 : 0 < 20) by lia. 
assert (H2 : 0 ≤ 997 < 10 ^ Ledger.int_max_str_digits) by (split; [lia | vm_compute; reflexivity]).
assert (H3 : 1005 - 100 ≤ 997 ≤ 1005) by lia.
assert (H4 : "/"%char ∉ Py.chars "5Fabc") by closed_prop.
assert (H5 : ∀ k, k ∈ ["affine/results/000000980-5Fabc.json"] →
                  name_readable (Ledger.path_name k)).
{ intros k Hk. apply list_elem_of_singleton in Hk. subst k.
  exists (Some 980). vm_compute. reflexivity. }
assert (H6 : Ledger.shard_key 20 997 "5Fabc" ∈ ["affine/results/000000980-5Fabc.json"])
  by closed_prop.
split; [exact H1 |]. split; [exact H2 |]. split; [exact H3 |].
split; [exact H4 |]. split; [exact H5 |]. split; [exact H6 |].
exact (written_shard_is_listed 20 ["affine/results/000000980-5Fabc.json"] 1005 100 997
         "5Fabc" H1 H2 H3 H4 H5 H6).
Defined.

(** ** Ledger: the index *)

Section IndexFacts.
Context {J : Type}.

Lemma update_index_shards (key : string) (s : Ledger.store J) :
  Ledger.shards (Ledger._update_index key s) = Ledger.shards s.
Proof. unfold Ledger._update_index. by destruct (decide _). Qed.

Lemma update_index_elem_of (key : string) (s : Ledger.store J) (k : string) :
  k ∈ default [] (Ledger.index (Ledger._update_index key s))
  ↔ k = key ∨ k ∈ default [] (Ledger.index s).
Proof.
unfold Ledger._update_index. destruct (decide _) as [Hin | Hnot].
- rewrite elem_of_list_to_set in Hin. split; [by right |].
  by intros [-> | H].
- cbn. rewrite merge_sort_Permutation, elem_of_elements, elem_of_union,
    elem_of_singleton, elem_of_list_to_set. done.
Qed.

Lemma update_index_known (key : string) (s : Ledger.store J) :
  key ∈ default [] (Ledger.index s) → Ledger._update_index key s = s.
Proof.
intros Hin. unfold Ledger._update_index.
rewrite decide_True; [done |]. by rewrite elem_of_list_to_set.
Qed.

Lemma update_index_new (key : string) (s : Ledger.store J) :
  key ∉ default [] (Ledger.index s) →
  ∃ l, Ledger.index (Ledger._update_index key s) = Some l
       ∧ StronglySorted String.le l ∧ NoDup l.
Proof.
intros Hnot. unfold Ledger._update_index.
rewrite decide_False by (by rewrite elem_of_list_to_set).
eexists. split; [reflexivity |]. split.
- apply StronglySorted_merge_sort; apply _.
- rewrite merge_sort_Permutation. apply NoDup_elements.
Qed.

End IndexFacts.

(** X5.  [_update_index] leaves the shards alone and makes the index hold
    the key and what it held before, nothing else.  A key that is already
    in the index causes no write; a new key leaves the index sorted and
    without duplicates; a second call with the same key changes nothing. *)
Theorem update_index_registers_key {J : Type} (key : string) (s : Ledger.store J) :
  Ledger.shards (Ledger._update_index key s) = Ledger.shards s
  ∧ (∀ k, k ∈ default [] (Ledger.index (Ledger._update_index key s))
          ↔ k = key ∨ k ∈ default [] (Ledger.index s))
  ∧ (key ∈ default [] (Ledger.index s) → Ledger._update_index key s = s)
  ∧ (key ∉ default [] (Ledger.index s) →
       ∃ l, Ledger.index (Ledger._update_index key s) = Some l
            ∧ StronglySorted String.le l ∧ NoDup l)
  ∧ Ledger._update_index key (Ledger._update_index key s) = Ledger._update_index key s.
Proof.
split; [apply update_index_shards |].
split; [apply update_index_elem_of |].
split; [apply update_index_known |].
split; [apply update_index_new |].
apply update_index_known, update_index_elem_of. by left.
Qed.

(** ** Ledger: [sink] *)


Section SinkFacts.
Context {K : Keyring} {J : Type}.
Variable WINDOW : Z.
Variable model_dump : Result.t → J.
Variables (wallet : keypair) (nonces : nat → N) (block : option Z) (cur : Z).

Lemma sink_returns (results : list Result.t) (s : Ledger.store J) :
  (Ledger.sink WINDOW model_dump wallet nonces results block cur s).2
  = sink_signed wallet nonces results.
Proof. by destruct results. Qed.

Lemma sink_unfold (r : Result.t) (results : list Result.t) (s : Ledger.store J) :
  let key := sink_key WINDOW wallet block cur in
  let payload := model_dump <$> sink_signed wallet nonces (r :: results) in
  let merged := default [] (Ledger.shards s !! key) ++ payload in
  let s' := Ledger.mk_store (Ledger.index s) (<[key := merged]> (Ledger.shards s)) in
  (Ledger.sink WINDOW model_dump wallet nonces (r :: results) block cur s).1
  = if decide (length merged = length payload) then Ledger._update_index key s' else s'.
Proof.
cbv zeta. unfold Ledger.sink. fold (block_or block cur).
fold (sink_key WINDOW wallet block cur). fold (sink_signed wallet nonces (r :: results)).
cbv zeta. cbn [fst].
by destruct (Ledger.shards s !! sink_key WINDOW wallet block cur).
Qed.

Lemma sink_shards (results : list Result.t) (s : Ledger.store J) :
  results ≠ [] →
  Ledger.shards (Ledger.sink WINDOW model_dump wallet nonces results block cur s).1
  = <[sink_key WINDOW wallet block cur :=
        default [] (Ledger.shards s !! sink_key WINDOW wallet block cur)
        ++ (model_dump <$> sink_signed wallet nonces results)]>
      (Ledger.shards s).
Proof.
intros Hne. destruct results as [| r results]; [done |].
rewrite sink_unfold. cbv zeta.
destruct (decide _); by rewrite ?update_index_shards.
Qed.

Lemma sink_index (results : list Result.t) (s : Ledger.store J) (k : string) :
  k ∈ default [] (Ledger.index (Ledger.sink WINDOW model_dump wallet nonces results block cur s).1)
  → k = sink_key WINDOW wallet block cur ∨ k ∈ default [] (Ledger.index s).
Proof.
destruct results as [| r results]; [by right |].
rewrite sink_unfold. cbv zeta.
destruct (decide _); [| by right].
by rewrite update_index_elem_of.
Qed.

Lemma sink_index_kept (results : list Result.t) (s : Ledger.store J) (k : string) :
  k ∈ default [] (Ledger.index s)
  → k ∈ default [] (Ledger.index (Ledger.sink WINDOW model_dump wallet nonces results block cur s).1).
Proof.
destruct results as [| r results]; [done |].
rewrite sink_unfold. cbv zeta.
destruct (decide _); [| done].
rewrite update_index_elem_of. by right.
Qed.

Lemma sink_new_shard (results : list Result.t) (s : Ledger.store J) :
  results ≠ [] →
  default [] (Ledger.shards s !! sink_key WINDOW wallet block cur) = [] →
  ∃ l, Ledger.index (Ledger.sink WINDOW model_dump wallet nonces results block cur s).1 = Some l
       ∧ sink_key WINDOW wallet block cur ∈ l.
Proof.
intros Hne Hnew. destruct results as [| r results]; [done |].
rewrite sink_unfold. cbv zeta. rewrite Hnew.
rewrite decide_True by done.
match goal with |- context [Ledger._update_index ?k ?s] =>
  pose proof (proj2 (update_index_elem_of k s k) (or_introl eq_refl)) as Hin;
  destruct (Ledger.index (Ledger._update_index k s)) as [l |] end.
- by exists l.
- by apply elem_of_nil in Hin.
Qed.

End SinkFacts.

(** X6.  [sink] with at least one Result signs each Result with the
    wallet and appends their dumps, in order, to what the shard of the
    block's window and the wallet's address held (nothing, when there was
    no such shard); every other shard is as before. *)
Theorem sink_appends_to_shard {K : Keyring} {J : Type} (WINDOW : Z)
    (model_dump : Result.t → J) (wallet : keypair) (nonces : nat → N)
    (results : list Result.t) (block : option Z) (cur : Z) (s : Ledger.store J) :
  results ≠ [] →
  (Ledger.sink WINDOW model_dump wallet nonces results block cur s).2
  = sink_signed wallet nonces results
  ∧ Ledger.shards (Ledger.sink WINDOW model_dump wallet nonces results block cur s).1
    !! sink_key WINDOW wallet block cur
    = Some (default [] (Ledger.shards s !! sink_key WINDOW wallet block cur)
            ++ (model_dump <$> sink_signed wallet nonces results))
  ∧ ∀ k, k ≠ sink_key WINDOW wallet block cur →
      Ledger.shards (Ledger.sink WINDOW model_dump wallet nonces results block cur s).1 !! k
      = Ledger.shards s !! k.
Proof.
intros Hne. split; [apply sink_returns |].
rewrite sink_shards by done. split.
- by rewrite lookup_insert_eq.
- intros k Hk. by rewrite lookup_insert_ne.
Qed.

Lemma sink_appends_to_shard_witness :
  [sample_result] ≠ []
  ∧ Ledger.shards
      (@Ledger.sink toy_keyring Result.t 20 id "alice" N.of_nat [sample_result] None 1005
         sample_store).1
    !! @sink_key toy_keyring 20 "alice" None 1005
    = Some (default [] (Ledger.shards sample_store !! @sink_key toy_keyring 20 "alice" None 1005)
            ++ (id <$> @sink_signed toy_keyring "alice" N.of_nat [sample_result])).
Proof.
assert (H : [sample_result] ≠ []) by done.
split; [exact H |].
exact (proj1 (proj2 (@sink_appends_to_shard toy_keyring Result.t 20 id "alice" N.of_nat
                       [sample_result] None 1005 sample_store H))).
Defined.

(** X7.  The ledger only grows: whatever the Results, [sink] keeps every
    shard's content as a prefix of its content afterwards, keeps every key
    of the index, and adds to the index no key but the one it wrote to;
    with no Results it does nothing at all. *)
Theorem sink_only_appends {K : Keyring} {J : Type} (WINDOW : Z)
    (model_dump : Result.t → J) (wallet : keypair) (nonces : nat → N)
    (results : list Result.t) (block : option Z) (cur : Z) (s : Ledger.store J) :
  (∀ k old, Ledger.shards s !! k = Some old →
     ∃ new, Ledger.shards (Ledger.sink WINDOW model_dump wallet nonces results block cur s).1 !! k
            = Some (old ++ new))
  ∧ (∀ k, k ∈ default [] (Ledger.index s) →
       k ∈ default [] (Ledger.index (Ledger.sink WINDOW model_dump wallet nonces results block cur s).1))
  ∧ (∀ k, k ∈ default [] (Ledger.index (Ledger.sink WINDOW model_dump wallet nonces results block cur s).1) →
       k = sink_key WINDOW wallet block cur ∨ k ∈ default [] (Ledger.index s))
  ∧ Ledger.sink WINDOW model_dump wallet nonces [] block cur s = (s, []).
Proof.
split; [| split; [apply sink_index_kept | split; [apply sink_index | done]]].
intros k old Hk.
destruct results as [| r results].
- exists []. by rewrite app_nil_r.
- rewrite sink_shards by done.
  destruct (decide (k = sink_key WINDOW wallet block cur)) as [-> | Hne].
  + rewrite lookup_insert_eq, Hk. by eexists.
  + rewrite lookup_insert_ne by done. exists []. by rewrite app_nil_r.
Qed.

(** X8.  A first upload can be found: when the names of the index can
    all be read and [sink] writes Results for a block of the trailing
    range (not negative, of at most 4300 digits), under an address
    without a slash, to a window that had no content, the index exists
    afterwards and [_shard_keys] on it returns the shard's key. *)
Theorem sunk_shard_is_discovered {K : Keyring} {J : Type} (WINDOW : Z)
    (model_dump : Result.t → J) (wallet : keypair) (nonces : nat → N)
    (results : list Result.t) (block : option Z) (cur tail : Z) (s : Ledger.store J) :
  0 < WINDOW → 0 ≤ block_or block cur < 10 ^ Ledger.int_max_str_digits →
  cur - tail ≤ block_or block cur ≤ cur →
  "/"%char ∉ Py.chars (ss58_address wallet) →
  results ≠ [] →
  default [] (Ledger.shards s !! sink_key WINDOW wallet block cur) = [] →
  (∀ k, k ∈ default [] (Ledger.index s) → name_readable (Ledger.path_name k)) →
  ∃ l, Ledger._shard_keys WINDOW
         (Ledger.index (Ledger.sink WINDOW model_dump wallet nonces results block cur s).1)
         cur tail = Ok l
       ∧ sink_key WINDOW wallet block cur ∈ l.
Proof.
intros Hpos Hblock Hrange Haddr Hne Hnew Hread.
pose proof (sink_index WINDOW model_dump wallet nonces block cur results s) as Hidx.
destruct (sink_new_shard WINDOW model_dump wallet nonces block cur results s Hne Hnew)
  as (keys & Hkeys & Hin).
rewrite Hkeys in Hidx |- *. cbn [default] in Hidx.
apply (shard_key_listed WINDOW Hpos keys cur tail (block_or block cur)
         (ss58_address wallet)); try done.
intros k Hk. destruct (Hidx k Hk) as [-> | Hold]; [| by apply Hread].
exists (Some (Ledger._w WINDOW (block_or block cur))).
by apply shard_key_window_round_trip_aux.
Qed.

Lemma sunk_shard_is_discovered_witness :
  0 < 20 ∧ 0 ≤ block_or None 1005 < 10 ^ Ledger.int_max_str_digits
  ∧ 1005 - 100 ≤ block_or None 1005 ≤ 1005
  ∧ ("/"%char ∉ Py.chars (@ss58_address toy_keyring "alice"))
  ∧ [sample_result] ≠ []
  ∧ default [] (Ledger.shards sample_store !! @sink_key toy_keyring 20 "alice" None 1005) = []
  ∧ (∀ k, k ∈ default [] (Ledger.index sample_store) → name_readable (Ledger.path_name k))
  ∧ @sink_key toy_keyring 20 "alice" None 1005 = "affine/results/000001000-5alice.json"
  ∧ ∃ l, Ledger._shard_keys 20
           (Ledger.index
              (@Ledger.sink toy_keyring Result.t 20 id "alice" N.of_nat [sample_result] None
                 1005 sample_store).1)
           1005 100 = Ok l
         ∧ @sink_key toy_keyring 20 "alice" None 1005 ∈ l.
Proof.
assert (H1 : 0 < 20) by lia.
assert (H2 : 0 ≤ block_or None 1005 < 10 ^ Ledger.int_max_str_digits)
  by (split; [vm_compute; discriminate | vm_compute; reflexivity]).
assert (H3 : 1005 - 100 ≤ block_or None 1005 ≤ 1005) by (split; vm_compute; discriminate).
assert (H4 : "/"%char ∉ Py.chars (@ss58_address toy_keyring "alice")) by closed_prop.
assert (H5 : [sample_result] ≠ []) by done.
assert (H6 : default [] (Ledger.shards sample_store
                          !! @sink_key toy_keyring 20 "alice" None 1005) = [])
  by (vm_compute; reflexivity).
assert (H7 : ∀ k, k ∈ default [] (Ledger.index sample_store) →
                  name_readable (Ledger.path_name k))
  by (intros k Hk; by apply elem_of_nil in Hk).
split; [exact H1 |]. split; [exact H2 |]. split; [exact H3 |]. split; [exact H4 |].
split; [exact H5 |]. split; [exact H6 |]. split; [exact H7 |].
split; [vm_compute; reflexivity |].
exact (@sunk_shard_is_discovered toy_keyring Result.t 20 id "alice" N.of_nat
         [sample_result] None 1005 100 sample_store H1 H2 H3 H4 H5 H6 H7).
Defined.

(** X9.  What [sink] stores is signed: under a keypair library whose
    signatures verify, each Result that [sink] uploads carries the
    wallet's address as hotkey and passes [verify]; the miner, challenge,
    response and evaluation are those of the Result given. *)
Theorem sink_results_verify {K : Keyring} {J : Type} (HK : keyring_correct K) (WINDOW : Z)
    (model_dump : Result.t → J) (wallet : keypair) (nonces : nat → N)
    (results : list Result.t) (block : option Z) (cur : Z) (s : Ledger.store J) :
  length (Ledger.sink WINDOW model_dump wallet nonces results block cur s).2 = length results
  ∧ ∀ i r, (Ledger.sink WINDOW model_dump wallet nonces results block cur s).2 !! i = Some r →
      Result.verify r = Ok true
      ∧ Result.hotkey r = ss58_address wallet
      ∧ ∃ r0, results !! i = Some r0
              ∧ Result.miner r = Result.miner r0
              ∧ Result.challenge r = Result.challenge r0
              ∧ Result.response r = Result.response r0
              ∧ Result.evaluation r = Result.evaluation r0.
Proof.
rewrite sink_returns. unfold sink_signed. split; [by rewrite length_imap |].
intros i r Hr. rewrite list_lookup_imap in Hr.
destruct (results !! i) as [r0 |] eqn:Hi; [| done].
cbn in Hr. inversion Hr; subst r. clear Hr.
split; [by apply verify_sign |]. split; [done |].
by exists r0.
Qed.

Lemma sink_results_verify_witness :
  keyring_correct toy_keyring
  ∧ length (@Ledger.sink toy_keyring Result.t 20 id "alice" N.of_nat [sample_result] None 1005
              sample_store).2 = length [sample_result].
Proof.
split; [exact toy_keyring_correct |].
exact (proj1 (@sink_results_verify toy_keyring Result.t toy_keyring_correct 20 id "alice"
                N.of_nat [sample_result] None 1005 sample_store)).
Defined.

(** ** Ledger: [prune] *)

Lemma rev_app_append (s1 s2 acc : string) :
  String.rev_app (s1 +:+ s2) acc = String.rev_app s2 (String.rev_app s1 acc).
Proof.
revert acc. induction s1 as [| c s1 IH]; intros acc; [done |].
rewrite append_cons. cbn. by rewrite IH.
Qed.

Lemma is_jsonl_append (name : string) : Ledger.is_jsonl (name +:+ ".jsonl") = true.
Proof.
unfold Ledger.is_jsonl, String.rev. rewrite rev_app_append.
cbn. by destruct (String.rev_app name "").
Qed.

Lemma length_append (s1 s2 : string) :
  String.length (s1 +:+ s2) = (String.length s1 + String.length s2)%nat.
Proof. induction s1 as [| c s1 IH]; [done |]. rewrite append_cons. cbn. by rewrite IH. Qed.

Lemma substring_append (s1 s2 : string) :
  String.substring 0 (String.length s1) (s1 +:+ s2) = s1.
Proof.
induction s1 as [| c s1 IH]; [by destruct s2 |].
rewrite append_cons. cbn. by rewrite IH.
Qed.

Lemma stem_append (name : string) : name ≠ "" → Ledger.stem (name +:+ ".jsonl") = name.
Proof.
intros Hne. unfold Ledger.stem. rewrite bool_decide_eq_false_2.
- rewrite length_append. cbn [String.length].
  replace (String.length name + 6 - 6)%nat with (String.length name) by lia.
  apply substring_append.
- intros H. apply (f_equal String.length) in H. rewrite length_append in H.
  cbn in H. destruct name; [done |]. cbn in H. lia.
Qed.

Lemma window_of_name_nonempty (name : string) (w : Z) :
  Ledger.window_of_name name = Ok (Some w) → name ≠ "".
Proof. intros H ->. by vm_compute in H. Qed.

Section PruneFacts.
Variables cur tail : Z.

Lemma prune_not_pruned (files : list string) (f : string) :
  f ∈ files → pruned cur tail f = false → f ∈ (Ledger.prune cur tail files).1.
Proof.
induction files as [| g files IH]; intros Hin Hkeep; [by apply elem_of_nil in Hin |].
cbn [Ledger.prune].
destruct (Ledger.prune cur tail files) as [kept e] eqn:Hrec. cbn [fst] in IH.
destruct (Ledger.is_jsonl g) eqn:Hj; cbn [fst].
- destruct (Ledger.window_of_name (Ledger.stem g)) as [ow | e'] eqn:Hw; cbn [fst]; [| done].
  apply elem_of_cons in Hin as [-> | Hin].
  + unfold pruned in Hkeep. rewrite Hj, Hw in Hkeep. cbn in Hkeep. rewrite Hkeep. by left.
  + destruct (match ow with Some b => b <? cur - tail | None => false end);
      [| right]; by apply IH.
- apply elem_of_cons in Hin as [-> | Hin]; [by left | right; by apply IH].
Qed.

Lemma prune_completed (files : list string) (f : string) :
  (Ledger.prune cur tail files).2 = None →
  f ∈ (Ledger.prune cur tail files).1 ↔ f ∈ files ∧ pruned cur tail f = false.
Proof.
induction files as [| g files IH]; cbn [Ledger.prune].
- intros _. cbn. split; [by intros H%elem_of_nil | by intros [H%elem_of_nil _]].
- destruct (Ledger.prune cur tail files) as [kept e] eqn:Hrec. cbn [fst snd] in IH.
  destruct (Ledger.is_jsonl g) eqn:Hj; cbn [fst snd].
  + destruct (Ledger.window_of_name (Ledger.stem g)) as [ow | e'] eqn:Hw; cbn [fst snd];
      [| done].
    intros He. specialize (IH He).
    assert (Hg : pruned cur tail g
                 = match ow with Some b => b <? cur - tail | None => false end).
    { unfold pruned. by rewrite Hj, Hw. }
    destruct (match ow with Some b => b <? cur - tail | None => false end).
    * rewrite IH, elem_of_cons. split; [tauto |].
      intros [[-> | ?] Hk]; [congruence | tauto].
    * rewrite !elem_of_cons, IH. split; [| tauto].
      intros [-> | [? ?]]; [by split; [left |] | tauto].
  + intros He. specialize (IH He).
    assert (Hg : pruned cur tail g = false) by (unfold pruned; by rewrite Hj).
    rewrite !elem_of_cons, IH. split; [| tauto].
    intros [-> | [? ?]]; [by split; [left |] | tauto].
Qed.

Lemma prune_returns (files : list string) :
  (∀ f, f ∈ files → Ledger.is_jsonl f = true → name_readable (Ledger.stem f)) →
  (Ledger.prune cur tail files).2 = None.
Proof.
induction files as [| g files IH]; intros Hread; [done |]. cbn [Ledger.prune].
destruct (Ledger.prune cur tail files) as [kept e] eqn:Hrec. cbn [snd] in IH.
assert (He : e = None) by (apply IH; intros f Hf; apply Hread; by right).
destruct (Ledger.is_jsonl g) eqn:Hj; [| done].
destruct (Hread g) as [ow How]; [by left | done |]. by rewrite How.
Qed.

End PruneFacts.

Lemma pruned_cache_file (cur tail : Z) (key : string) (w : Z) :
  Ledger.window_of_name (Ledger.path_name key) = Ok (Some w) →
  pruned cur tail (Ledger.cache_file key) = bool_decide (w < cur - tail).
Proof.
intros Hw. unfold pruned, Ledger.cache_file.
rewrite is_jsonl_append, stem_append by (by eapply window_of_name_nonempty).
rewrite Hw. cbn. apply eq_true_iff_eq. rewrite Z.ltb_lt, bool_decide_eq_true. done.
Qed.

(** X10.  [prune] and the cache file of a shard, for a block that is not
    negative, of at most 4300 digits, and an address without a slash: a
    file whose window starts at [cur - tail] or later is never deleted;
    when [prune] ends
    without an exception, the file is kept exactly when it was there and
    the start of the shard's window is not below [cur - tail]; and
    [prune] ends without an exception when the stems of the files
    [*.jsonl] can all be read. *)
Theorem prune_keeps_shard_iff (WINDOW cur tail block : Z) (address : string)
    (files : list string) :
  0 < WINDOW → 0 ≤ block < 10 ^ Ledger.int_max_str_digits →
  "/"%char ∉ Py.chars address →
  (Ledger.cache_file (Ledger.shard_key WINDOW block address) ∈ files →
   cur - tail ≤ Ledger._w WINDOW block →
   Ledger.cache_file (Ledger.shard_key WINDOW block address)
     ∈ (Ledger.prune cur tail files).1)
  ∧ ((Ledger.prune cur tail files).2 = None →
     (Ledger.cache_file (Ledger.shard_key WINDOW block address)
        ∈ (Ledger.prune cur tail files).1
      ↔ Ledger.cache_file (Ledger.shard_key WINDOW block address) ∈ files
        ∧ cur - tail ≤ Ledger._w WINDOW block))
  ∧ ((∀ f, f ∈ files → Ledger.is_jsonl f = true → name_readable (Ledger.stem f)) →
     (Ledger.prune cur tail files).2 = None).
Proof.
intros Hpos Hblock Haddr.
pose proof (pruned_cache_file cur tail _ (Ledger._w WINDOW block)
              (shard_key_window_round_trip_aux WINDOW block address Hpos Hblock Haddr))
  as Hp.
split; [| split].
- intros Hin Hle. apply prune_not_pruned; [done |].
  rewrite Hp. apply bool_decide_eq_false. lia.
- intros He. rewrite (prune_completed cur tail files _ He), Hp, bool_decide_eq_false.
  split; intros [H1 H2]; (split; [done | lia]).
- apply prune_returns.
Qed.

Lemma prune_keeps_shard_iff_witness :
  0 < 20 ∧ 0 ≤ 1005 < 10 ^ Ledger.int_max_str_digits
  ∧ ("/"%char ∉ Py.chars "5Fabc")
  ∧ Ledger.cache_file (Ledger.shard_key 20 1005 "5Fabc") = "000001000-5Fabc.json.jsonl"
  ∧ Ledger.prune 1100 100 ["000001000-5Fabc.json.jsonl"; "000000980-5Fabc.json.jsonl"]
    = (["000001000-5Fabc.json.jsonl"], None)
  ∧ Ledger.prune 1100 100 ["000000980-5Fabc.json.jsonl"; "²-x.jsonl";
                           "000000960-5Fabc.json.jsonl"]
    = (["²-x.jsonl"; "000000960-5Fabc.json.jsonl"], Some ValueError)
  ∧ (Ledger.cache_file (Ledger.shard_key 20 1005 "5Fabc")
       ∈ ["000001000-5Fabc.json.jsonl"; "000000980-5Fabc.json.jsonl"] →
     1100 - 100 ≤ Ledger._w 20 1005 →
     Ledger.cache_file (Ledger.shard_key 20 1005 "5Fabc")
       ∈ (Ledger.prune 1100 100
            ["000001000-5Fabc.json.jsonl"; "000000980-5Fabc.json.jsonl"]).1).
Proof.
assert (H1 : 0 < 20) by lia. 
assert (H2 : 0 ≤ 1005 < 10 ^ Ledger.int_max_str_digits) by (split; [lia | vm_compute; reflexivity]).
assert (H3 : "/"%char ∉ Py.chars "5Fabc") by closed_prop.
split; [exact H1 |]. split; [exact H2 |]. split; [exact H3 |].
split; [vm_compute; reflexivity |]. split; [vm_compute; reflexivity |].
split; [vm_compute; reflexivity |].
exact (proj1 (prune_keeps_shard_iff 20 1100 100 1005 "5Fabc"
                ["000001000-5Fabc.json.jsonl"; "000000980-5Fabc.json.jsonl"] H1 H2 H3)).
Defined.

(** X11.  The two ends of the cache disagree on the oldest window.  For
    a block of the trailing range (not negative, of at most 4300 digits)
    whose window starts before [cur - tail], and an address without a
    slash: [_shard_keys], on an index whose names can all be read,
    selects the shard, while [prune], with the same [tail] and ending
    without an exception, deletes its cache file. *)
Theorem oldest_window_selected_and_pruned (WINDOW cur tail block : Z) (address : string)
    (keys files : list string) :
  0 < WINDOW → 0 ≤ block < 10 ^ Ledger.int_max_str_digits →
  "/"%char ∉ Py.chars address →
  Ledger._w WINDOW block < cur - tail → cur - tail ≤ block ≤ cur →
  Ledger.shard_key WINDOW block address ∈ keys →
  (∀ k, k ∈ keys → name_readable (Ledger.path_name k)) →
  (Ledger.prune cur tail files).2 = None →
  (∃ l, Ledger._shard_keys WINDOW (Some keys) cur tail = Ok l
        ∧ Ledger.shard_key WINDOW block address ∈ l)
  ∧ Ledger.cache_file (Ledger.shard_key WINDOW block address)
      ∉ (Ledger.prune cur tail files).1.
Proof.
intros Hpos Hblock Haddr Hold Hrange Hin Hread He. split.
- by apply shard_key_listed.
- rewrite (prune_completed cur tail files _ He).
  rewrite (pruned_cache_file cur tail _ (Ledger._w WINDOW block))
    by (by apply shard_key_window_round_trip_aux).
  rewrite bool_decide_eq_false. intros [_ H]. lia.
Qed.

Lemma oldest_window_selected_and_pruned_witness :
  0 < 20 ∧ 0 ≤ 997 < 10 ^ Ledger.int_max_str_digits
  ∧ ("/"%char ∉ Py.chars "5Fabc")
  ∧ Ledger._w 20 997 < 1005 - 10 ∧ 1005 - 10 ≤ 997 ≤ 1005
  ∧ Ledger.shard_key 20 997 "5Fabc" ∈ ["affine/results/000000980-5Fabc.json"]
  ∧ (∀ k, k ∈ ["affine/results/000000980-5Fabc.json"] →
          name_readable (Ledger.path_name k))
  ∧ Ledger.prune 1005 10 ["000000980-5Fabc.json.jsonl"; "000001000-5Fabc.json.jsonl"; "notes.txt"]
    = (["000001000-5Fabc.json.jsonl"; "notes.txt"], None)
  ∧ (∃ l, Ledger._shard_keys 20 (Some ["affine/results/000000980-5Fabc.json"]) 1005 10 = Ok l
          ∧ Ledger.shard_key 20 997 "5Fabc" ∈ l)
  ∧ Ledger.cache_file (Ledger.shard_key 20 997 "5Fabc")
      ∉ (Ledger.prune 1005 10
           ["000000980-5Fabc.json.jsonl"; "000001000-5Fabc.json.jsonl"; "notes.txt"]).1.
Proof.
assert (H1 : 0 < 20) by lia. 
assert (H2 : 0 ≤ 997 < 10 ^ Ledger.int_max_str_digits) by (split; [lia | vm_compute; reflexivity]).
assert (H3 : "/"%char ∉ Py.chars "5Fabc") by closed_prop.
assert (H4 : Ledger._w 20 997 < 1005 - 10) by (vm_compute; reflexivity).
assert (H5 : 1005 - 10 ≤ 997 ≤ 1005) by lia.
assert (H6 : Ledger.shard_key 20 997 "5Fabc" ∈ ["affine/results/000000980-5Fabc.json"])
  by closed_prop.
assert (H7 : ∀ k, k ∈ ["affine/results/000000980-5Fabc.json"] →
                  name_readable (Ledger.path_name k)).
{ intros k Hk. apply list_elem_of_singleton in Hk. subst k.
  exists (Some 980). vm_compute. reflexivity. }
assert (H8 : (Ledger.prune 1005 10
                ["000000980-5Fabc.json.jsonl"; "000001000-5Fabc.json.jsonl"; "notes.txt"]).2
             = None) by (vm_compute; reflexivity).
split; [exact H1 |]. split; [exact H2 |]. split; [exact H3 |]. split; [exact H4 |].
split; [exact H5 |]. split; [exact H6 |]. split; [exact H7 |].
split; [vm_compute; reflexivity |].
exact (oldest_window_selected_and_pruned 20 1005 10 997 "5Fabc"
         ["affine/results/000000980-5Fabc.json"]
         ["000000980-5Fabc.json.jsonl"; "000001000-5Fabc.json.jsonl"; "notes.txt"]
         H1 H2 H3 H4 H5 H6 H7 H8).
Defined.

(** ** Query: the retry loop *)

Section RetryFacts.
Variable w : Query.world.
Variables (model : string) (retries : Z) (backoff : Qc).

Lemma try_body_fields (k : Z) (resp : Response.t) :
  Query.try_body w model k = inr resp →
  Response.attempts resp = k ∧ Response.model resp = model
  ∧ ((Response.success resp = true
      ∧ Response.error resp = None
      ∧ ∃ r c, Query.post w k = inr r ∧ (Query.status r ∉ Query.TERMINAL)
               ∧ Query.status r < 400 ∧ Query.content r = inr c
               ∧ Response.response resp = c)
     ∨ (Response.success resp = false
        ∧ Response.response resp = None
        ∧ ∃ r, Query.post w k = inr r ∧ Query.status r ∈ Query.TERMINAL
               ∧ is_Some (Response.error resp))).
Proof.
unfold Query.try_body.
destruct (Query.post w k) as [e | r]; [done |].
destruct (Query.text r) as [e | txt]; [done |].
destruct (bool_decide (Query.status r ∈ Query.TERMINAL)) eqn:Hterm.
- intros H. inversion H; subst resp. unfold Query.R. cbn. split; [done |]. split; [done |].
  right. split; [done |]. split; [done |]. exists r.
  apply bool_decide_eq_true in Hterm. split; [done |]. split; [done |]. by eexists.
- destruct (bool_decide (400 ≤ Query.status r)) eqn:H400; [done |].
  destruct (Query.content r) as [e | c] eqn:Hc; [done |].
  intros H. inversion H; subst resp. unfold Query.R. cbn. split; [done |]. split; [done |].
  left. split; [done |]. split; [done |]. exists r, c.
  apply bool_decide_eq_false in Hterm. apply bool_decide_eq_false in H400.
  split; [done |]. split; [done |]. split; [lia |]. done.
Qed.

Lemma ends_with_attempts (k : Z) (resp : Response.t) :
  ends_with w model retries k resp → Response.attempts resp = k.
Proof.
intros [H | (_ & e & _ & ->)]; [| done]. by apply try_body_fields in H as [? _].
Qed.

Lemma query_trace_first (k : Z) : query_trace w backoff k k = [Query.Post k].
Proof. unfold query_trace. by rewrite Z.sub_diag. Qed.

Lemma query_trace_cons (a k : Z) :
  a < k →
  query_trace w backoff a k
  = Query.Post a :: Query.Sleep (Query.sleep_seconds w backoff a)
    :: query_trace w backoff (a + 1) k.
Proof.
intros Hlt. unfold query_trace. rewrite seqZ_cons by lia. cbn.
by replace (Z.pred (k - a)) with (k - (a + 1)) by lia.
Qed.

(** The loop from attempt [a] with the budget left for it. *)
Lemma attempts_from_spec (n : nat) (a : Z) :
  Z.of_nat n = retries + 2 - a → (0 < n)%nat →
  ∃ resp k,
    Query.attempts_from w model retries backoff n a
    = (Some resp, query_trace w backoff a k)
    ∧ a ≤ k ≤ retries + 1
    ∧ (∀ j, a ≤ j < k → ∃ e, Query.try_body w model j = inl e)
    ∧ ends_with w model retries k resp.
Proof.
revert a. induction n as [| n IH]; intros a Hn Hpos; [lia |].
cbn [Query.attempts_from].
destruct (Query.try_body w model a) as [e | resp] eqn:Hbody.
- destruct (bool_decide (a > retries)) eqn:Hlast.
  + apply bool_decide_eq_true in Hlast.
    exists (Query.R w model None a (Some e) false), a.
    rewrite query_trace_first. split; [done |]. split; [lia |].
    split; [intros j Hj; lia |].
    right. split; [lia |]. by exists e.
  + apply bool_decide_eq_false in Hlast.
    destruct (IH (a + 1)) as (resp & k & Heq & Hk & Hbefore & Hend); [lia | lia |].
    exists resp, k. rewrite Heq, (query_trace_cons a k) by lia.
    split; [done |]. split; [lia |]. split; [| done].
    intros j Hj. destruct (decide (j = a)) as [-> | Hne]; [by exists e |].
    apply Hbefore. lia.
- exists resp, a. rewrite query_trace_first. split; [done |]. split; [lia |].
  split; [intros j Hj; lia |]. by left.
Qed.

Lemma query_spec (key : string) :
  Query.api_key w = Some key → key ≠ "" → 0 ≤ retries →
  ∃ resp k,
    Query.query w model retries backoff = Ok (Some resp, query_trace w backoff 1 k)
    ∧ 1 ≤ k ≤ retries + 1
    ∧ (∀ j, 1 ≤ j < k → ∃ e, Query.try_body w model j = inl e)
    ∧ ends_with w model retries k resp.
Proof.
intros Hkey Hne Hret. unfold Query.query. rewrite Hkey.
destruct key as [| c key]; [done |].
destruct (attempts_from_spec (Z.to_nat (retries + 1)) 1) as (resp & k & -> & H);
  [lia | lia |].
by exists resp, k.
Qed.

Lemma ends_with_unique (k k' : Z) (resp resp' : Response.t) :
  1 ≤ k ≤ retries + 1 → 1 ≤ k' ≤ retries + 1 →
  (∀ j, 1 ≤ j < k → ∃ e, Query.try_body w model j = inl e) →
  (∀ j, 1 ≤ j < k' → ∃ e, Query.try_body w model j = inl e) →
  ends_with w model retries k resp → ends_with w model retries k' resp' →
  k = k' ∧ resp = resp'.
Proof.
intros Hk Hk' Hb Hb' He He'.
assert (Hle : ∀ k1 k2 r1, 1 ≤ k1 ≤ retries + 1 → 1 ≤ k2 ≤ retries + 1 →
          (∀ j, 1 ≤ j < k2 → ∃ e, Query.try_body w model j = inl e) →
          ends_with w model retries k1 r1 → k2 ≤ k1).
{ intros k1 k2 r1 H1 H2 Hbefore [Hr | (-> & _)]; [| lia].
  destruct (decide (k2 ≤ k1)) as [| Hgt]; [done |].
  destruct (Hbefore k1) as [e He1]; [lia |]. congruence. }
assert (k = k') as <-.
{ pose proof (Hle k k' resp Hk Hk' Hb' He). pose proof (Hle k' k resp' Hk' Hk Hb He'). lia. }
split; [done |].
destruct He as [Hr | (_ & e & He & ->)], He' as [Hr' | (_ & e' & He' & ->)]; congruence.
Qed.

End RetryFacts.

(** X12.  With an API key and a retry budget that is not negative,
    [query] returns a Response, and it returns [resp] with the events
    [evs] exactly when for some attempt [k] between 1 and [retries + 1]:
    every attempt before [k] raised; attempt [k] returned [resp], or [k]
    is [retries + 1], the attempt raised and [resp] reports its exception;
    and the events are the attempts 1 to [k], each but the last followed
    by its sleep.  The Response carries the number [k]. *)
Theorem query_returns_first_outcome (w : Query.world) (model : string) (retries : Z)
    (backoff : Qc) (key : string) (resp : Response.t) (evs : list Query.event) :
  Query.api_key w = Some key → key ≠ "" → 0 ≤ retries →
  (∃ r0 evs0, Query.query w model retries backoff = Ok (Some r0, evs0))
  ∧ (Query.query w model retries backoff = Ok (Some resp, evs)
     ↔ ∃ k, 1 ≤ k ≤ retries + 1
            ∧ (∀ j, 1 ≤ j < k → ∃ e, Query.try_body w model j = inl e)
            ∧ ends_with w model retries k resp
            ∧ evs = query_trace w backoff 1 k
            ∧ Response.attempts resp = k).
Proof.
intros Hkey Hne Hret.
destruct (query_spec w model retries backoff key Hkey Hne Hret)
  as (resp0 & k0 & Hq & Hk0 & Hb0 & He0).
split; [by exists resp0, (query_trace w backoff 1 k0) |].
rewrite Hq. split.
- intros H. inversion H; subst resp evs. exists k0.
  split; [done |]. split; [done |]. split; [done |]. split; [done |].
  by apply (ends_with_attempts w model retries).
- intros (k & Hk & Hb & He & -> & _).
  destruct (ends_with_unique w model retries k0 k resp0 resp Hk0 Hk Hb0 Hb He0 He)
    as [-> ->].
  done.
Qed.

Lemma query_returns_first_outcome_witness :
  Query.api_key toy_world = Some "key" ∧ "key" ≠ "" ∧ 0 ≤ 5
  ∧ ∃ r0 evs0, Query.query toy_world "m" 5 1%Qc = Ok (Some r0, evs0).
Proof.
assert (H1 : Query.api_key toy_world = Some "key") by reflexivity.
assert (H2 : "key" ≠ "") by done.
assert (H3 : 0 ≤ 5) by lia.
split; [exact H1 |]. split; [exact H2 |]. split; [exact H3 |].
exact (proj1 (query_returns_first_outcome toy_world "m" 5 1%Qc "key"
                (Response.mk None 0%Qc 0 "" None false) [] H1 H2 H3)).
Defined.

(** X13.  A Response that [query] returns is of one of two shapes.  With
    success true it has no error and carries what the content of the
    reply gave, a text or, for a JSON [null], [None]; the reply of its
    attempt had a status below 400 outside the terminal set.  With
    success false it has no text and an error. *)
Theorem query_response_shape (w : Query.world) (model : string) (retries : Z)
    (backoff : Qc) (resp : Response.t) (evs : list Query.event) :
  Query.query w model retries backoff = Ok (Some resp, evs) →
  Response.model resp = model
  ∧ ((Response.success resp = true
      ∧ Response.error resp = None
      ∧ ∃ r c, Query.post w (Response.attempts resp) = inr r
               ∧ (Query.status r ∉ Query.TERMINAL) ∧ Query.status r < 400
               ∧ Query.content r = inr c
               ∧ Response.response resp = c)
     ∨ (Response.success resp = false
        ∧ Response.response resp = None
        ∧ is_Some (Response.error resp))).
Proof.
unfold Query.query.
destruct (Query.api_key w) as [[| c key] |]; [done | | done].
intros H. inversion H as [Hloop]. clear H.
revert Hloop. generalize (Z.to_nat (retries + 1)). generalize 1.
intros a n. revert evs a. induction n as [| n IH]; intros evs a; cbn [Query.attempts_from]; [done |].
destruct (Query.try_body w model a) as [e | r0] eqn:Hbody.
- destruct (bool_decide (a > retries)).
  + intros H. inversion H; subst resp evs. unfold Query.R. cbn.
    split; [done |]. right. split; [done |]. split; [done |]. by eexists.
  + destruct (Query.attempts_from w model retries backoff n (a + 1)) as [resp' evs'] eqn:Hn.
    intros H. inversion H; subst resp' evs. by apply (IH evs' (a + 1)).
- intros H. inversion H; subst r0 evs.
  destruct (try_body_fields w model a resp Hbody) as (Ha & Hm & Hshape).
  split; [done |]. rewrite Ha.
  destruct Hshape as [Hs | (Hf & Hnone & r & _ & _ & Herr)]; [by left | by right].
Qed.

Lemma query_response_shape_witness :
  Query.query null_world "m" 5 1%Qc
  = Ok (Some (Response.mk None 1%Qc 1 "m" None true), [Query.Post 1])
  ∧ Response.model (Response.mk None 1%Qc 1 "m" None true) = "m"
  ∧ ((Response.success (Response.mk None 1%Qc 1 "m" None true) = true
      ∧ Response.error (Response.mk None 1%Qc 1 "m" None true) = None
      ∧ ∃ r c, Query.post null_world
                 (Response.attempts (Response.mk None 1%Qc 1 "m" None true)) = inr r
               ∧ (Query.status r ∉ Query.TERMINAL) ∧ Query.status r < 400
               ∧ Query.content r = inr c
               ∧ Response.response (Response.mk None 1%Qc 1 "m" None true) = c)
     ∨ (Response.success (Response.mk None 1%Qc 1 "m" None true) = false
        ∧ Response.response (Response.mk None 1%Qc 1 "m" None true) = None
        ∧ is_Some (Response.error (Response.mk None 1%Qc 1 "m" None true)))).
Proof.
assert (H : Query.query null_world "m" 5 1%Qc
            = Ok (Some (Response.mk None 1%Qc 1 "m" None true), [Query.Post 1]))
  by (vm_compute; reflexivity).
split; [exact H |].
exact (query_response_shape null_world "m" 5 1%Qc _ _ H).
Defined.

(** X14.  A negative retry budget leaves the loop without an attempt:
    [query] sends nothing and returns [None], not a Response. *)
Theorem query_negative_retries (w : Query.world) (model : string) (retries : Z)
    (backoff : Qc) (key : string) :
  Query.api_key w = Some key → key ≠ "" → retries < 0 →
  Query.query w model retries backoff = Ok (None, []).
Proof.
intros Hkey Hne Hret. unfold Query.query. rewrite Hkey.
destruct key as [| c key]; [done |].
by replace (Z.to_nat (retries + 1)) with 0%nat by lia.
Qed.

Lemma query_negative_retries_witness :
  Query.api_key toy_world = Some "key" ∧ "key" ≠ "" ∧ -1 < 0
  ∧ Query.query toy_world "m" (-1) 1%Qc = Ok (None, []).
Proof.
assert (H1 : Query.api_key toy_world = Some "key") by reflexivity.
assert (H2 : "key" ≠ "") by done.
assert (H3 : -1 < 0) by lia.
split; [exact H1 |]. split; [exact H2 |]. split; [exact H3 |].
exact (query_negative_retries toy_world "m" (-1) 1%Qc "key" H1 H2 H3).
Defined.

(** ** Weight engine: the stream *)

Section StreamFacts.
Variable hotkeys : list string.


Lemma accumulate_keys (st : Weights.state) (c : Result.t) :
  cnt_keys hotkeys st → observed hotkeys c →
  cnt_keys hotkeys (Weights.accumulate (Weights.reset st c) c).
Proof.
intros Hcnt (name & _ & Hin & _) hk. unfold Weights.accumulate. cbn.
rewrite reset_cnt. rewrite set2_keys; [apply Hcnt |]. by apply Hcnt.
Qed.

Lemma step_observed (st : Weights.state) (c : Result.t) :
  cnt_keys hotkeys st → observed hotkeys c →
  Weights.step st c = Ok (Weights.accumulate (Weights.reset st c) c).
Proof.
intros Hcnt Hobs. pose proof Hobs as (name & Hname & _).
apply (step_processed st c name Hname).
by apply (skipped_observed hotkeys st c name Hcnt Hname).
Qed.

Lemma step_not_observed (st : Weights.state) (c : Result.t) (name : string) :
  cnt_keys hotkeys st → Weights.name_of c = Ok name → ¬ observed hotkeys c →
  Weights.step st c = Ok st.
Proof.
intros Hcnt Hname Hobs. apply (step_skipped st c name Hname).
apply not_false_iff_true. intros Hs.
by apply (skipped_observed hotkeys st c name Hcnt Hname) in Hs.
Qed.

Lemma steps_observed (cs : list Result.t) (st : Weights.state) :
  cnt_keys hotkeys st →
  (∀ c, c ∈ cs → ∃ name, Weights.name_of c = Ok name) →
  Weights.steps st cs = Weights.steps st (filter (observed hotkeys) cs).
Proof.
revert st. induction cs as [| c cs IH]; intros st Hcnt Hnames; [done |].
destruct (Hnames c) as [name Hname]; [by left |].
assert (Hrest : ∀ c', c' ∈ cs → ∃ name, Weights.name_of c' = Ok name).
{ intros c' Hc'. apply Hnames. by right. }
destruct (decide (observed hotkeys c)) as [Hobs | Hobs].
- rewrite filter_cons_True by done. cbn [Weights.steps].
  rewrite (step_observed st c Hcnt Hobs). cbn.
  apply IH; [by apply accumulate_keys | done].
- rewrite filter_cons_False by done. cbn [Weights.steps].
  rewrite (step_not_observed st c name Hcnt Hname Hobs). cbn.
  by apply IH.
Qed.

(** A step, by cases. *)
Lemma step_cases (st st' : Weights.state) (c : Result.t) :
  cnt_keys hotkeys st → Weights.step st c = Ok st' →
  (observed hotkeys c ∧ st' = Weights.accumulate (Weights.reset st c) c)
  ∨ (¬ observed hotkeys c ∧ st' = st).
Proof.
intros Hcnt Hstep.
destruct (Weights.name_of c) as [name | e] eqn:Hname.
- destruct (decide (observed hotkeys c)) as [Hobs | Hobs].
  + left. rewrite (step_observed st c Hcnt Hobs) in Hstep. by inversion Hstep.
  + right. rewrite (step_not_observed st c name Hcnt Hname Hobs) in Hstep.
    by inversion Hstep.
- unfold Weights.step in Hstep. by rewrite Hname in Hstep.
Qed.

Lemma observed_count_cons (c : Result.t) (cs : list Result.t) (hk : string) (e : Env) :
  observed_count hotkeys (c :: cs) hk e
  = (if decide (observed hotkeys c ∧ Miner.hotkey (Result.miner c) = hk
                ∧ Challenge.env (Result.challenge c) = e) then 1 else 0)
    + observed_count hotkeys cs hk e.
Proof.
unfold observed_count. destruct (decide _) as [H | H].
- rewrite filter_cons_True by done. cbn [length]. lia.
- rewrite filter_cons_False by done. lia.
Qed.

Lemma steps_cnt (cs : list Result.t) (st st' : Weights.state) (hk : string) (e : Env) :
  cnt_keys hotkeys st → Weights.steps st cs = Ok st' →
  Weights.get2 0 (Weights.cnt st') hk e
  = Weights.get2 0 (Weights.cnt st) hk e + observed_count hotkeys cs hk e.
Proof.
revert st. induction cs as [| c cs IH]; intros st Hcnt Hsteps; cbn in Hsteps.
- inversion Hsteps; subst. unfold observed_count. cbn. lia.
- apply bind_Ok in Hsteps as (st1 & Hstep & Hsteps).
  rewrite observed_count_cons.
  destruct (step_cases st st1 c Hcnt Hstep) as [[Hobs ->] | [Hobs ->]].
  + rewrite (IH _ (accumulate_keys st c Hcnt Hobs) Hsteps).
    unfold Weights.accumulate at 1. cbn [Weights.cnt]. rewrite reset_cnt.
    destruct (decide _) as [(_ & <- & <-) | Hne].
    * rewrite get2_set2_eq. lia.
    * rewrite get2_set2_ne; [lia |]. intros [= -> ->]. by apply Hne.
  + rewrite (IH _ Hcnt Hsteps). rewrite decide_False by tauto. lia.
Qed.

Lemma init_keys : cnt_keys hotkeys (Weights.init hotkeys).
Proof. exact (proj1 (init_invariant hotkeys)). Qed.

Lemma init_get2 {V} (zero : V) (hk : string) (e : Env) :
  Weights.get2 zero (list_to_map ((λ hk, (hk, ∅)) <$> hotkeys)) hk e = zero.
Proof.
unfold Weights.get2.
destruct (list_to_map _ !! hk) as [m |] eqn:Hm; [| done].
apply elem_of_list_to_map_2, list_elem_of_fmap in Hm as (h & Heq & _).
inversion Heq; subst. done.
Qed.

End StreamFacts.

Lemma Qc_of_Z_stdpp (z : Z) : Qc_of_Z z = stdpp.numbers.Qc_of_Z z.
Proof. apply Qc_is_canon. unfold Qc_of_Z. cbn. apply Qred_correct. Qed.

Lemma Qc_of_Z_succ (z : Z) : Qc_of_Z (z + 1) = (Qc_of_Z z + 1)%Qc.
Proof. by rewrite !Qc_of_Z_stdpp, Z2Qc_inj_add, Z2Qc_inj_1. Qed.

Section AccuracyFacts.
Variable hotkeys : list string.


Lemma reset_succ_bounded (st : Weights.state) (c : Result.t) :
  succ_bounded st → succ_bounded (Weights.reset st c).
Proof.
intros Hb hk e. unfold Weights.reset.
destruct (alist_get _ _) as [p |]; [| apply Hb].
destruct (Weights.changed _ _); [| apply Hb]. cbn [Weights.succ Weights.cnt].
destruct (decide ((hk, e) = (Miner.hotkey (Result.miner c),
                             Challenge.env (Result.challenge c)))) as [Heq | Hne].
- inversion Heq; subst. rewrite get2_set2_eq. split; [done |].
  destruct (Hb (Miner.hotkey (Result.miner c)) (Challenge.env (Result.challenge c)))
    as [H1 H2].
  by etrans.
- rewrite get2_set2_ne by done. apply Hb.
Qed.

Lemma accumulate_succ_bounded (st : Weights.state) (c : Result.t) :
  (0 ≤ Evaluation.score (Result.evaluation c))%Qc →
  (Evaluation.score (Result.evaluation c) ≤ 1)%Qc →
  succ_bounded st → succ_bounded (Weights.accumulate st c).
Proof.
intros Hs0 Hs1 Hb hk e. unfold Weights.accumulate. cbn [Weights.succ Weights.cnt].
destruct (decide ((hk, e) = (Miner.hotkey (Result.miner c),
                             Challenge.env (Result.challenge c)))) as [Heq | Hne].
- inversion Heq; subst. rewrite !get2_set2_eq.
  destruct (Hb (Miner.hotkey (Result.miner c)) (Challenge.env (Result.challenge c)))
    as [H1 H2].
  split; [by apply Qcplus_nonneg_nonneg |].
  rewrite Qc_of_Z_succ. by apply Qcplus_le_compat.
- rewrite !get2_set2_ne by done. apply Hb.
Qed.

Lemma steps_succ_bounded (cs : list Result.t) (st st' : Weights.state) :
  cnt_keys hotkeys st → succ_bounded st →
  (∀ c, c ∈ cs → observed hotkeys c →
        (0 ≤ Evaluation.score (Result.evaluation c))%Qc
        ∧ (Evaluation.score (Result.evaluation c) ≤ 1)%Qc) →
  Weights.steps st cs = Ok st' → succ_bounded st'.
Proof.
revert st. induction cs as [| c cs IH]; intros st Hcnt Hb Hscores Hsteps; cbn in Hsteps.
- by inversion Hsteps; subst.
- apply bind_Ok in Hsteps as (st1 & Hstep & Hsteps).
  assert (Hrest : ∀ c', c' ∈ cs → observed hotkeys c' →
            (0 ≤ Evaluation.score (Result.evaluation c'))%Qc
            ∧ (Evaluation.score (Result.evaluation c') ≤ 1)%Qc).
  { intros c' Hc'. apply Hscores. by right. }
  destruct (step_cases hotkeys st st1 c Hcnt Hstep) as [[Hobs ->] | [Hobs ->]].
  + destruct (Hscores c) as [Hs0 Hs1]; [by left | done |].
    apply (IH _ (accumulate_keys hotkeys st c Hcnt Hobs)); [| done | done].
    by apply accumulate_succ_bounded, reset_succ_bounded.
  + by apply (IH st).
Qed.

Lemma init_succ_bounded : succ_bounded (Weights.init hotkeys).
Proof.
intros hk e. unfold Weights.init. cbn [Weights.succ Weights.cnt].
rewrite !init_get2. split; [done |]. by vm_compute.
Qed.

Lemma acc_bounded (st : Weights.state) (hk : string) (e : Env) :
  succ_bounded st → (0 ≤ Weights.acc st hk e)%Qc ∧ (Weights.acc st hk e ≤ 1)%Qc.
Proof.
intros Hb. unfold Weights.acc. destruct (Hb hk e) as [H0 H1].
set (n := Weights.get2 0 (Weights.cnt st) hk e) in *.
set (s := Weights.get2 0%Qc (Weights.succ st) hk e) in *.
destruct (decide (n = 0)) as [Hn | Hn]; [split; [done | by vm_compute] |].
assert (Hq : (0 < Qc_of_Z n)%Qc).
{ assert (H : (0 ≤ Qc_of_Z n)%Qc) by (by etrans).
  rewrite Qc_of_Z_stdpp in H |- *. rewrite <- Z2Qc_inj_0 in H |- *.
  apply (proj2 (Z2Qc_inj_le 0 n)) in H. apply (proj1 (Z2Qc_inj_lt 0 n)). lia. }
pose proof (Qcinv_pos _ Hq) as Hinv.
unfold Qcdiv. split.
- apply Qcmult_nonneg_nonneg; [done |]. by apply Qclt_le_weak.
- rewrite <- (Qcmult_inv_r (Qc_of_Z n)) by (by apply Qclt_not_eq in Hq).
  apply Qcmult_le_mono_nonneg_r; [by apply Qclt_le_weak | done].
Qed.

End AccuracyFacts.

Section OrderFacts.
Variable rk : Env → string → Z.

Lemma dominates_false (a b : string) :
  Weights.dominates rk a b = false ↔ ¬ Dominates rk a b.
Proof. rewrite <- dominates_spec. by destruct (Weights.dominates rk a b). Qed.

Lemma Dominates_asym (a b : string) : Dominates rk a b → ¬ Dominates rk b a.
Proof. intros [H1 [e H2]] [H3 _]. specialize (H3 e). lia. Qed.

Lemma Dominates_trans (a b c : string) :
  Dominates rk a b → Dominates rk b c → Dominates rk a c.
Proof.
intros [H1 [e H2]] [H3 _]. split.
- intros e'. specialize (H1 e'). specialize (H3 e'). lia.
- exists e. specialize (H3 e). lia.
Qed.

End OrderFacts.

(** X15.  Dominance is a strict partial order on the identities, whatever
    the ranks: no identity dominates itself, no two dominate each other,
    and an identity dominates what an identity it dominates dominates. *)
Theorem dominance_is_strict_order (rk : Env → string → Z) :
  (∀ a, Weights.dominates rk a a = false)
  ∧ (∀ a b, Weights.dominates rk a b = true → Weights.dominates rk b a = false)
  ∧ (∀ a b c, Weights.dominates rk a b = true → Weights.dominates rk b c = true →
              Weights.dominates rk a c = true).
Proof.
split; [| split].
- intros a. apply dominates_false. intros H. by apply (Dominates_asym rk a a).
- intros a b H. apply dominates_false. apply dominates_spec in H.
  by apply Dominates_asym.
- intros a b c H1 H2. apply dominates_spec. apply dominates_spec in H1, H2.
  by apply (Dominates_trans rk a b c).
Qed.

(** X16.  Results that are not observed (the hotkey is not registered,
    or the model name does not start with affine) have no influence:
    when the model name of every streamed Result can be read,
    [get_weights] gives on the stream what it gives on its observed
    Results alone. *)
Theorem skipped_results_have_no_influence (hotkeys : list string) (cs : list Result.t)
    (stop : option exn) :
  (∀ c, c ∈ cs → ∃ name, Weights.name_of c = Ok name) →
  Weights.steps (Weights.init hotkeys) cs
  = Weights.steps (Weights.init hotkeys) (filter (observed hotkeys) cs)
  ∧ Weights.get_weights hotkeys (cs, stop)
    = Weights.get_weights hotkeys (filter (observed hotkeys) cs, stop).
Proof.
intros Hnames.
pose proof (steps_observed hotkeys cs _ (init_keys hotkeys) Hnames) as Heq.
split; [done |]. unfold Weights.get_weights. cbn [fst snd]. by rewrite Heq.
Qed.


Lemma skipped_results_have_no_influence_witness :
  (∀ c, c ∈ stray_results ++ scenario → ∃ name, Weights.name_of c = Ok name)
  ∧ filter (observed ["A"; "B"; "C"]) (stray_results ++ scenario) = scenario
  ∧ Weights.get_weights ["A"; "B"; "C"] (stray_results ++ scenario, None)
    = Weights.get_weights ["A"; "B"; "C"]
        (filter (observed ["A"; "B"; "C"]) (stray_results ++ scenario), None).
Proof.
assert (H : ∀ c, c ∈ stray_results ++ scenario → ∃ name, Weights.name_of c = Ok name).
{ intros c Hc. apply Forall_forall with (x := c) (l := stray_results ++ scenario); [| done].
  repeat (apply Forall_cons; split; [by eexists |]). apply Forall_nil_2. }
split; [exact H |]. split; [vm_compute; reflexivity |].
exact (proj2 (skipped_results_have_no_influence ["A"; "B"; "C"]
                (stray_results ++ scenario) None H)).
Defined.

(** X17.  Without an observed Result there is no winner: when the model
    name of every streamed Result can be read, the stream ends normally
    and none of its Results is observed, [get_weights] raises
    [ValueError]. *)
Theorem no_observed_result_raises (hotkeys : list string) (cs : list Result.t) :
  (∀ c, c ∈ cs → ∃ name, Weights.name_of c = Ok name) →
  (∀ c, c ∈ cs → ¬ observed hotkeys c) →
  Weights.get_weights hotkeys (cs, None) = Raise ValueError.
Proof.
intros Hnames Hnone.
unfold Weights.get_weights. cbn [fst snd].
rewrite (steps_observed hotkeys cs _ (init_keys hotkeys) Hnames).
replace (filter (observed hotkeys) cs) with (@nil Result.t).
- cbn. by destruct hotkeys.
- symmetry. apply filter_none. apply Forall_forall. intros c Hc. by apply Hnone.
Qed.

Lemma no_observed_result_raises_witness :
  (∀ c, c ∈ stray_results → ∃ name, Weights.name_of c = Ok name)
  ∧ (∀ c, c ∈ stray_results → ¬ observed ["A"; "B"; "C"] c)
  ∧ Weights.get_weights ["A"; "B"; "C"] (stray_results, None) = Raise ValueError.
Proof.
assert (H1 : ∀ c, c ∈ stray_results → ∃ name, Weights.name_of c = Ok name).
{ intros c Hc. apply Forall_forall with (x := c) (l := stray_results); [| done].
  repeat (apply Forall_cons; split; [by eexists |]). apply Forall_nil_2. }
assert (H2 : ∀ c, c ∈ stray_results → ¬ observed ["A"; "B"; "C"] c).
{ intros c Hc. apply Forall_forall with (x := c) (l := stray_results); [| done].
  repeat (apply Forall_cons; split;
          [apply (bool_decide_unpack _); vm_compute; exact I |]).
  apply Forall_nil_2. }
split; [exact H1 |]. split; [exact H2 |].
exact (no_observed_result_raises ["A"; "B"; "C"] stray_results H1 H2).
Defined.

(** X18.  When the loop of [get_weights] has consumed a stream, the count
    of an identity in an environment is the number of the stream's
    observed Results of that identity in that environment. *)
Theorem counts_are_observed_counts (hotkeys : list string) (cs : list Result.t)
    (st : Weights.state) (hk : string) (e : Env) :
  Weights.steps (Weights.init hotkeys) cs = Ok st →
  Weights.get2 0 (Weights.cnt st) hk e = observed_count hotkeys cs hk e.
Proof.
intros Hsteps.
rewrite (steps_cnt hotkeys cs _ st hk e (init_keys hotkeys) Hsteps).
unfold Weights.init. cbn [Weights.cnt]. by rewrite init_get2.
Qed.

Lemma counts_are_observed_counts_witness :
  Weights.steps (Weights.init ["A"; "B"; "C"]) (stray_results ++ scenario)
  = Ok (state_after ["A"; "B"; "C"] (stray_results ++ scenario))
  ∧ Weights.get2 0 (Weights.cnt (state_after ["A"; "B"; "C"] (stray_results ++ scenario)))
      "A" SAT
    = observed_count ["A"; "B"; "C"] (stray_results ++ scenario) "A" SAT
  ∧ observed_count ["A"; "B"; "C"] (stray_results ++ scenario) "A" SAT = 1.
Proof.
assert (H : Weights.steps (Weights.init ["A"; "B"; "C"]) (stray_results ++ scenario)
            = Ok (state_after ["A"; "B"; "C"] (stray_results ++ scenario)))
  by (vm_compute; reflexivity).
split; [exact H |].
split; [| vm_compute; reflexivity].
exact (counts_are_observed_counts ["A"; "B"; "C"] (stray_results ++ scenario) _ "A" SAT H).
Defined.

(** X19.  When every observed Result of the stream has a score between 0
    and 1, every accuracy that the loop of [get_weights] leaves is between
    0 and 1, resets included. *)
Theorem accuracy_in_unit_interval (hotkeys : list string) (cs : list Result.t)
    (st : Weights.state) (hk : string) (e : Env) :
  Weights.steps (Weights.init hotkeys) cs = Ok st →
  (∀ c, c ∈ cs → observed hotkeys c →
        (0 ≤ Evaluation.score (Result.evaluation c))%Qc
        ∧ (Evaluation.score (Result.evaluation c) ≤ 1)%Qc) →
  (0 ≤ Weights.acc st hk e)%Qc ∧ (Weights.acc st hk e ≤ 1)%Qc.
Proof.
intros Hsteps Hscores. apply (acc_bounded st hk e).
apply (steps_succ_bounded hotkeys cs (Weights.init hotkeys) st);
  [apply init_keys | apply init_succ_bounded | done | done].
Qed.

Lemma accuracy_in_unit_interval_witness :
  Weights.steps (Weights.init ["A"; "B"; "C"]) scenario
  = Ok (state_after ["A"; "B"; "C"] scenario)
  ∧ (∀ c, c ∈ scenario → observed ["A"; "B"; "C"] c →
          (0 ≤ Evaluation.score (Result.evaluation c))%Qc
          ∧ (Evaluation.score (Result.evaluation c) ≤ 1)%Qc)
  ∧ (0 ≤ Weights.acc (state_after ["A"; "B"; "C"] scenario) "A" ABD)%Qc
  ∧ (Weights.acc (state_after ["A"; "B"; "C"] scenario) "A" ABD ≤ 1)%Qc.
Proof.
assert (H1 : Weights.steps (Weights.init ["A"; "B"; "C"]) scenario
             = Ok (state_after ["A"; "B"; "C"] scenario)) by (vm_compute; reflexivity).
assert (H2 : ∀ c, c ∈ scenario → observed ["A"; "B"; "C"] c →
          (0 ≤ Evaluation.score (Result.evaluation c))%Qc
          ∧ (Evaluation.score (Result.evaluation c) ≤ 1)%Qc).
{ intros c Hc _. apply Forall_forall with (x := c) (l := scenario); [| done].
  repeat (apply Forall_cons; split; [split; by vm_compute |]). apply Forall_nil_2. }
split; [exact H1 |]. split; [exact H2 |].
exact (accuracy_in_unit_interval ["A"; "B"; "C"] scenario _ "A" ABD H1 H2).
Defined.

(** ** [_truncate]: the length of what is signed *)

Lemma len_filter (l : list ascii) :
  Py.len l = length (filter (λ c, negb (Py.is_cont c)) l).
Proof.
unfold Py.len, Py.py_len, Py.chars, Py.str.
by rewrite list_ascii_of_string_of_list_ascii.
Qed.

Lemma len_app (l1 l2 : list ascii) : Py.len (l1 ++ l2) = (Py.len l1 + Py.len l2)%nat.
Proof. by rewrite !len_filter, filter_app, length_app. Qed.

Lemma len_concat (ls : list (list ascii)) :
  Py.len (concat ls) = list_sum (map Py.len ls).
Proof.
induction ls as [| l ls IH]; [done |]. cbn [concat map]. rewrite len_app, IH. done.
Qed.

Lemma list_sum_rev (l : list nat) : list_sum (rev l) = list_sum l.
Proof.
induction l as [| x l IH]; [done |]. cbn. rewrite list_sum_app, IH. unfold list_sum. cbn. lia.
Qed.

Lemma len_concat_rev (ls : list (list ascii)) :
  Py.len (concat (rev ls)) = list_sum (map Py.len ls).
Proof. by rewrite len_concat, map_rev, list_sum_rev. Qed.

Lemma len_lstrip (l : list ascii) : (Py.len (Py.lstrip l) ≤ Py.len l)%nat.
Proof.
induction l as [| c l IH]; [done |]. cbn [Py.lstrip].
destruct (Py.is_str_space c); [| done].
etrans; [exact IH |]. change (c :: l) with ([c] ++ l). rewrite len_app. lia.
Qed.

Lemma place_bound (width : nat) (placeholder : list ascii)
    (cur_line : list (list ascii)) (cur_len : nat) :
  (Py.len placeholder ≤ width)%nat →
  cur_len = list_sum (map Py.len cur_line) →
  (Py.len (Py.place width placeholder cur_line cur_len) ≤ width)%nat.
Proof.
intros Hph. revert cur_len. induction cur_line as [| c cs IH]; intros cur_len Hlen.
- cbn. etrans; [apply len_lstrip | done].
- cbn [Py.place].
  destruct (negb (Py.is_blank c) && (cur_len + Py.len placeholder <=? width)%nat) eqn:Hfit.
  + apply andb_true_iff in Hfit as [_ Hfit]. apply Nat.leb_le in Hfit.
    rewrite len_concat_rev.
    change (list_sum (map Py.len (placeholder :: c :: cs)))
      with (Py.len placeholder + list_sum (map Py.len (c :: cs)))%nat.
    rewrite <- Hlen. lia.
  + apply IH. rewrite Hlen.
    change (list_sum (map Py.len (c :: cs))) with (Py.len c + list_sum (map Py.len cs))%nat.
    lia.
Qed.

Lemma wrap_one_line_bound (width : nat) (placeholder : list ascii)
    (chunks : list (list ascii)) :
  (Py.len placeholder ≤ width)%nat →
  (Py.len (Py.wrap_one_line width placeholder chunks) ≤ width)%nat.
Proof.
intros Hph. unfold Py.wrap_one_line.
destruct (Py.take_fitting width 0 [] chunks) as [[line0 len0] rest0].
set (stage := match rest0 with
              | c :: cs =>
                if (width <? Py.len c)%nat
                then let '(piece, remainder) := Py.handle_long_word width len0 c in
                     (piece :: line0, remainder :: cs)
                else (line0, rest0)
              | [] => (line0, rest0)
              end).
destruct stage as [line1 rest1].
set (len1 := list_sum (map Py.len line1)).
assert (Hstage : ∃ line2 len2,
  match line1 with
  | c :: cs => if Py.is_blank c then (cs, (len1 - Py.len c)%nat) else (line1, len1)
  | [] => (line1, len1)
  end = (line2, len2) ∧ len2 = list_sum (map Py.len line2)).
{ destruct line1 as [| c cs]; [by eexists _, _ |].
  destruct (Py.is_blank c); eexists _, _; (split; [reflexivity |]); [| done].
  subst len1.
  change (list_sum (map Py.len (c :: cs))) with (Py.len c + list_sum (map Py.len cs))%nat.
  lia. }
destruct Hstage as (line2 & len2 & -> & Hlen2).
destruct line2 as [| c cs]; [cbn; lia |].
destruct (_ && (len2 <=? width)%nat) eqn:Hfit.
- apply andb_true_iff in Hfit as [_ Hfit]. apply Nat.leb_le in Hfit.
  rewrite len_concat_rev. by rewrite <- Hlen2.
- by apply place_bound.
Qed.

(** X21.  What [_truncate] returns has at most [max_len] characters, for
    a [max_len] of at least one (the placeholder has one character); so
    the text that is signed holds at most 80 characters of the prompt. *)
Theorem truncate_length_bound (t : option string) (max_len : nat) :
  (1 ≤ max_len)%nat → (Py.py_len (_truncate t max_len) ≤ max_len)%nat.
Proof.
intros Hmax. unfold _truncate.
destruct t as [[| c t] |]; [cbn; lia | | cbn; lia].
unfold Py.shorten. apply wrap_one_line_bound.
etrans; [| exact Hmax]. by vm_compute.
Qed.

Lemma truncate_length_bound_witness :
  (1 ≤ 80)%nat
  ∧ (Py.py_len (_truncate (Some (Challenge.prompt challenge_a)) 80) ≤ 80)%nat.
Proof.
assert (H : (1 ≤ 80)%nat) by lia.
split; [exact H |].
exact (truncate_length_bound (Some (Challenge.prompt challenge_a)) 80 H).
Defined.

(** ** [run] *)

(** The lemmas of [alist_set] for keys of any type. *)
Section DictFacts.
Context {Key V : Type} `{EqDecision Key}.
Implicit Types (l : list (Key * V)) (k : Key) (v : V).

Lemma dict_get_set l k v k' :
  alist_get k' (alist_set k v l) = if decide (k = k') then Some v else alist_get k' l.
Proof.
induction l as [| [k0 v0] l IH]; cbn.
- destruct (decide (k' = k)), (decide (k = k')); congruence.
- destruct (decide (k = k0)) as [-> | Hk]; cbn.
  + destruct (decide (k' = k0)), (decide (k0 = k')); congruence.
  + rewrite IH. destruct (decide (k' = k0)), (decide (k = k')); congruence.
Qed.

Lemma dict_set_keys l k v k' :
  k' ∈ (alist_set k v l).*1 ↔ k' = k ∨ k' ∈ l.*1.
Proof.
induction l as [| [k0 v0] l IH]; cbn.
- set_solver.
- destruct (decide (k = k0)) as [-> | Hk]; cbn; set_solver.
Qed.

Lemma dict_set_NoDup l k v : NoDup l.*1 → NoDup (alist_set k v l).*1.
Proof.
induction l as [| [k0 v0] l IH]; cbn; intros Hnd.
- apply NoDup_singleton.
- apply NoDup_cons in Hnd as [Hk0 Hnd].
  destruct (decide (k = k0)) as [-> | Hk]; cbn.
  + by apply NoDup_cons.
  + apply NoDup_cons. split; [| by apply IH].
    rewrite dict_set_keys. intros [-> | Hin]; done.
Qed.

End DictFacts.

Section RunFacts.
Variable world_of : Miner.t → Challenge.t → Query.world.
Variable evaluate : Challenge.t → Response.t → string + Evaluation.t.
Variables (retries : Z) (backoff : Qc).

Lemma omap_Forall2 {A B} (f : A → option B) (P : B → A → Prop) (l : list A) :
  (∀ a, a ∈ l → ∃ b, f a = Some b ∧ P b a) → Forall2 P (omap f l) l.
Proof.
induction l as [| a l IH]; intros H; cbn; [constructor |].
destruct (H a) as (b & -> & Hb); [by left |].
constructor; [done |]. apply IH. intros a' Ha'. apply H. by right.
Qed.

Lemma tasks_have_model (challenges : list Challenge.t) (miners : Run.miners_arg)
    (m : Miner.t) (chal : Challenge.t) :
  (m, chal) ∈ Run.tasks challenges miners →
  Run.has_model m = true ∧ m ∈ (Run.mmap miners).*2 ∧ chal ∈ challenges.
Proof.
unfold Run.tasks. rewrite list_elem_of_bind. intros (m' & Hin & Hm').
apply list_elem_of_bind in Hin as (chal' & Hin & Hc).
apply list_elem_of_singleton in Hin. inversion Hin; subst m' chal'.
apply list_elem_of_filter in Hm' as [Hmodel Hm']. done.
Qed.

End RunFacts.

(** X22.  With an API key for every exchange and a retry budget that is
    not negative, [run] returns one Result for every pair of a Miner with
    a model and a challenge, in the order of the tasks: the Result holds
    the Miner, the challenge, the Response that [query] returned for the
    pair and the Evaluation of the grader, or, when the grader raised, an
    Evaluation with score 0; it has no hotkey and no signature.  Failed
    queries and failed gradings lose no Result. *)
Theorem run_one_result_per_task (world_of : Miner.t → Challenge.t → Query.world)
    (evaluate : Challenge.t → Response.t → string + Evaluation.t)
    (retries : Z) (backoff : Qc)
    (challenges : list Challenge.t) (miners : Run.miners_arg) :
  0 ≤ retries →
  (∀ m chal, ∃ key, Query.api_key (world_of m chal) = Some key ∧ key ≠ "") →
  Forall2
    (λ r t, ∃ resp evs,
        Query.query (world_of t.1 t.2) (default "" (Miner.model t.1)) retries backoff
        = Ok (Some resp, evs)
        ∧ r = Result.new t.1 t.2 resp (Run.grade evaluate t.2 resp)
        ∧ Result.hotkey r = "" ∧ Result.signature r = ""
        ∧ (∀ e, evaluate t.2 resp = inl e →
                Evaluation.score (Result.evaluation r) = 0%Qc))
    (Run.run world_of evaluate retries backoff challenges miners)
    (Run.tasks challenges miners).
Proof.
intros Hret Hkey. unfold Run.run. apply omap_Forall2.
intros [m chal] _. cbn [fst snd].
destruct (Hkey m chal) as (key & Hk & Hne).
destruct (query_spec (world_of m chal) (default "" (Miner.model m)) retries backoff
            key Hk Hne Hret) as (resp & k & Hq & _).
unfold Run.proc. rewrite Hq. cbn.
eexists. split; [reflexivity |]. exists resp, (query_trace (world_of m chal) backoff 1 k).
split; [done |]. split; [done |]. split; [done |]. split; [done |].
intros e He. unfold Run.grade. by rewrite He.
Qed.

Lemma run_one_result_per_task_witness :
  0 ≤ 5
  ∧ (∀ (m : Miner.t) (chal : Challenge.t),
       ∃ key, Query.api_key toy_world = Some key ∧ key ≠ "")
  ∧ length (Run.run (λ _ _, toy_world) toy_evaluate 5 1%Qc [sample_challenge; challenge_a]
              (Run.One sample_miner)) = 2%nat.
Proof.
assert (H1 : 0 ≤ 5) by lia.
assert (H2 : ∀ (m : Miner.t) (chal : Challenge.t),
               ∃ key, Query.api_key toy_world = Some key ∧ key ≠ "")
  by (intros _ _; by exists "key").
split; [exact H1 |]. split; [exact H2 |].
exact (Forall2_length _ _ _
         (run_one_result_per_task (λ _ _, toy_world) toy_evaluate 5 1%Qc
            [sample_challenge; challenge_a] (Run.One sample_miner) H1 H2)).
Defined.

(** X23.  [run] makes no task for a Miner without a model: every Result
    it returns is of a Miner of the map with a model that is not empty
    and of one of the challenges given, whatever the queries do, and
    there are no more Results than tasks. *)
Theorem run_results_are_of_tasks (world_of : Miner.t → Challenge.t → Query.world)
    (evaluate : Challenge.t → Response.t → string + Evaluation.t)
    (retries : Z) (backoff : Qc)
    (challenges : list Challenge.t) (miners : Run.miners_arg) :
  (∀ r, r ∈ Run.run world_of evaluate retries backoff challenges miners →
        Run.has_model (Result.miner r) = true
        ∧ Result.miner r ∈ (Run.mmap miners).*2
        ∧ Result.challenge r ∈ challenges)
  ∧ (length (Run.run world_of evaluate retries backoff challenges miners)
     ≤ length (Run.tasks challenges miners))%nat.
Proof.
split.
- intros r Hr. unfold Run.run in Hr. apply list_elem_of_omap in Hr as ([m chal] & Hin & Hp).
  cbn [fst snd] in Hp. destruct (Run.proc _ _ _ _ m chal) as [r' | e] eqn:Hproc; [| done].
  inversion Hp; subst r'. clear Hp.
  unfold Run.proc in Hproc. apply bind_Ok in Hproc as (out & _ & Hout).
  destruct out.1 as [resp |]; [| done]. inversion Hout; subst r. cbn.
  by apply (tasks_have_model challenges miners).
- unfold Run.run. generalize (Run.tasks challenges miners). intros l.
  induction l as [| t l IH]; cbn; [done |].
  destruct (match Run.proc _ _ _ _ _ _ with Ok _ => _ | Raise _ => _ end); cbn; lia.
Qed.

(** X24.  For a list of Miners the map of [run] has one Miner for each
    uid of the list: the last Miner of the list with that uid. *)
Theorem miners_list_last_wins (l : list Miner.t) :
  NoDup (Run.mmap (Run.Miners l)).*1
  ∧ ∀ uid m, alist_get uid (Run.mmap (Run.Miners l)) = Some m
             ↔ last (filter (λ m, Miner.uid m = uid) l) = Some m.
Proof.
cbn [Run.mmap].
assert (H : ∀ d, NoDup d.*1 →
          NoDup (fold_left (λ d m, alist_set (Miner.uid m) m d) l d).*1
          ∧ ∀ uid m,
              alist_get uid (fold_left (λ d m, alist_set (Miner.uid m) m d) l d) = Some m
              ↔ match last (filter (λ m, Miner.uid m = uid) l) with
                | Some m' => m' = m
                | None => alist_get uid d = Some m
                end).
{ induction l as [| x l IH]; intros d Hd; cbn [fold_left].
  - split; [done |]. intros uid m. by cbn.
  - destruct (IH (alist_set (Miner.uid x) x d)) as [Hnd Hget];
      [by apply dict_set_NoDup |].
    split; [done |]. intros uid m. rewrite Hget.
    destruct (decide (Miner.uid x = uid)) as [Hx | Hx].
    + rewrite filter_cons_True by done. rewrite last_cons.
      destruct (last (filter (λ m, Miner.uid m = uid) l)) as [m' |]; [done |].
      rewrite dict_get_set. rewrite decide_True by done. naive_solver.
    + rewrite filter_cons_False by done.
      destruct (last _); [done |].
      rewrite dict_get_set. by rewrite decide_False. }
destruct (H [] (NoDup_nil_2)) as [Hnd Hget]. split; [done |].
intros uid m. rewrite Hget. destruct (last _); [naive_solver | by cbn].
Qed.

(** ** [miners] and [get_weights]: the model name *)

Lemma split_all_split1 (sep : ascii) (s : string) :
  split_all sep s
  = match split1 sep s with
    | [h; r] => h :: split_all sep r
    | other => other
    end.
Proof.
induction s as [| c s IH]; [done |]. cbn [split_all split1].
destruct (decide (c = sep)); [done |]. rewrite IH.
by destruct (split1 sep s) as [| h [| r [| x tl]]].
Qed.

Lemma split_all_hd (sep : ascii) (s : string) :
  ∃ c tl rest, split_all sep s = c :: tl ∧ s = c +:+ rest.
Proof.
induction s as [| a s (c & tl & rest & Hs & Hr)].
- by exists "", [], "".
- cbn [split_all]. destruct (decide (a = sep)).
  + by exists "", (split_all sep s), (String a s).
  + rewrite Hs. exists (String a c), tl, rest. split; [done |].
    rewrite append_cons. by rewrite <- Hr.
Qed.

Lemma take_cp_prefix (n : nat) (l : list ascii) : ∃ r, l = Py.take_cp n l ++ r.
Proof.
revert n. induction l as [| c l IH]; intros n; [by exists [] |]. cbn [Py.take_cp].
destruct (Py.is_cont c).
- destruct (IH n) as [r Hr]. exists r. cbn. by rewrite <- Hr.
- destruct n as [| n]; [by exists (c :: l) |].
  destruct (IH n) as [r Hr]. exists r. cbn. by rewrite <- Hr.
Qed.

Lemma str_app (l1 l2 : list ascii) : Py.str (l1 ++ l2) = Py.str l1 +:+ Py.str l2.
Proof. unfold Py.str. induction l1 as [| c l1 IH]; [done |]. cbn. by rewrite IH. Qed.

Lemma str_chars (s : string) : Py.str (Py.chars s) = s.
Proof. apply string_of_list_ascii_of_string. Qed.

Lemma lower_append (s1 s2 : string) : lower (s1 +:+ s2) = lower s1 +:+ lower s2.
Proof.
induction s1 as [| c s1 IH]; [done |].
rewrite append_cons. cbn [lower]. by rewrite append_cons, IH.
Qed.

Lemma prefix_append (p s : string) : String.prefix p (p +:+ s) = true.
Proof. apply prefix_correct. apply substring_append. Qed.

Lemma take_cp_startswith (n : nat) (s p : string) :
  Py.str (Py.take_cp n (Py.chars s)) = p → startswith s p = true.
Proof.
intros Hp. destruct (take_cp_prefix n (Py.chars s)) as [r Hr].
apply (f_equal Py.str) in Hr. rewrite str_app, Hp in Hr.
rewrite str_chars in Hr.
unfold startswith. rewrite Hr. apply prefix_append.
Qed.

Lemma startswith_append (s rest p : string) :
  startswith s p = true → startswith (s +:+ rest) p = true.
Proof.
unfold startswith. intros Hp. apply prefix_correct in Hp. apply prefix_correct.
revert s Hp. induction p as [| a p IH]; intros s Hp; [by destruct (s +:+ rest) |].
destruct s as [| b s]; [done |]. rewrite append_cons. cbn in Hp |- *.
injection Hp as -> Hs. f_equal. by apply IH.
Qed.

(** X25.  A model name that passes the test of [miners] is one that
    [get_weights] can read and does not skip by name: when
    [model.split('/')[1].lower()[:6]] is [affine], then
    [model.split('/',1)[1].lower()] exists and starts with [affine]. *)
Theorem accepted_name_is_observed_name (c : Result.t) :
  Miners.name_ok (Miner.model (Result.miner c)) = Ok true →
  ∃ name, Weights.name_of c = Ok name ∧ startswith name "affine" = true.
Proof.
unfold Miners.name_ok, Weights.name_of.
destruct (Miner.model (Result.miner c)) as [m |]; [| done].
rewrite split_all_split1.
destruct (split1 "/" m) as [| h [| r [| x tl]]]; try done.
- destruct (split_all_hd "/" r) as (c1 & tl & rest & Hs & Hr). rewrite Hs.
  intros [= Htest]. apply bool_decide_eq_true in Htest.
  exists (lower r). split; [done |].
  rewrite Hr, lower_append. apply startswith_append.
  by apply (take_cp_startswith 6).
- intros [= Htest]. apply bool_decide_eq_true in Htest.
  exists (lower r). split; [done |]. by apply (take_cp_startswith 6).
Qed.

Lemma accepted_name_is_observed_name_witness :
  Miners.name_ok (Miner.model (Result.miner sample_result)) = Ok true
  ∧ ∃ name, Weights.name_of sample_result = Ok name ∧ startswith name "affine" = true.
Proof.
assert (H : Miners.name_ok (Miner.model (Result.miner sample_result)) = Ok true)
  by (vm_compute; reflexivity).
split; [exact H |].
exact (accepted_name_is_observed_name sample_result H).
Defined.

(** ** Validator: [retry_set_weights] *)

Lemma retry_from_spec (outcome : Z → Validator.try_outcome) (n : nat) (t : Z) :
  let r := Validator.retry_from outcome n t in
  (length r.2 ≤ n)%nat
  ∧ Forall (λ c, t ≤ c < t + Z.of_nat n ∧ outcome c ≠ Validator.ConnectFails) r.2
  ∧ StronglySorted Z.lt r.2
  ∧ (r.1 = true ↔
       ∃ c cur lu, last r.2 = Some c ∧ outcome c = Validator.Checked cur lu ∧ cur ≤ lu)
  ∧ (∀ c cur lu, c ∈ r.2 → outcome c = Validator.Checked cur lu → cur ≤ lu →
       last r.2 = Some c).
Proof.
revert t. induction n as [| n IH]; intros t; cbn [Validator.retry_from].
- cbn. split; [done |]. split; [done |]. split; [constructor |].
  split; [| by intros c cur lu H%elem_of_nil].
  split; [done | by intros (c & cur & lu & H & _)].
- specialize (IH (t + 1)). cbv zeta in IH.
  destruct (Validator.retry_from outcome n (t + 1)) as [ok calls] eqn:Hrec.
  cbn [fst snd] in IH. destruct IH as (Hlen & Hall & Hsort & Hok & Hfirst).
  assert (Hall' : Forall (λ c, t ≤ c < t + Z.of_nat (S n)
                               ∧ outcome c ≠ Validator.ConnectFails) calls).
  { eapply Forall_impl; [exact Hall |]. cbn. intros c [? ?]. split; [lia | done]. }
  assert (Hcons : ∀ o, outcome t = o → o ≠ Validator.ConnectFails →
            (∀ cur lu, o = Validator.Checked cur lu → ¬ cur ≤ lu) →
            let r := (ok, t :: calls) in
            (length r.2 ≤ S n)%nat
            ∧ Forall (λ c, t ≤ c < t + Z.of_nat (S n)
                           ∧ outcome c ≠ Validator.ConnectFails) r.2
            ∧ StronglySorted Z.lt r.2
            ∧ (r.1 = true ↔
                 ∃ c cur lu, last r.2 = Some c
                             ∧ outcome c = Validator.Checked cur lu ∧ cur ≤ lu)
            ∧ (∀ c cur lu, c ∈ r.2 → outcome c = Validator.Checked cur lu → cur ≤ lu →
                 last r.2 = Some c)).
  { intros o Ho Hnc Hnot. cbn [fst snd].
    split; [cbn; lia |].
    split; [constructor; [split; [lia | congruence] | done] |].
    split.
    { constructor; [done |]. eapply Forall_impl; [exact Hall |]. cbn. lia. }
    split.
    - rewrite Hok. rewrite last_cons. split.
      + intros (c & cur & lu & Hl & Hc). exists c, cur, lu. by rewrite Hl.
      + intros (c & cur & lu & Hl & Hc & Hge).
        destruct (last calls) as [c' |] eqn:Hlast.
        * inversion Hl; subst c'. by exists c, cur, lu.
        * inversion Hl; subst c. exfalso. rewrite Ho in Hc.
          by apply (Hnot cur lu).
    - intros c cur lu Hin Hc Hge. apply elem_of_cons in Hin as [-> | Hin].
      + exfalso. rewrite Ho in Hc. by apply (Hnot cur lu).
      + rewrite last_cons. by rewrite (Hfirst c cur lu Hin Hc Hge). }
  destruct (outcome t) as [| | | cur lu] eqn:Ho.
  + cbn [fst snd].
    split; [lia |]. split; [done |]. split; [done |]. split; done.
  + by apply (Hcons Validator.SubmitFails).
  + by apply (Hcons Validator.CheckFails).
  + destruct (lu >=? cur) eqn:Hge.
    * apply Z.geb_le in Hge. cbn [fst snd].
      split; [cbn; lia |].
      split; [constructor; [split; [lia | congruence] | done] |].
      split; [repeat constructor |].
      split.
      -- split; [intros _ | done]. by exists t, cur, lu.
      -- intros c cur' lu' Hin _ _. by apply list_elem_of_singleton in Hin as ->.
    * assert (¬ cur ≤ lu) by (intros Hle; apply Z.geb_le in Hle; congruence).
      apply (Hcons (Validator.Checked cur lu)); [done | done |].
      intros cur' lu' [= <- <-]. done.
Qed.

(** X26.  [retry_set_weights] calls [set_weights] at most [retry] times,
    in passes numbered below [retry], and not after a pass that saw the
    weights on chain: such a pass is the last that calls.  It reports
    success exactly when its last call was followed by a check that saw
    the last update at or after the current block. *)
Theorem retry_set_weights_budget (outcome : Z → Validator.try_outcome) (retry : Z) :
  0 ≤ retry →
  (Z.of_nat (length (Validator.retry_set_weights outcome retry).2) ≤ retry)
  ∧ Forall (λ c, 0 ≤ c < retry) (Validator.retry_set_weights outcome retry).2
  ∧ StronglySorted Z.lt (Validator.retry_set_weights outcome retry).2
  ∧ ((Validator.retry_set_weights outcome retry).1 = true ↔
       ∃ c cur lu, last (Validator.retry_set_weights outcome retry).2 = Some c
                   ∧ outcome c = Validator.Checked cur lu ∧ cur ≤ lu)
  ∧ (∀ c cur lu, c ∈ (Validator.retry_set_weights outcome retry).2 →
       outcome c = Validator.Checked cur lu → cur ≤ lu →
       last (Validator.retry_set_weights outcome retry).2 = Some c).
Proof.
intros Hretry. unfold Validator.retry_set_weights.
pose proof (retry_from_spec outcome (Z.to_nat retry) 0) as H. cbv zeta in H.
destruct H as (Hlen & Hall & Hsort & Hok & Hfirst).
split; [lia |]. split; [| done].
eapply Forall_impl; [exact Hall |]. cbn. intros c [? _]. lia.
Qed.


Lemma retry_set_weights_budget_witness :
  0 ≤ 3
  ∧ Validator.retry_set_weights toy_outcome 3 = (true, [0; 1])
  ∧ Z.of_nat (length (Validator.retry_set_weights toy_outcome 3).2) ≤ 3.
Proof.
assert (H : 0 ≤ 3) by lia.
split; [exact H |]. split; [vm_compute; reflexivity |].
exact (proj1 (retry_set_weights_budget toy_outcome 3 H)).
Defined.

(** ** Validator: the loop of [validate] *)

Lemma pass_step_spec (LAST : Z) (p : Validator.pass) :
  ((Validator.pass_step LAST p).1 = LAST
   ∧ completed_blocks (Validator.pass_step LAST p).2 = []
   ∧ ∀ b, Validator.Completed b ∉ (Validator.pass_step LAST p).2)
  ∨ (∃ uid calls c,
       LAST < (Validator.pass_step LAST p).1
       ∧ (Validator.pass_step LAST p).2
         = [Validator.GetWeights (Validator.pass_step LAST p).1;
            Validator.SetWeights (Validator.pass_step LAST p).1 uid calls c;
            Validator.Completed (Validator.pass_step LAST p).1]).
Proof.
unfold Validator.pass_step.
destruct (Validator.block p) as [B |]; [| left; cbn; set_solver].
destruct (bool_decide _) eqn:Hwait.
- left. cbn. destruct (Validator.prefetch_ok p); cbn; set_solver.
- apply bool_decide_eq_false in Hwait.
  destruct (Validator.winner p) as [uid |]; [| left; cbn; set_solver].
  destruct (Validator.retry_set_weights _ _) as [c calls].
  destruct (Validator.reconnect_ok p); [| left; cbn; set_solver].
  right. exists uid, calls, c. cbn. split; [lia | done].
Qed.

Lemma pass_step_set (LAST : Z) (p : Validator.pass) (b uid : Z) (calls : list Z) (c : bool) :
  Validator.SetWeights b uid calls c ∈ (Validator.pass_step LAST p).2 →
  LAST < b ∧ b `mod` Validator.TEMPO = 0.
Proof.
unfold Validator.pass_step.
destruct (Validator.block p) as [B |]; [| cbn; set_solver].
destruct (bool_decide _) eqn:Hwait.
- destruct (Validator.prefetch_ok p); cbn; set_solver.
- apply bool_decide_eq_false in Hwait.
  assert (HB : LAST < B ∧ B `mod` Validator.TEMPO = 0).
  { destruct (decide (B `mod` Validator.TEMPO = 0)); [| tauto].
    destruct (decide (B ≤ LAST)); [tauto | lia]. }
  destruct (Validator.winner p) as [uid' |]; [| cbn; set_solver].
  destruct (Validator.retry_set_weights _ _) as [c' calls'].
  destruct (Validator.reconnect_ok p); cbn; intros Hin;
    repeat (apply elem_of_cons in Hin as [Hin | Hin]; [try done |]);
    try (by apply elem_of_nil in Hin); by inversion Hin; subst.
Qed.

Lemma completed_blocks_app (evs1 evs2 : list Validator.event) :
  completed_blocks (evs1 ++ evs2) = completed_blocks evs1 ++ completed_blocks evs2.
Proof. unfold completed_blocks. apply omap_app. Qed.

Lemma completed_blocks_elem_of (evs : list Validator.event) (b : Z) :
  b ∈ completed_blocks evs ↔ Validator.Completed b ∈ evs.
Proof.
unfold completed_blocks. rewrite list_elem_of_omap. split.
- intros (ev & Hin & Hev). destruct ev; try done. by inversion Hev; subst.
- intros Hin. by exists (Validator.Completed b).
Qed.

Lemma passes_from_spec (ps : list Validator.pass) (LAST : Z) :
  (∀ b, Validator.Completed b ∈ (Validator.passes_from LAST ps).2 → LAST < b)
  ∧ (∀ b uid calls c,
       Validator.SetWeights b uid calls c ∈ (Validator.passes_from LAST ps).2 →
       LAST < b ∧ b `mod` Validator.TEMPO = 0)
  ∧ (∀ i j b b' uid calls c, (i < j)%nat →
       (Validator.passes_from LAST ps).2 !! i = Some (Validator.Completed b) →
       (Validator.passes_from LAST ps).2 !! j = Some (Validator.SetWeights b' uid calls c) →
       b < b')
  ∧ StronglySorted Z.lt (completed_blocks (Validator.passes_from LAST ps).2)
  ∧ (Validator.passes_from LAST ps).1
    = default LAST (last (completed_blocks (Validator.passes_from LAST ps).2)).
Proof.
revert LAST. induction ps as [| p ps IH]; intros LAST; cbn [Validator.passes_from].
- cbn. split; [set_solver |]. split; [set_solver |]. split; [done |].
  split; [constructor | done].
- pose proof (pass_step_spec LAST p) as Hstep.
  pose proof (pass_step_set LAST p) as Hset.
  destruct (Validator.pass_step LAST p) as [LAST1 evs1]. cbn [fst snd] in Hstep, Hset.
  specialize (IH LAST1).
  destruct (Validator.passes_from LAST1 ps) as [LAST2 evs2]. cbn [fst snd] in IH |- *.
  destruct IH as (Hc & Hs & Hord & Hsort & Hlast).
  assert (Hle : LAST ≤ LAST1) by (destruct Hstep as [(-> & _) | (? & ? & ? & ? & _)]; lia).
  assert (Hc1 : ∀ b, Validator.Completed b ∈ evs1 → b = LAST1 ∧ LAST < b).
  { intros b Hb. destruct Hstep as [(_ & _ & Hno) | (uid & calls & c & Hlt & ->)].
    - by apply Hno in Hb.
    - repeat (apply elem_of_cons in Hb as [Hb | Hb]; [try done |]).
      + by inversion Hb; subst.
      + by apply elem_of_nil in Hb. }
  split; [| split; [| split; [| split]]].
  + intros b Hb. apply elem_of_app in Hb as [Hb | Hb].
    * by apply Hc1 in Hb as [_ ?].
    * apply Hc in Hb. lia.
  + intros b uid calls c Hb. apply elem_of_app in Hb as [Hb | Hb].
    * by apply (Hset b uid calls c).
    * apply Hs in Hb. split; [lia | tauto].
  + intros i j b b' uid calls c Hij Hi Hj.
    apply lookup_app_Some in Hi as [Hi | [Hlen Hi]].
    * apply lookup_app_Some in Hj as [Hj | [Hlen Hj]].
      -- exfalso. destruct Hstep as [(_ & _ & Hno) | (uid' & calls' & c' & Hlt & ->)].
         ++ apply (Hno b). by apply list_elem_of_lookup_2 in Hi.
         ++ destruct i as [| [| [| i]]], j as [| [| [| j]]]; cbn in Hi, Hj; try done; lia.
      -- apply list_elem_of_lookup_2 in Hi, Hj.
         apply Hc1 in Hi as [-> _]. by apply Hs in Hj as [? _].
    * apply lookup_app_Some in Hj as [Hj | [Hlen' Hj]].
      -- apply lookup_lt_Some in Hj. lia.
      -- apply (Hord (i - length evs1)%nat (j - length evs1)%nat b b' uid calls c);
           [lia | done | done].
  + rewrite completed_blocks_app.
    destruct Hstep as [(_ & -> & _) | (uid & calls & c & Hlt & ->)]; [done |].
    cbn. constructor; [done |].
    apply Forall_forall. intros b Hb. apply completed_blocks_elem_of in Hb.
    by apply Hc.
  + rewrite completed_blocks_app, Hlast.
    destruct Hstep as [(-> & -> & _) | (uid & calls & c & Hlt & ->)]; [done |].
    cbn [completed_blocks omap]. cbn.
    change (omap _ evs2) with (completed_blocks evs2).
    rewrite last_cons. by destruct (last (completed_blocks evs2)).
Qed.

(** X27.  In every run of the loop of [validate]: [set_weights] is
    called only at blocks that are positive multiples of the tempo; the
    blocks of the completed rounds increase strictly; after a round
    completed at a block, [set_weights] is never called again at that
    block or an earlier one; and [LAST] is the block of the last
    completed round. *)
Theorem validate_rounds (ps : list Validator.pass) :
  Forall (λ b, 0 < b ∧ b `mod` Validator.TEMPO = 0) (set_blocks (Validator.validate ps).2)
  ∧ StronglySorted Z.lt (completed_blocks (Validator.validate ps).2)
  ∧ (∀ i j b b' uid calls c, (i < j)%nat →
       (Validator.validate ps).2 !! i = Some (Validator.Completed b) →
       (Validator.validate ps).2 !! j = Some (Validator.SetWeights b' uid calls c) →
       b < b')
  ∧ (Validator.validate ps).1 = default 0 (last (completed_blocks (Validator.validate ps).2)).
Proof.
unfold Validator.validate.
destruct (passes_from_spec ps 0) as (_ & Hs & Hord & Hsort & Hlast).
split; [| done].
apply Forall_forall. intros b Hb. unfold set_blocks in Hb.
apply list_elem_of_omap in Hb as (ev & Hin & Hev).
destruct ev as [| | b' uid calls c | |]; try done. inversion Hev; subst b'.
by apply (Hs b uid calls c).
Qed.

(** X28.  The bookkeeping of a round, at a block [B] that is a multiple
    of the tempo above [LAST].  When [get_weights] returns and the
    connection after [retry_set_weights] holds, [LAST] becomes [B]
    whether or not the weights were seen on chain, and a later pass at
    [B] calls [set_weights] no more.  When [get_weights] raises, [LAST]
    stays, nothing is set, and a later pass at [B] runs the round again. *)
Theorem round_bookkeeping (LAST B : Z) (p : Validator.pass) :
  Validator.block p = Some B → B `mod` Validator.TEMPO = 0 → LAST < B →
  (∀ uid, Validator.winner p = Some uid → Validator.reconnect_ok p = true →
     (Validator.pass_step LAST p).1 = B
     ∧ set_blocks (Validator.pass_step LAST p).2 = [B]
     ∧ ∀ p', Validator.block p' = Some B →
         (Validator.pass_step B p').1 = B
         ∧ set_blocks (Validator.pass_step B p').2 = [])
  ∧ (Validator.winner p = None →
     (Validator.pass_step LAST p).1 = LAST
     ∧ set_blocks (Validator.pass_step LAST p).2 = []
     ∧ ∀ p' uid, Validator.block p' = Some B → Validator.winner p' = Some uid →
         set_blocks (Validator.pass_step (Validator.pass_step LAST p).1 p').2 = [B]).
Proof.
intros Hblock Hmod Hlt.
assert (Hgo : ∀ p', Validator.block p' = Some B →
          Validator.pass_step LAST p'
          = match Validator.winner p' with
            | None => (LAST, [Validator.GetWeights B; Validator.Error])
            | Some uid =>
              let '(confirmed, calls) := Validator.retry_set_weights (Validator.outcome p') 3 in
              if Validator.reconnect_ok p'
              then (B, [Validator.GetWeights B; Validator.SetWeights B uid calls confirmed;
                        Validator.Completed B])
              else (LAST, [Validator.GetWeights B; Validator.SetWeights B uid calls confirmed;
                           Validator.Error])
            end).
{ intros p' Hb. unfold Validator.pass_step. rewrite Hb.
  rewrite bool_decide_eq_false_2; [done |]. intros [? | ?]; [done | lia]. }
assert (Hwait : ∀ p', Validator.block p' = Some B →
          Validator.pass_step B p'
          = (B, Validator.Prefetch B :: if Validator.prefetch_ok p' then []
                                        else [Validator.Error])).
{ intros p' Hb. unfold Validator.pass_step. rewrite Hb.
  rewrite bool_decide_eq_true_2; [done |]. right. lia. }
split.
- intros uid Hw Hre. rewrite (Hgo p Hblock), Hw, Hre.
  destruct (Validator.retry_set_weights _ _) as [c calls]. cbn.
  split; [done |]. split; [done |].
  intros p' Hb'. rewrite (Hwait p' Hb'). by destruct (Validator.prefetch_ok p').
- intros Hw. rewrite (Hgo p Hblock), Hw. cbn. split; [done |]. split; [done |].
  intros p' uid Hb' Hw'. rewrite (Hgo p' Hb'), Hw'.
  destruct (Validator.retry_set_weights _ _) as [c calls].
  by destruct (Validator.reconnect_ok p').
Qed.


Lemma round_bookkeeping_witness :
  Validator.block toy_pass = Some 1200 ∧ 1200 `mod` Validator.TEMPO = 0 ∧ 1100 < 1200
  ∧ Validator.pass_step 1100 toy_pass
    = (1200, [Validator.GetWeights 1200; Validator.SetWeights 1200 7 [0; 1; 2] false;
              Validator.Completed 1200])
  ∧ (Validator.pass_step 1100 toy_pass).1 = 1200
  ∧ set_blocks (Validator.pass_step 1100 toy_pass).2 = [1200]
  ∧ ∀ p', Validator.block p' = Some 1200 →
      (Validator.pass_step 1200 p').1 = 1200
      ∧ set_blocks (Validator.pass_step 1200 p').2 = [].
Proof.
assert (H1 : Validator.block toy_pass = Some 1200) by reflexivity.
assert (H2 : 1200 `mod` Validator.TEMPO = 0) by reflexivity.
assert (H3 : 1100 < 1200) by lia.
split; [exact H1 |]. split; [exact H2 |]. split; [exact H3 |].
split; [vm_compute; reflexivity |].
exact (proj1 (round_bookkeeping 1100 1200 toy_pass H1 H2 H3) 7 eq_refl eq_refl).
Defined.

(** ** The checker of LCB: [_normalize] *)

(** Values of [_normalize], as Python gives them. *)
Example normalize_examples :
  Lcb._normalize (Some [49; 32; 50; 32; 10; 51; 9; 10; 10]%N) = [49; 32; 50; 10; 51]%N
  ∧ Lcb._normalize (Some [97; 13; 10; 98; 32; 13]%N) = [97; 10; 98]%N
  ∧ Lcb._normalize (Some [32; 120; 10; 10; 32; 121; 32]%N) = [32; 120; 10; 10; 32; 121]%N
  ∧ Lcb._normalize (Some [97; 8232; 98; 160]%N) = [97; 10; 98]%N
  ∧ Lcb._normalize (Some [10; 10]%N) = []
  ∧ Lcb._normalize (Some [97; 11; 98; 31]%N) = [97; 10; 98]%N
  ∧ Lcb._normalize (Some [120; 32; 12288; 10]%N) = [120]%N
  ∧ Lcb._normalize None = [].
Proof. vm_compute. repeat split. Qed.

Section NormalizeFacts.

Lemma linebreak_is_space (c : N) : Lcb.is_linebreak c = true → Lcb.is_space c = true.
Proof.
unfold Lcb.is_linebreak, Lcb.is_space.
rewrite !orb_true_iff, !andb_true_iff, !N.leb_le, !N.eqb_eq. lia.
Qed.

Lemma rstrip_spaces (ws : list N) :
  Forall (λ c, Lcb.is_space c = true) ws → Lcb.rstrip ws = [].
Proof.
induction 1 as [| c ws Hc _ IH]; [done |]. cbn [Lcb.rstrip]. by rewrite IH, Hc.
Qed.

Lemma rstrip_app_spaces (t ws : list N) :
  Forall (λ c, Lcb.is_space c = true) ws → Lcb.rstrip (t ++ ws) = Lcb.rstrip t.
Proof.
intros Hws. induction t as [| c t IH]; [by apply rstrip_spaces |].
cbn [app Lcb.rstrip]. by rewrite IH.
Qed.


Lemma rstrip_stripped (l : list N) : stripped (Lcb.rstrip l).
Proof.
unfold stripped. induction l as [| c l IH]; [done |]. cbn [Lcb.rstrip].
destruct (Lcb.rstrip l) as [| d r] eqn:Hr.
- destruct (Lcb.is_space c) eqn:Hc; [done | by cbn].
- by rewrite last_cons_cons.
Qed.

Lemma rstrip_fixed (l : list N) : stripped l → Lcb.rstrip l = l.
Proof.
unfold stripped. induction l as [| c l IH]; [done |]. intros Hl. cbn [Lcb.rstrip].
destruct l as [| d l].
- cbn in Hl |- *. by rewrite Hl.
- rewrite last_cons_cons in Hl. by rewrite (IH Hl).
Qed.


Lemma splitlines_go_lines (l cur : list N) :
  is_line cur → Forall is_line (Lcb.splitlines_go cur l).
Proof.
revert cur. induction l as [l IH] using (induction_ltof1 _ (@length N)). unfold ltof in IH.
intros cur Hcur. destruct l as [| c l]; cbn [Lcb.splitlines_go].
- destruct cur; [constructor |]. constructor; [| constructor].
  unfold is_line. by apply Forall_rev.
- destruct (Lcb.is_linebreak c) eqn:Hc.
  + constructor; [unfold is_line; by apply Forall_rev |].
    destruct l as [| d l]; [apply IH; [cbn; lia | constructor] |].
    destruct ((c =? 13)%N && (d =? 10)%N); apply IH; try (cbn; lia); constructor.
  + apply IH; [cbn; lia |]. by constructor.
Qed.

(** The last line is what follows the last boundary: it ends as the text
    ends. *)
Lemma splitlines_go_last (l cur : list N) (c : N) :
  last l = Some c → Lcb.is_linebreak c = false →
  ∃ line, last (Lcb.splitlines_go cur l) = Some line ∧ last line = Some c.
Proof.
revert cur. induction l as [l IH] using (induction_ltof1 _ (@length N)). unfold ltof in IH.
intros cur Hlast Hc. destruct l as [| a l]; [done |]. cbn [Lcb.splitlines_go].
destruct l as [| d l].
- cbn in Hlast. inversion Hlast; subst a. rewrite Hc. cbn.
  exists (rev cur ++ [c]). split; [done |]. by rewrite last_snoc.
- rewrite last_cons_cons in Hlast.
  destruct (Lcb.is_linebreak a) eqn:Ha.
  + assert (Hrest : ∀ l', (length l' < length (a :: d :: l))%nat → last l' = Some c →
              ∃ line, last (rev cur :: Lcb.splitlines_go [] l') = Some line
                      ∧ last line = Some c).
    { intros l' Hlen Hl'. destruct (IH l' Hlen [] Hl' Hc) as (line & Hline & Hend).
      exists line. split; [| done].
      destruct (Lcb.splitlines_go [] l') as [| x xs]; [done |].
      by rewrite last_cons_cons. }
    destruct ((a =? 13)%N && (d =? 10)%N) eqn:Hcrlf.
    * destruct l as [| e l].
      { cbn in Hlast. inversion Hlast; subst d.
        apply andb_true_iff in Hcrlf as [_ Hd]. apply N.eqb_eq in Hd. subst c. done. }
      rewrite last_cons_cons in Hlast. apply Hrest; [cbn; lia | done].
    * apply Hrest; [cbn; lia | done].
  + apply IH; [cbn; lia | done | done].
Qed.

Lemma splitlines_go_line (x cur : list N) :
  is_line x → rev cur ++ x ≠ [] → Lcb.splitlines_go cur x = [rev cur ++ x].
Proof.
revert cur. induction x as [| c x IH]; intros cur Hx Hne; cbn [Lcb.splitlines_go].
- rewrite app_nil_r in Hne |- *. by destruct cur.
- apply Forall_cons in Hx as [Hc Hx]. rewrite Hc.
  rewrite (IH (c :: cur) Hx); cbn [rev]; rewrite <- app_assoc; [done |].
  by destruct (rev cur).
Qed.

Lemma splitlines_go_join (x : list N) (ls : list (list N)) (cur : list N) :
  is_line x → ls ≠ [] →
  Lcb.splitlines_go cur (x ++ 10%N :: Lcb.join_lines ls)
  = (rev cur ++ x) :: Lcb.splitlines_go [] (Lcb.join_lines ls).
Proof.
intros Hx Hls. revert cur. induction x as [| c x IH]; intros cur.
- cbn [app Lcb.splitlines_go]. rewrite app_nil_r.
  change (Lcb.is_linebreak 10) with true. cbv iota.
  by destruct (Lcb.join_lines ls).
- apply Forall_cons in Hx as [Hc Hx]. cbn [app Lcb.splitlines_go]. rewrite Hc.
  rewrite (IH Hx). cbn [rev]. by rewrite <- app_assoc.
Qed.

(** Lines, the last of which is not empty, are read back from their
    join. *)
Lemma splitlines_join (ls : list (list N)) :
  Forall is_line ls →
  match last ls with Some l => l ≠ [] | None => True end →
  Lcb.splitlines (Lcb.join_lines ls) = ls.
Proof.
unfold Lcb.splitlines. induction ls as [| x ls IH]; intros Hls Hlast; [done |].
apply Forall_cons in Hls as [Hx Hls].
destruct ls as [| y ls].
- cbn [Lcb.join_lines]. cbn in Hlast. by rewrite splitlines_go_line.
- rewrite last_cons_cons in Hlast.
  change (Lcb.join_lines (x :: y :: ls)) with (x ++ 10%N :: Lcb.join_lines (y :: ls)).
  rewrite splitlines_go_join by done. cbn [rev app]. by rewrite IH.
Qed.

Lemma rstrip_is_line (l : list N) : is_line l → is_line (Lcb.rstrip l).
Proof.
unfold is_line. induction l as [| c l IH]; [done |]. intros Hl.
apply Forall_cons in Hl as [Hc Hl]. cbn [Lcb.rstrip].
destruct (Lcb.rstrip l) as [| d r].
- destruct (Lcb.is_space c); [constructor | by repeat constructor].
- constructor; [done |]. by apply IH.
Qed.

Lemma join_lines_last (ls : list (list N)) (l : list N) (c : N) :
  last ls = Some l → last l = Some c → last (Lcb.join_lines ls) = Some c.
Proof.
induction ls as [| x ls IH]; [done |]. intros Hls Hl.
destruct ls as [| y ls].
- cbn in Hls. by inversion Hls; subst.
- rewrite last_cons_cons in Hls.
  change (Lcb.join_lines (x :: y :: ls)) with (x ++ 10%N :: Lcb.join_lines (y :: ls)).
  rewrite last_app. rewrite last_cons. by rewrite (IH Hls Hl).
Qed.

Lemma normalize_Some (text : list N) :
  Lcb._normalize (Some text)
  = Lcb.join_lines (Lcb.rstrip <$> Lcb.splitlines (Lcb.rstrip text)).
Proof. reflexivity. Qed.

(** The lines of a normalised text. *)
Lemma normalize_lines (text : option (list N)) :
  let ls := Lcb.rstrip <$> Lcb.splitlines (Lcb.rstrip (default [] text)) in
  Forall is_line ls
  ∧ Forall stripped ls
  ∧ match last ls with
    | Some l => ∃ c, last l = Some c ∧ Lcb.is_space c = false
    | None => True
    end.
Proof.
cbv zeta. set (t := Lcb.rstrip (default [] text)).
pose proof (rstrip_stripped (default [] text)) as Ht. fold t in Ht.
split; [| split].
- apply Forall_fmap. eapply Forall_impl; [apply splitlines_go_lines; constructor |].
  intros l Hl. by apply rstrip_is_line.
- apply Forall_fmap, Forall_forall. intros l _. apply rstrip_stripped.
- rewrite fmap_last. unfold stripped in Ht.
  destruct (last t) as [c |] eqn:Hlast.
  + assert (Hc : Lcb.is_linebreak c = false).
    { destruct (Lcb.is_linebreak c) eqn:H; [| done].
      apply linebreak_is_space in H. congruence. }
    destruct (splitlines_go_last t [] c Hlast Hc) as (line & Hline & Hend).
    unfold Lcb.splitlines. rewrite Hline. cbn.
    exists c. split; [| done].
    rewrite rstrip_fixed; [done |]. unfold stripped. by rewrite Hend.
  + apply last_None in Hlast. by rewrite Hlast.
Qed.

End NormalizeFacts.

(** X29.  [_normalize] ignores white space at the end of the text, and
    what it returns is normalised: normalising it again changes nothing,
    it has no white space at its end, and its lines, separated by line
    feeds, have no white space at their ends. *)
Theorem normalize_is_canonical (text : list N) (ws : list N) :
  Forall (λ c, Lcb.is_space c = true) ws →
  Lcb._normalize (Some (text ++ ws)) = Lcb._normalize (Some text)
  ∧ Lcb._normalize (Some (Lcb._normalize (Some text))) = Lcb._normalize (Some text)
  ∧ Lcb.rstrip (Lcb._normalize (Some text)) = Lcb._normalize (Some text)
  ∧ Forall (λ l, Lcb.rstrip l = l) (Lcb.splitlines (Lcb._normalize (Some text))).
Proof.
intros Hws.
split; [by rewrite !normalize_Some, (rstrip_app_spaces text ws Hws) |].
destruct (normalize_lines (Some text)) as (Hlines & Hstripped & Hlast).
cbv zeta in Hlines, Hstripped, Hlast.
set (ls := Lcb.rstrip <$> Lcb.splitlines (Lcb.rstrip (default [] (Some text)))) in *.
assert (Hn : Lcb._normalize (Some text) = Lcb.join_lines ls) by done.
assert (Hfix : Lcb.rstrip (Lcb.join_lines ls) = Lcb.join_lines ls).
{ apply rstrip_fixed. unfold stripped.
  destruct (last ls) as [l |] eqn:Hl.
  - destruct Hlast as (c & Hc & Hsp). by rewrite (join_lines_last ls l c Hl Hc).
  - apply last_None in Hl. by rewrite Hl. }
assert (Hsplit : Lcb.splitlines (Lcb.join_lines ls) = ls).
{ apply splitlines_join; [done |].
  destruct (last ls) as [l |]; [| done].
  destruct Hlast as (c & Hc & _). by intros ->. }
assert (Hmap : Lcb.rstrip <$> ls = ls).
{ apply list_eq. intros i. rewrite list_lookup_fmap.
  destruct (ls !! i) as [l |] eqn:Hi; [| done]. cbn. f_equal.
  apply rstrip_fixed. by apply (Forall_lookup_1 _ _ _ _ Hstripped Hi). }
rewrite Hn. split; [| split].
- by rewrite normalize_Some, Hfix, Hsplit, Hmap.
- done.
- rewrite Hsplit. apply Forall_forall. intros l Hl. apply rstrip_fixed.
  by apply (proj1 (Forall_forall _ _) Hstripped).
Qed.

Lemma normalize_is_canonical_witness :
  Forall (λ c, Lcb.is_space c = true) [32; 10; 9; 10]%N
  ∧ Lcb._normalize (Some ([49; 32; 32; 13; 10; 32; 50; 160] ++ [32; 10; 9; 10]))%N
    = [49; 10; 32; 50]%N
  ∧ Lcb._normalize (Some ([49; 32; 32; 13; 10; 32; 50; 160] ++ [32; 10; 9; 10]))%N
    = Lcb._normalize (Some [49; 32; 32; 13; 10; 32; 50; 160])%N.
Proof.
assert (H : Forall (λ c, Lcb.is_space c = true) [32; 10; 9; 10]%N)
  by (repeat constructor).
split; [exact H |]. split; [vm_compute; reflexivity |].
exact (proj1 (normalize_is_canonical [49; 32; 32; 13; 10; 32; 50; 160]%N
                [32; 10; 9; 10]%N H)).
Defined.

(** ** From [sink] to [dataset] *)

(** X30.  What the runner uploads is what the validator streams: under a
    keypair library whose signatures verify and a decoder that reads back
    the dumps of the signed Results, [dataset] over the shard as [sink]
    left it (one line for each item) yields what the shard's earlier
    lines yield and then the Results given to [sink], signed, in order,
    and ends normally. *)
Theorem sunk_results_are_streamed {K : Keyring} (HK : keyring_correct K) (WINDOW : Z)
    (model_dump : Result.t → string) (model_validate : string → result Result.t)
    (wallet : keypair) (nonces : nat → N) (results : list Result.t)
    (block : option Z) (cur : Z) (s : Ledger.store string) :
  results ≠ [] →
  (∀ r, r ∈ sink_signed wallet nonces results → model_validate (model_dump r) = Ok r) →
  ∃ lines,
    Ledger.shards (Ledger.sink WINDOW model_dump wallet nonces results block cur s).1
      !! sink_key WINDOW wallet block cur = Some lines
    ∧ dataset model_validate [Ok lines]
      = (omap (accepted_line model_validate)
              (default [] (Ledger.shards s !! sink_key WINDOW wallet block cur))
         ++ sink_signed wallet nonces results, None).
Proof.
intros Hne Hround. eexists. split.
- rewrite sink_shards by done. apply lookup_insert_eq.
- cbn [dataset]. rewrite dataset_lines_spec, omap_app_lines.
  unfold stream_app. cbn. rewrite app_nil_r. f_equal. f_equal.
  assert (Hall : ∀ l : list Result.t, (∀ r, r ∈ l → r ∈ sink_signed wallet nonces results) →
            omap (accepted_line model_validate) (model_dump <$> l) = l).
  { induction l as [| r l IH]; intros Hl; [done |]. cbn.
    assert (Hr : r ∈ sink_signed wallet nonces results) by (apply Hl; by left).
    unfold accepted_line at 1. rewrite (Hround r Hr).
    unfold sink_signed in Hr. apply list_elem_of_lookup_1 in Hr as [i Hi].
    rewrite list_lookup_imap in Hi.
    destruct (results !! i) as [r0 |]; [| done]. cbn in Hi. inversion Hi; subst r.
    rewrite (verify_sign HK). cbn. f_equal. apply IH. intros r' Hr'. apply Hl. by right. }
  by apply Hall.
Qed.

Lemma sunk_results_are_streamed_witness :
  keyring_correct toy_keyring
  ∧ [sample_result] ≠ []
  ∧ (∀ r, r ∈ @sink_signed toy_keyring "alice" (λ _, 1%N) [sample_result] →
          toy_validate ((λ _, "alice") r) = Ok r)
  ∧ ∃ lines,
      Ledger.shards (@Ledger.sink toy_keyring string 20 (λ _, "alice") "alice" (λ _, 1%N)
                       [sample_result] None 1005 (Ledger.mk_store None ∅)).1
        !! @sink_key toy_keyring 20 "alice" None 1005 = Some lines
      ∧ @dataset toy_keyring toy_validate [Ok lines]
        = (omap (@accepted_line toy_keyring toy_validate)
                (default [] (Ledger.shards (Ledger.mk_store None (∅ : gmap string (list string)))
                             !! @sink_key toy_keyring 20 "alice" None 1005))
           ++ @sink_signed toy_keyring "alice" (λ _, 1%N) [sample_result], None).
Proof.
assert (H1 : [sample_result] ≠ []) by done.
assert (H2 : ∀ r, r ∈ @sink_signed toy_keyring "alice" (λ _, 1%N) [sample_result] →
                  toy_validate ((λ _, "alice") r) = Ok r).
{ intros r Hr. apply list_elem_of_singleton in Hr. subst r. reflexivity. }
split; [exact toy_keyring_correct |]. split; [exact H1 |]. split; [exact H2 |].
exact (@sunk_results_are_streamed toy_keyring toy_keyring_correct 20 (λ _, "alice")
         toy_validate "alice" (λ _, 1%N) [sample_result] None 1005
         (Ledger.mk_store None ∅) H1 H2).
Defined.

(** ** [get_weights]: the summary table and the return *)

Lemma split1_shape (sep : ascii) (s : string) :
  (∃ h, split1 sep s = [h]) ∨ (∃ h r, split1 sep s = [h; r]).
Proof.
induction s as [| c s IH]; [left; by eexists |]. cbn [split1].
destruct (decide (c = sep)); [right; by do 2 eexists |].
destruct IH as [[h ->] | (h & r & ->)]; [left | right]; by repeat eexists.
Qed.

Lemma summary_row_Ok (h : string) (c : Result.t) (name : string) :
  Weights.name_of c = Ok name → is_Some (Miner.revision (Result.miner c)) →
  Weights.summary_row (h, c) = Ok ().
Proof.
unfold Weights.name_of, Weights.summary_row. cbn [snd].
destruct (Miner.model (Result.miner c)) as [m |]; [| done].
rewrite split_all_split1.
destruct (split1_shape "/" m) as [[x ->] | (x & r & ->)]; [done |].
intros _ [rev ->].
destruct (split_all_hd "/" r) as (y & tl & rest & -> & _). done.
Qed.

Lemma summary_row_TypeError (h : string) (c : Result.t) (name : string) :
  Weights.name_of c = Ok name → Miner.revision (Result.miner c) = None →
  Weights.summary_row (h, c) = Raise TypeError.
Proof.
unfold Weights.name_of, Weights.summary_row. cbn [snd].
destruct (Miner.model (Result.miner c)) as [m |]; [| done].
rewrite split_all_split1.
destruct (split1_shape "/" m) as [[x ->] | (x & r & ->)]; [done |].
intros _ ->.
destruct (split_all_hd "/" r) as (y & tl & rest & -> & _). done.
Qed.

Lemma summary_Ok (items : list (string * Result.t)) :
  (∀ item, item ∈ items → Weights.summary_row item = Ok ()) →
  Weights.summary items = Ok ().
Proof.
induction items as [| item items IH]; intros Hall; [done |]. cbn [Weights.summary].
rewrite (Hall item) by (by left). cbn. apply IH. intros i Hi. apply Hall. by right.
Qed.

Lemma summary_TypeError (items : list (string * Result.t)) :
  (∀ item, item ∈ items →
     Weights.summary_row item = Ok () ∨ Weights.summary_row item = Raise TypeError) →
  (∃ item, item ∈ items ∧ Weights.summary_row item = Raise TypeError) →
  Weights.summary items = Raise TypeError.
Proof.
induction items as [| item items IH]; intros Hall (bad & Hin & Hbad);
  [by apply elem_of_nil in Hin |].
cbn [Weights.summary].
destruct (Hall item) as [Hrow | Hrow]; [by left | | by rewrite Hrow].
rewrite Hrow. cbn.
apply IH; [intros i Hi; apply Hall; by right |].
apply elem_of_cons in Hin as [-> | Hin]; [congruence | by exists bad].
Qed.

Lemma get_weights_unfold (hotkeys : list string) (cs : list Result.t) (st : Weights.state) :
  Weights.steps (Weights.init hotkeys) cs = Ok st → hotkeys ≠ [] →
  Weights.get_weights hotkeys (cs, None)
  = (best ← py_max (Weights.best_key (Weights.dom (Weights.ranks hotkeys st) hotkeys))
               (Weights.prev st);
     best_uid ← Weights.index hotkeys best.1;
     _ ← Weights.summary (Weights.prev st);
     Ok (best_uid, best.1)).
Proof.
intros Hsteps Hne. unfold Weights.get_weights. cbn [fst snd]. rewrite Hsteps.
by destruct hotkeys.
Qed.

(** X20.  Given the hotkeys of the metagraph and a stream of [dataset]
    that ends normally, in which every Result has a model name with a
    '/' and some Result is observed: when the last observed Result of
    every identity carries a block and a revision, [get_weights] returns
    a winner; when each of them carries a block and one of them has no
    revision, [get_weights] raises the TypeError of the summary table. *)
Lemma get_weights_returns (hotkeys : list string) (cs : list Result.t) :
  (∀ c, c ∈ cs → ∃ name, Weights.name_of c = Ok name) →
  (∃ c, c ∈ cs ∧ observed hotkeys c) →
  (∀ h r, latest hotkeys cs h = Some r → is_Some (Miner.block (Result.miner r))) →
  ((∀ h r, latest hotkeys cs h = Some r → is_Some (Miner.revision (Result.miner r))) →
   ∃ uid best, Weights.get_weights hotkeys (cs, None) = Ok (uid, best))
  ∧ ((∃ h r, latest hotkeys cs h = Some r ∧ Miner.revision (Result.miner r) = None) →
     Weights.get_weights hotkeys (cs, None) = Raise TypeError).
Proof.
intros Hnames (c & Hc & Hobs) Hblocks.
destruct (steps_total cs (Weights.init hotkeys) Hnames) as [st Hsteps].
pose proof (steps_invariant hotkeys cs [] _ st (init_invariant hotkeys) Hsteps)
  as (Hcnt & Hnd & Hprev).
rewrite app_nil_l in Hprev.
assert (Hne : hotkeys ≠ []).
{ destruct Hobs as (_ & _ & Hin & _). intros ->. by apply elem_of_nil in Hin. }
rewrite (get_weights_unfold hotkeys cs st Hsteps Hne).
assert (Hitem : ∀ h r, (h, r) ∈ Weights.prev st ↔ latest hotkeys cs h = Some r).
{ intros h r. rewrite <- Hprev. by apply alist_get_elem_of. }
destruct (py_max_total
            (Weights.best_key (Weights.dom (Weights.ranks hotkeys st) hotkeys))
            (Weights.prev st)) as [[hb rb] Hmax].
{ destruct (latest_is_Some hotkeys cs c Hc Hobs) as [r Hr].
  apply Hitem in Hr. intros Hnil. rewrite Hnil in Hr. by apply elem_of_nil in Hr. }
{ intros [h r] Hin. apply Hitem in Hin. destruct (Hblocks h r Hin) as [b Hb].
  unfold Weights.best_key. cbn. rewrite Hb. by eexists. }
assert (Hhb : hb ∈ hotkeys).
{ apply py_max_spec in Hmax as (Hin & _). apply Hitem in Hin.
  apply latest_Some in Hin as (_ & (name & _ & H & _) & Heq). by rewrite <- Heq. }
destruct (list_find_elem_of (λ h, h = hb) hotkeys hb Hhb eq_refl) as [[i x] Hfind].
assert (Hidx : Weights.index hotkeys hb = Ok (Z.of_nat i))
  by (unfold Weights.index; by rewrite Hfind).
rewrite Hmax. cbn [mbind result_bind fst]. rewrite Hidx. cbn [mbind result_bind].
assert (Hname : ∀ h r, (h, r) ∈ Weights.prev st → ∃ name, Weights.name_of r = Ok name).
{ intros h r Hin. apply Hitem in Hin. apply latest_Some in Hin as (Hin & _).
  by apply Hnames. }
split.
- intros Hrev. exists (Z.of_nat i), hb.
  rewrite summary_Ok; [done |].
  intros [h r] Hin. destruct (Hname h r Hin) as [name Hn].
  apply (summary_row_Ok h r name Hn). apply (Hrev h). by apply Hitem.
- intros (h & r & Hl & Hnone).
  rewrite summary_TypeError; [done | |].
  + intros [h' r'] Hin. destruct (Hname h' r' Hin) as [name Hn].
    destruct (Miner.revision (Result.miner r')) as [rev |] eqn:Hrev.
    * left. apply (summary_row_Ok h' r' name Hn). rewrite Hrev. by eexists.
    * right. by apply (summary_row_TypeError h' r' name Hn).
  + exists (h, r). apply Hitem in Hl. split; [done |].
    destruct (Hname h r Hl) as [name Hn]. by apply (summary_row_TypeError h r name Hn).
Qed.

Lemma get_weights_returns_witness :
  (∀ c, c ∈ scenario → ∃ name, Weights.name_of c = Ok name)
  ∧ (∃ c, c ∈ scenario ∧ observed ["A"; "B"; "C"] c)
  ∧ (∀ h r, latest ["A"; "B"; "C"] scenario h = Some r →
            is_Some (Miner.block (Result.miner r)))
  ∧ (∀ h r, latest ["A"; "B"; "C"] scenario h = Some r →
            is_Some (Miner.revision (Result.miner r)))
  ∧ ∃ uid best, Weights.get_weights ["A"; "B"; "C"] (scenario, None) = Ok (uid, best).
Proof.
assert (H1 : ∀ c, c ∈ scenario → ∃ name, Weights.name_of c = Ok name).
{ intros c Hc. apply Forall_forall with (x := c) (l := scenario); [| done].
  repeat (apply Forall_cons; split; [by eexists |]). apply Forall_nil_2. }
assert (H2 : ∃ c, c ∈ scenario ∧ observed ["A"; "B"; "C"] c).
{ exists (scored "A" (Some "org/Affine-a") (Some 10) SAT 1%Qc).
  split; [by left |]. apply (bool_decide_unpack _). vm_compute. exact I. }
assert (H3 : ∀ h r, latest ["A"; "B"; "C"] scenario h = Some r →
                    is_Some (Miner.block (Result.miner r))).
{ intros h r Hl. apply latest_Some in Hl as (Hin & _).
  apply Forall_forall with (x := r) (l := scenario); [| done].
  repeat (apply Forall_cons; split; [by eexists |]). apply Forall_nil_2. }
assert (H4 : ∀ h r, latest ["A"; "B"; "C"] scenario h = Some r →
                    is_Some (Miner.revision (Result.miner r))).
{ intros h r Hl. apply latest_Some in Hl as (Hin & _).
  apply Forall_forall with (x := r) (l := scenario); [| done].
  repeat (apply Forall_cons; split; [by eexists |]). apply Forall_nil_2. }
split; [exact H1 |]. split; [exact H2 |]. split; [exact H3 |]. split; [exact H4 |].
exact (proj1 (get_weights_returns ["A"; "B"; "C"] scenario H1 H2 H3) H4).
Defined.
